(** * GPP reduction kernel ([gpp.cpp]): model and verified properties

    The kernel [noflagOCC_solver] and its caller [main] are embedded over
    an explicit heap: every pointer argument of the C++ code is a location
    of the heap, every array a block of that heap, and every array access
    is checked (an access the C++ standard leaves undefined yields [None]).

    The element type [dataType] of the source is an alias ([using dataType
    = double]) and [CustomComplex] is a template, so the kernel is written
    once over an interface [Scalar]; the instance [float_scalar] (IEEE 754
    binary64, one rounding per operator) is the program as it is compiled,
    the instance [Qc_scalar] is exact arithmetic. *)

From Stdlib Require Import ZArith Floats QArith Qcanon.
From stdpp Require Import base tactics option list list_numbers strings gmap.

Local Open Scope Z_scope.
#[local] Set Warnings "-clear-no-such-hyp,-inexact-float".

(** ** The scalar interface ([dataType]) *)

Class Scalar (T : Type) := {
  s_zero : T;
  s_one : T;
  s_half : T;                       (* the literal 0.5 *)
  s_micro : T;                      (* the literal 1e-6 *)
  s_add : T → T → T;
  s_sub : T → T → T;
  s_mul : T → T → T;
  s_div : T → T → T;
  s_opp : T → T;
  s_of_int : Z → T                  (* conversion of an integer operand *)
}.

Declare Scope scalar_scope.
Delimit Scope scalar_scope with S.
Infix "+" := s_add : scalar_scope.
Infix "-" := s_sub : scalar_scope.
Infix "*" := s_mul : scalar_scope.
Infix "/" := s_div : scalar_scope.

(** Conversion of a (signed) integer to binary64, as the C++ implicit
    conversion [long -> double] does it: round to nearest. *)
Definition float_of_int (z : Z) : float :=
  if bool_decide (z < 0)
  then PrimFloat.opp (PrimFloat.of_uint63 (Uint63.of_Z (- z)))
  else PrimFloat.of_uint63 (Uint63.of_Z z).

#[export] Instance float_scalar : Scalar float := {|
  s_zero := 0%float;
  s_one := 1%float;
  s_half := 0.5%float;
  s_micro := 1e-6%float;
  s_add := PrimFloat.add;
  s_sub := PrimFloat.sub;
  s_mul := PrimFloat.mul;
  s_div := PrimFloat.div;
  s_opp := PrimFloat.opp;
  s_of_int := float_of_int
|}.

#[export] Instance Qc_scalar : Scalar Qc := {|
  s_zero := Q2Qc 0;
  s_one := Q2Qc 1;
  s_half := Q2Qc (1 # 2);
  s_micro := Q2Qc (1 # 1000000);
  s_add := Qcplus;
  s_sub := Qcminus;
  s_mul := Qcmult;
  s_div := Qcdiv;
  s_opp := Qcopp;
  s_of_int := λ z, Q2Qc (inject_Z z)
|}.

(** The laws of exact arithmetic that the algebraic properties of the
    kernel rest on.  Binary64 rounds every sum and product, and has a
    signed zero: it satisfies neither the associativity laws, nor
    distributivity, nor the neutrality of zero. *)
Record ExactScalar (T : Type) `{Scalar T} : Prop := {
  exact_add_assoc : ∀ a b c : T, (a + (b + c) = (a + b) + c)%S;
  exact_add_0_l : ∀ a : T, (s_zero + a = a)%S;
  exact_add_0_r : ∀ a : T, (a + s_zero = a)%S;
  exact_mul_assoc : ∀ a b c : T, (a * (b * c) = (a * b) * c)%S;
  exact_mul_comm : ∀ a b : T, (a * b = b * a)%S;
  exact_mul_add_distr_l : ∀ k a b : T, (k * (a + b) = k * a + k * b)%S;
  exact_mul_0_r : ∀ k : T, (k * s_zero = s_zero)%S
}.

(** ** Complex values

    Modelled from the spec: [CustomComplex.h] is not part of the sources;
    section 4.1 of the specification gives the operations: a pair (real,
    imaginary), component-wise subtraction, the product
    [(ar*br - ai*bi, ar*bi + ai*br)], a scalar factor distributed over both
    components, conjugation negating the imaginary component. *)
Record CustomComplex (T : Type) := mkComplex { get_real : T; get_imag : T }.
Arguments mkComplex {T} _ _.
Arguments get_real {T} _.
Arguments get_imag {T} _.

Section Complex.
Context {T : Type} `{Scalar T}.

Definition CustomComplex_real (a : CustomComplex T) : T := get_real a.
Definition CustomComplex_imag (a : CustomComplex T) : T := get_imag a.

Definition conj (a : CustomComplex T) : CustomComplex T :=
  mkComplex (get_real a) (s_opp (get_imag a)).

(** [a * b], both complex *)
Definition cmul (a b : CustomComplex T) : CustomComplex T :=
  mkComplex (get_real a * get_real b - get_imag a * get_imag b)%S
            (get_real a * get_imag b + get_imag a * get_real b)%S.

(** [a * b], [b] of type [dataType] *)
Definition cscale (a : CustomComplex T) (b : T) : CustomComplex T :=
  mkComplex (get_real a * b)%S (get_imag a * b)%S.

(** [a - b], [a] of type [dataType]: the real operand is the complex
    number [(a, 0)] and the subtraction is component-wise. *)
Definition rsub (a : T) (b : CustomComplex T) : CustomComplex T :=
  mkComplex (a - get_real b)%S (s_zero - get_imag b)%S.
End Complex.

(** ** The heap *)

Definition loc := Z.

Inductive block (T : Type) :=
  | BInt (l : list Z)                      (* int*  *)
  | BReal (l : list T)                     (* dataType*  *)
  | BCplx (l : list (CustomComplex T)).    (* CustomComplex<dataType>*  *)
Arguments BInt {T} _.
Arguments BReal {T} _.
Arguments BCplx {T} _.

(** [a[i]] for a C array held as a list: defined for [0 <= i < length a]. *)
Definition index {A : Type} (a : list A) (i : Z) : option A :=
  if bool_decide (0 ≤ i) then a !! Z.to_nat i else None.

Section Heap.
Context {T : Type}.
Local Abbreviation heap := (gmap loc (block T)).

Definition load_int (m : heap) (p : loc) (i : Z) : option Z :=
  match m !! p with Some (BInt l) => index l i | _ => None end.

Definition load_real (m : heap) (p : loc) (i : Z) : option T :=
  match m !! p with Some (BReal l) => index l i | _ => None end.

Definition load_cplx (m : heap) (p : loc) (i : Z) : option (CustomComplex T) :=
  match m !! p with Some (BCplx l) => index l i | _ => None end.

Definition store_int (m : heap) (p : loc) (i : Z) (v : Z) : option heap :=
  match m !! p with
  | Some (BInt l) =>
      if bool_decide (0 ≤ i < Z.of_nat (length l))
      then Some (<[p := BInt (<[Z.to_nat i := v]> l)]> m) else None
  | _ => None
  end.

Definition store_real (m : heap) (p : loc) (i : Z) (v : T) : option heap :=
  match m !! p with
  | Some (BReal l) =>
      if bool_decide (0 ≤ i < Z.of_nat (length l))
      then Some (<[p := BReal (<[Z.to_nat i := v]> l)]> m) else None
  | _ => None
  end.

Definition store_cplx (m : heap) (p : loc) (i : Z) (v : CustomComplex T)
    : option heap :=
  match m !! p with
  | Some (BCplx l) =>
      if bool_decide (0 ≤ i < Z.of_nat (length l))
      then Some (<[p := BCplx (<[Z.to_nat i := v]> l)]> m) else None
  | _ => None
  end.
End Heap.

(** ** Counted loops *)

(** [for (i = lo; i < hi; ++i) body], the body threading a state and
    possibly undefined. *)
Fixpoint for_each {S : Type} (body : Z → S → option S) (idx : list Z) (s : S)
    : option S :=
  match idx with
  | [] => Some s
  | i :: idx => s' ← body i s; for_each body idx s'
  end.

Definition for_loop {S : Type} (lo hi : Z) (body : Z → S → option S) (s : S)
    : option S :=
  for_each body (seqZ lo (hi - lo)) s.

(** ** Constants and index arithmetic *)

Definition nstart : Z := 0.
Definition nend : Z := 3.

(** [size_t] arithmetic is modulo [2^64]. *)
Definition size_max : Z := 2 ^ 64.

(** Modelled from the spec: the accessor macros [a(r, c)] of
    [commonDefines.h] are not part of the sources; the specification gives
    row-major addressing [flat_index(r, c) = r * cols + c].  The operands
    of the kernel are [size_t], so the sum is taken modulo [2^64]. *)
Definition flat_index (r cols c : Z) : Z := (r * cols + c) `mod` size_max.

(** ** The kernel *)

Record timeval := { tv_sec : Z; tv_usec : Z }.

(** The arguments of [noflagOCC_solver]: three sizes by value, ten
    pointers and one reference. *)
Record solver_args := {
  number_bands : Z;
  ngpown : Z;
  ncouls : Z;
  inv_igp_index : loc;
  indinv : loc;
  wx_array : loc;
  wtilde_array : loc;
  aqsmtemp : loc;
  aqsntemp : loc;
  I_eps_array : loc;
  vcoul : loc;
  achtemp_re : loc;
  achtemp_im : loc;
  elapsedKernelTimer : loc
}.

Section Kernel.
Context {T : Type} `{Scalar T}.
Local Abbreviation heap := (gmap loc (block T)).
Local Abbreviation complex := (CustomComplex T).

(** [delw] of one iteration, from [wx_array[iw]] and
    [wtilde_array(my_igp, ig)]. *)
Definition delw_of (wx : T) (wtilde : complex) : complex :=
  let wdiff := rsub wx wtilde in
  cscale (cmul wtilde (conj wdiff))
         (s_one / CustomComplex_real (cmul wdiff (conj wdiff)))%S.

(** [sch_array] of one iteration. *)
Definition sch_of (wx : T) (wtilde I_eps aqsm aqsn : complex) (vc : T) : complex :=
  cscale (cscale (cmul (cmul (cmul (delw_of wx wtilde) I_eps) (conj aqsm)) aqsn)
                 s_half) vc.

(** The body of the innermost loop (lines 112-123). *)
Definition iw_body (a : solver_args) (n1 my_igp igp ig iw : Z) (m : heap)
    : option heap :=
  wx ← load_real m (wx_array a) iw;
  wtilde ← load_cplx m (wtilde_array a) (flat_index my_igp (ncouls a) ig);
  I_eps ← load_cplx m (I_eps_array a) (flat_index my_igp (ncouls a) ig);
  aqsm ← load_cplx m (aqsmtemp a) (flat_index n1 (ncouls a) igp);
  aqsn ← load_cplx m (aqsntemp a) (flat_index n1 (ncouls a) igp);
  vc ← load_real m (vcoul a) igp;
  let sch_array := sch_of wx wtilde I_eps aqsm aqsn vc in
  acc_re ← load_real m (achtemp_re a) iw;
  m1 ← store_real m (achtemp_re a) iw (acc_re + get_real sch_array)%S;
  acc_im ← load_real m1 (achtemp_im a) iw;
  store_real m1 (achtemp_im a) iw (acc_im + get_imag sch_array)%S.

(** The body of the [my_igp] loop (lines 104-125). *)
Definition igp_body (a : solver_args) (n1 my_igp : Z) (m : heap) : option heap :=
  indigp ← load_int m (inv_igp_index a) my_igp;
  igp ← load_int m (indinv a) indigp;
  for_loop 0 (ncouls a) (λ ig,
    for_loop nstart nend (λ iw, iw_body a n1 my_igp igp ig iw)) m.

(** The target loop nest (lines 99-127). *)
Definition target_loop (a : solver_args) (m : heap) : option heap :=
  for_loop 0 (number_bands a) (λ n1,
    for_loop 0 (ngpown a) (λ my_igp, igp_body a n1 my_igp)) m.

(** Lines 131-132, from the two readings of [gettimeofday]. *)
Definition elapsed (startKernelTimer endKernelTimer : timeval) : T :=
  (s_of_int (tv_sec endKernelTimer - tv_sec startKernelTimer)
   + s_micro * s_of_int (tv_usec endKernelTimer - tv_usec startKernelTimer))%S.

(** [noflagOCC_solver]; the two clock readings are inputs. *)
Definition noflagOCC_solver (startKernelTimer endKernelTimer : timeval)
    (a : solver_args) (m : heap) : option heap :=
  m' ← target_loop a m;
  store_real m' (elapsedKernelTimer a) 0 (elapsed startKernelTimer endKernelTimer).
End Kernel.

(** ** The sum the kernel is specified to compute

    Section 4.3 of the specification: for each frequency index, a running
    sum over all (band, group-point, plane-wave) triples, in the order of
    the loop nest, of the correction term [sch].  The arrays are the
    contents of the eight input blocks. *)

Record inputs (T : Type) := {
  in_inv_igp_index : list Z;
  in_indinv : list Z;
  in_wx_array : list T;
  in_wtilde_array : list (CustomComplex T);
  in_aqsmtemp : list (CustomComplex T);
  in_aqsntemp : list (CustomComplex T);
  in_I_eps_array : list (CustomComplex T);
  in_vcoul : list T
}.
Arguments in_inv_igp_index {T} _.
Arguments in_indinv {T} _.
Arguments in_wx_array {T} _.
Arguments in_wtilde_array {T} _.
Arguments in_aqsmtemp {T} _.
Arguments in_aqsntemp {T} _.
Arguments in_I_eps_array {T} _.
Arguments in_vcoul {T} _.

Section Spec.
Context {T : Type} `{Scalar T}.
Local Abbreviation complex := (CustomComplex T).

Definition czero : complex := mkComplex s_zero s_zero.

(** [resolve(my_igp) = indinv[inv_igp_index[my_igp]]] (section 4.2). *)
Definition resolve (x : inputs T) (my_igp : Z) : option Z :=
  indigp ← index (in_inv_igp_index x) my_igp; index (in_indinv x) indigp.

(** The 2D accessor [a(r, c)] over [cols] columns. *)
Definition at2 (l : list complex) (cols r c : Z) : complex :=
  default czero (index l (r * cols + c)).

Definition at1 (l : list T) (i : Z) : T := default s_zero (index l i).

Definition wdiff_at (x : inputs T) (nc iw my_igp ig : Z) : complex :=
  rsub (at1 (in_wx_array x) iw) (at2 (in_wtilde_array x) nc my_igp ig).

Definition delw_at (x : inputs T) (nc iw my_igp ig : Z) : complex :=
  let wdiff := wdiff_at x nc iw my_igp ig in
  cscale (cmul (at2 (in_wtilde_array x) nc my_igp ig) (conj wdiff))
         (s_one / CustomComplex_real (cmul wdiff (conj wdiff)))%S.

Definition sch_at (x : inputs T) (nc iw : Z) (t : Z * Z * Z) : complex :=
  let '(n1, my_igp, ig) := t in
  let igp := default 0 (resolve x my_igp) in
  cscale
    (cscale
       (cmul
          (cmul (cmul (delw_at x nc iw my_igp ig)
                      (at2 (in_I_eps_array x) nc my_igp ig))
                (conj (at2 (in_aqsmtemp x) nc n1 igp)))
          (at2 (in_aqsntemp x) nc n1 igp))
       s_half)
    (at1 (in_vcoul x) igp).

(** [sch] before its last factor [vcoul[igp]], and that factor. *)
Definition sch_before_vcoul (x : inputs T) (nc iw : Z) (t : Z * Z * Z) : complex :=
  let '(n1, my_igp, ig) := t in
  let igp := default 0 (resolve x my_igp) in
  cscale
    (cmul
       (cmul (cmul (delw_at x nc iw my_igp ig)
                   (at2 (in_I_eps_array x) nc my_igp ig))
             (conj (at2 (in_aqsmtemp x) nc n1 igp)))
       (at2 (in_aqsntemp x) nc n1 igp))
    s_half.

Definition vcoul_at (x : inputs T) (t : Z * Z * Z) : T :=
  let '(_, my_igp, _) := t in
  at1 (in_vcoul x) (default 0 (resolve x my_igp)).

(** All triples [(n1, my_igp, ig)], band-major. *)
Definition triples (nb ng nc : Z) : list (Z * Z * Z) :=
  n1 ← seqZ 0 nb; my_igp ← seqZ 0 ng; ig ← seqZ 0 nc; [(n1, my_igp, ig)].

(** A running sum: the terms are added one after the other to the
    initial value. *)
Definition running_sum (init : T) (terms : list T) : T := foldl s_add init terms.

Definition achtemp_re_sum (x : inputs T) (nb ng nc iw : Z) (init : T) : T :=
  running_sum init ((λ t, get_real (sch_at x nc iw t)) <$> triples nb ng nc).

Definition achtemp_im_sum (x : inputs T) (nb ng nc iw : Z) (init : T) : T :=
  running_sum init ((λ t, get_imag (sch_at x nc iw t)) <$> triples nb ng nc).
End Spec.

(** ** Valid inputs of the kernel *)

Section Valid.
Context {T : Type}.
Local Abbreviation heap := (gmap loc (block T)).

(** The blocks the pointer arguments address, with the extents of
    sections 3 and 6 of the specification; the two accumulators and the
    timer are objects of their own. *)
Record valid_input (a : solver_args) (x : inputs T) (re im : list T) (m : heap)
    : Prop := {
  valid_bands : 0 ≤ number_bands a;
  valid_ngpown : 0 ≤ ngpown a;
  valid_ncouls : 0 ≤ ncouls a;
  valid_bands_extent : number_bands a * ncouls a < size_max;
  valid_ngpown_extent : ngpown a * ncouls a < size_max;
  valid_inv_igp_index : m !! inv_igp_index a = Some (BInt (in_inv_igp_index x));
  valid_indinv : m !! indinv a = Some (BInt (in_indinv x));
  valid_wx_array : m !! wx_array a = Some (BReal (in_wx_array x));
  valid_wtilde_array : m !! wtilde_array a = Some (BCplx (in_wtilde_array x));
  valid_aqsmtemp : m !! aqsmtemp a = Some (BCplx (in_aqsmtemp x));
  valid_aqsntemp : m !! aqsntemp a = Some (BCplx (in_aqsntemp x));
  valid_I_eps_array : m !! I_eps_array a = Some (BCplx (in_I_eps_array x));
  valid_vcoul : m !! vcoul a = Some (BReal (in_vcoul x));
  valid_achtemp_re : m !! achtemp_re a = Some (BReal re);
  valid_achtemp_im : m !! achtemp_im a = Some (BReal im);
  valid_timer : ∃ t, m !! elapsedKernelTimer a = Some (BReal t) ∧ (0 < length t)%nat;
  valid_len_inv_igp_index : Z.of_nat (length (in_inv_igp_index x)) = ngpown a;
  valid_len_indinv : Z.of_nat (length (in_indinv x)) = ncouls a + 1;
  valid_len_wx_array : Z.of_nat (length (in_wx_array x)) = nend - nstart;
  valid_len_wtilde_array :
    Z.of_nat (length (in_wtilde_array x)) = ngpown a * ncouls a;
  valid_len_aqsmtemp : Z.of_nat (length (in_aqsmtemp x)) = number_bands a * ncouls a;
  valid_len_aqsntemp : Z.of_nat (length (in_aqsntemp x)) = number_bands a * ncouls a;
  valid_len_I_eps_array :
    Z.of_nat (length (in_I_eps_array x)) = ngpown a * ncouls a;
  valid_len_vcoul : Z.of_nat (length (in_vcoul x)) = ncouls a;
  valid_len_achtemp_re : Z.of_nat (length re) = nend - nstart;
  valid_len_achtemp_im : Z.of_nat (length im) = nend - nstart;
  valid_inv_range : ∀ my_igp k,
    in_inv_igp_index x !! my_igp = Some k → 0 ≤ k ≤ ncouls a;
  valid_resolve : ∀ my_igp, 0 ≤ my_igp < ngpown a →
    ∃ igp, resolve x my_igp = Some igp ∧ 0 ≤ igp < ncouls a;
  valid_re_im : achtemp_re a ≠ achtemp_im a;
  valid_re_fresh : achtemp_re a ∉
    [inv_igp_index a; indinv a; wx_array a; wtilde_array a; aqsmtemp a;
     aqsntemp a; I_eps_array a; vcoul a; elapsedKernelTimer a];
  valid_im_fresh : achtemp_im a ∉
    [inv_igp_index a; indinv a; wx_array a; wtilde_array a; aqsmtemp a;
     aqsntemp a; I_eps_array a; vcoul a; elapsedKernelTimer a]
}.
End Valid.

(** ** The kernel as a fold, frames and related runs

    The notions the properties of the kernel are stated with: the loop
    nest as a fold over the pair of accumulators, what a run leaves
    unchanged, and when two runs agree. *)

Section Notions.
Context {T : Type} `{Scalar T}.
Local Abbreviation heap := (gmap loc (block T)).
Local Abbreviation accs := (list T * list T)%type.

(** [acc[iw] += d] *)
Definition acc_add (acc : list T) (iw : Z) (d : T) : list T :=
  <[Z.to_nat iw := (at1 acc iw + d)%S]> acc.

Definition fold_iw (x : inputs T) (nc : Z) (t : Z * Z * Z) (s : accs) (iw : Z) : accs :=
  (acc_add s.1 iw (get_real (sch_at x nc iw t)),
   acc_add s.2 iw (get_imag (sch_at x nc iw t))).

Definition fold_triple (x : inputs T) (nc : Z) (s : accs) (t : Z * Z * Z) : accs :=
  foldl (fold_iw x nc t) s (seqZ nstart (nend - nstart)).

Definition fold_igp (x : inputs T) (nc n1 : Z) (s : accs) (my_igp : Z) : accs :=
  foldl (λ s ig, fold_triple x nc s (n1, my_igp, ig)) s (seqZ 0 nc).

Definition fold_band (x : inputs T) (ng nc : Z) (s : accs) (n1 : Z) : accs :=
  foldl (fold_igp x nc n1) s (seqZ 0 ng).

Definition fold_kernel (x : inputs T) (nb ng nc : Z) (s : accs) : accs :=
  foldl (fold_band x ng nc) s (seqZ 0 nb).

(** The invariant of the loop nest: the input blocks hold [x], the two
    accumulators hold the current pair of lists. *)
Definition holds (a : solver_args) (x : inputs T) (s : accs) (m : heap) : Prop :=
  valid_input a x s.1 s.2 m.

(** [m'] differs from [m] at most at the locations [ps]. *)
Definition frame (ps : list loc) (m m' : heap) : Prop :=
  ∀ p, p ∉ ps → m' !! p = m !! p.

(** Two heaps that hold the same blocks except possibly at [q]. *)
Definition agree_off (q : loc) (m1 m2 : heap) : Prop :=
  ∀ p, p ≠ q → m1 !! p = m2 !! p.

(** Two runs that fail together or return related states. *)
Definition both {S : Type} (R : S → S → Prop) (r1 r2 : option S) : Prop :=
  match r1, r2 with
  | Some s1, Some s2 => R s1 s2
  | None, None => True
  | _, _ => False
  end.

(** The locations the loop nest reads or writes. *)
Definition touched (a : solver_args) : list loc :=
  [inv_igp_index a; indinv a; wx_array a; wtilde_array a; aqsmtemp a;
   aqsntemp a; I_eps_array a; vcoul a; achtemp_re a; achtemp_im a].

(** The accumulators as [main] clears them (lines 287-291). *)
Definition zero_acc : list T := replicate (Z.to_nat (nend - nstart)) s_zero.

(** The input with every entry of [vcoul] multiplied by [k]. *)
Definition scale_vcoul (k : T) (x : inputs T) : inputs T :=
  {| in_inv_igp_index := in_inv_igp_index x;
     in_indinv := in_indinv x;
     in_wx_array := in_wx_array x;
     in_wtilde_array := in_wtilde_array x;
     in_aqsmtemp := in_aqsmtemp x;
     in_aqsntemp := in_aqsntemp x;
     in_I_eps_array := in_I_eps_array x;
     in_vcoul := s_mul k <$> in_vcoul x |}.

End Notions.

(** ** The caller: [main] and [correctness] *)

(** [int] is 32 bits wide; a signed overflow is undefined. *)
Definition INT_MIN : Z := - 2 ^ 31.
Definition INT_MAX : Z := 2 ^ 31 - 1.

Definition int_range (z : Z) : option Z :=
  if bool_decide (INT_MIN ≤ z ≤ INT_MAX) then Some z else None.

Definition int_add (a b : Z) : option Z := int_range (a + b).
Definition int_sub (a b : Z) : option Z := int_range (a - b).
Definition int_mul (a b : Z) : option Z := int_range (a * b).
(** [a / b] truncates towards zero and is undefined for [b = 0]. *)
Definition int_div (a b : Z) : option Z :=
  if bool_decide (b = 0) then None else int_range (a `quot` b).

(** An [int] passed for a [size_t] parameter. *)
Definition to_size_t (z : Z) : Z := z `mod` size_max.

Record sizes := {
  sz_number_bands : Z;
  sz_nvband : Z;
  sz_ncouls : Z;
  sz_nodes_per_group : Z
}.

Definition test_sizes : sizes :=
  {| sz_number_bands := 512; sz_nvband := 2; sz_ncouls := 512;
     sz_nodes_per_group := 20 |}.

Definition benchmark_sizes : sizes :=
  {| sz_number_bands := 512; sz_nvband := 2; sz_ncouls := 32768;
     sz_nodes_per_group := 20 |}.

Inductive startup :=
  | Run (s : sizes)
  | Exit (code : Z).

(** Lines 143-191; [argv] holds the [argc] arguments, the program name
    first; [atoi] is the C library's. *)
Definition problem_sizes (atoi : string → Z) (argv : list string) : startup :=
  match argv with
  | [_] => Run test_sizes
  | [_; arg] =>
      if bool_decide (arg = "benchmark") then Run benchmark_sizes
      else if bool_decide (arg = "test") then Run test_sizes
      else Exit 0
  | [_; a1; a2; a3; a4] =>
      Run {| sz_number_bands := atoi a1; sz_nvband := atoi a2;
             sz_ncouls := atoi a3; sz_nodes_per_group := atoi a4 |}
  | _ => Exit 0
  end.

(** Line 192: [int ngpown = ncouls / nodes_per_group]. *)
Definition derive_ngpown (s : sizes) : option Z :=
  int_div (sz_ncouls s) (sz_nodes_per_group s).

(** The accessor macros with [int] operands, as [main] uses them. *)
Definition flat_index_int (r cols c : Z) : option Z :=
  v ← int_mul r cols; int_add v c.

Section Init.
Context {T : Type}.
Local Abbreviation heap := (gmap loc (block T)).

(** Lines 280-285 (and again 303-308). *)
Definition init_index_maps (ngpown ncouls : Z) (a : solver_args) (m : heap)
    : option heap :=
  m1 ← for_loop 0 ngpown (λ ig m,
          v1 ← int_add ig 1; v2 ← int_mul v1 ncouls; v3 ← int_div v2 ngpown;
          store_int m (inv_igp_index a) ig v3) m;
  m2 ← for_loop 0 ncouls (λ ig m, store_int m (indinv a) ig ig) m1;
  v ← int_sub ncouls 1;
  store_int m2 (indinv a) ncouls v.
End Init.

Definition e_lk : float := 10.
Definition dw : float := 1.
Definition to1 : float := 1e-6.
Definition e_n1kq : float := 6.0.
Definition expr0 : CustomComplex float := mkComplex 0.00%float 0.00%float.
Definition expr : CustomComplex float := mkComplex 0.025%float 0.025%float.

(** Lines 263-268. *)
Definition init_bands (number_bands ncouls : Z) (a : solver_args)
    (m : gmap loc (block float)) : option (gmap loc (block float)) :=
  for_loop 0 number_bands (λ n1,
    for_loop 0 ncouls (λ ig m,
      i ← flat_index_int n1 ncouls ig;
      m1 ← store_cplx m (aqsmtemp a) i expr;
      store_cplx m1 (aqsntemp a) i expr)) m.

(** Lines 270-275. *)
Definition init_groups (ngpown ncouls : Z) (a : solver_args)
    (m : gmap loc (block float)) : option (gmap loc (block float)) :=
  for_loop 0 ngpown (λ my_igp,
    for_loop 0 ncouls (λ ig m,
      i ← flat_index_int my_igp ncouls ig;
      m1 ← store_cplx m (I_eps_array a) i expr;
      store_cplx m1 (wtilde_array a) i expr)) m.

(** Lines 277-278. *)
Definition init_vcoul (ncouls : Z) (a : solver_args)
    (m : gmap loc (block float)) : option (gmap loc (block float)) :=
  for_loop 0 ncouls (λ i m,
    store_real m (vcoul a) i (float_of_int i * 0.025)%float) m.

(** Lines 287-291. *)
Definition init_achtemp (a : solver_args)
    (m : gmap loc (block float)) : option (gmap loc (block float)) :=
  for_loop nstart nend (λ iw m,
    m1 ← store_real m (achtemp_re a) iw 0.00%float;
    store_real m1 (achtemp_im a) iw 0.00%float) m.

(** Lines 293-298. *)
Definition init_wx_array (a : solver_args)
    (m : gmap loc (block float)) : option (gmap loc (block float)) :=
  for_loop nstart nend (λ iw m,
    v1 ← int_add iw 1; v2 ← int_sub v1 2;
    m1 ← store_real m (wx_array a) iw
            (e_lk - e_n1kq + dw * float_of_int v2)%float;
    w ← load_real m1 (wx_array a) iw;
    if (w <? to1)%float then store_real m1 (wx_array a) iw to1 else Some m1) m.

(** Lines 277-298, which lines 300-321 repeat. *)
Definition init_tables (ngpown ncouls : Z) (a : solver_args)
    (m : gmap loc (block float)) : option (gmap loc (block float)) :=
  m1 ← init_vcoul ncouls a m;
  m2 ← init_index_maps ngpown ncouls a m1;
  m3 ← init_achtemp a m2;
  init_wx_array a m3.

(** Lines 263-321, on the blocks allocated at lines 222-254. *)
Definition main_init (number_bands ngpown ncouls : Z) (a : solver_args)
    (m : gmap loc (block float)) : option (gmap loc (block float)) :=
  m1 ← init_bands number_bands ncouls a m;
  m2 ← init_groups ngpown ncouls a m1;
  m3 ← init_tables ngpown ncouls a m2;
  init_tables ngpown ncouls a m3.

Inductive verdict :=
  | Success                   (* the message of success, and return *)
  | Failure.                  (* the message of failure, and exit(EXIT_FAILURE) *)

(** Lines 37-76. *)
Definition correctness (problem_size : Z) (result : CustomComplex float) : verdict :=
  if bool_decide (problem_size = 0) then
    let re_diff := (get_real result - -24852.551547)%float in
    let im_diff := (get_imag result - 2957453.638101)%float in
    if (re_diff <? 0.00001)%float && (im_diff <? 0.00001)%float
    then Success else Failure
  else
    let re_diff := (get_real result - -0.096066)%float in
    let im_diff := (get_imag result - 11.431852)%float in
    if (re_diff <? 0.00001)%float && (im_diff <? 0.00001)%float
    then Success else Failure.

(** Lines 333-341: the scenario [main] checks the result against. *)
Definition checked_problem (argv : list string) : Z :=
  match argv with
  | [_; arg] => if bool_decide (arg = "benchmark") then 0 else 1
  | _ => 1
  end.

Definition EXIT_FAILURE : Z := 1.

Inductive outcome :=
  | Returned (code : Z)
  | Exited (code : Z).

(** [main]: the sizes, the initialisation, the kernel, the assembly of
    [achtemp] (lines 329-330) and the check.  The pointers [ptrs] and
    [achtemp] are those [safe_malloc] returned and [m] is the heap after
    the allocations. *)
Definition main (atoi : string → Z) (argv : list string)
    (startKernelTimer endKernelTimer : timeval)
    (ptrs : solver_args) (achtemp : loc) (m : gmap loc (block float))
    : option outcome :=
  match problem_sizes atoi argv with
  | Exit code => Some (Exited code)
  | Run s =>
      ngpown ← derive_ngpown s;
      let a :=
        {| number_bands := to_size_t (sz_number_bands s);
           ngpown := to_size_t ngpown;
           ncouls := to_size_t (sz_ncouls s);
           inv_igp_index := inv_igp_index ptrs; indinv := indinv ptrs;
           wx_array := wx_array ptrs; wtilde_array := wtilde_array ptrs;
           aqsmtemp := aqsmtemp ptrs; aqsntemp := aqsntemp ptrs;
           I_eps_array := I_eps_array ptrs; vcoul := vcoul ptrs;
           achtemp_re := achtemp_re ptrs; achtemp_im := achtemp_im ptrs;
           elapsedKernelTimer := elapsedKernelTimer ptrs |} in
      m1 ← main_init (sz_number_bands s) ngpown (sz_ncouls s) a m;
      m2 ← noflagOCC_solver startKernelTimer endKernelTimer a m1;
      m3 ← for_loop nstart nend (λ iw m,
              re ← load_real m (achtemp_re a) iw;
              im ← load_real m (achtemp_im a) iw;
              store_cplx m achtemp iw (mkComplex re im)) m2;
      result ← load_cplx m3 achtemp 0;
      match correctness (checked_problem argv) result with
      | Success => Some (Returned 0)
      | Failure => Some (Exited EXIT_FAILURE)
      end
  end.

(** The reference values [correctness] compares with (lines 42-43 and
    61-62). *)
Definition expected (problem_size : Z) : float * float :=
  if bool_decide (problem_size = 0)
  then ((-24852.551547)%float, 2957453.638101%float)
  else ((-0.096066)%float, 11.431852%float).

(** ** The state [main] reaches before the kernel *)

(** [wx_array[iw]] as lines 295-297 leave it. *)
Definition wx_of (iw : Z) : float :=
  let w := (e_lk - e_n1kq + dw * float_of_int ((iw + 1) - 2))%float in
  if (w <? to1)%float then to1 else w.

(** The arrays after [main_init], for the sizes [nb], [ng], [nc]. *)
Definition scenario_inputs (nb ng nc : Z) : inputs float :=
  {| in_inv_igp_index := (λ ig, ((ig + 1) * nc) `div` ng) <$> seqZ 0 ng;
     in_indinv := seqZ 0 nc ++ [nc - 1];
     in_wx_array := wx_of <$> seqZ nstart (nend - nstart);
     in_wtilde_array := replicate (Z.to_nat (ng * nc)) expr;
     in_aqsmtemp := replicate (Z.to_nat (nb * nc)) expr;
     in_aqsntemp := replicate (Z.to_nat (nb * nc)) expr;
     in_I_eps_array := replicate (Z.to_nat (ng * nc)) expr;
     in_vcoul := (λ i, float_of_int i * 0.025)%float <$> seqZ 0 nc |}.

(** The test sizing: [ngpown = 512 / 20 = 25]. *)
Definition scenario_A : inputs float := scenario_inputs 512 25 512.

(** The first [n] cells written with [g], the others as they were. *)
Definition fill {A : Type} (g : Z → A) (n : Z) (l : list A) : list A :=
  (g <$> seqZ 0 n) ++ drop (Z.to_nat n) l.

(** The heap after the allocations of lines 222-254: eleven objects of
    their own.  Modelled from the spec: the extents are macros of
    [commonDefines.h], which is not part of the sources; sections 3 and 6
    of the specification give them. *)
Record allocated (a : solver_args) (m : gmap loc (block float)) : Prop := {
  alloc_distinct :
    NoDup [inv_igp_index a; indinv a; wx_array a; wtilde_array a; aqsmtemp a;
           aqsntemp a; I_eps_array a; vcoul a; achtemp_re a; achtemp_im a;
           elapsedKernelTimer a];
  alloc_inv_igp_index : ∃ l,
    m !! inv_igp_index a = Some (BInt l) ∧ Z.of_nat (length l) = ngpown a;
  alloc_indinv : ∃ l,
    m !! indinv a = Some (BInt l) ∧ Z.of_nat (length l) = ncouls a + 1;
  alloc_wx_array : ∃ l,
    m !! wx_array a = Some (BReal l) ∧ Z.of_nat (length l) = nend - nstart;
  alloc_wtilde_array : ∃ l,
    m !! wtilde_array a = Some (BCplx l)
    ∧ Z.of_nat (length l) = ngpown a * ncouls a;
  alloc_aqsmtemp : ∃ l,
    m !! aqsmtemp a = Some (BCplx l)
    ∧ Z.of_nat (length l) = number_bands a * ncouls a;
  alloc_aqsntemp : ∃ l,
    m !! aqsntemp a = Some (BCplx l)
    ∧ Z.of_nat (length l) = number_bands a * ncouls a;
  alloc_I_eps_array : ∃ l,
    m !! I_eps_array a = Some (BCplx l)
    ∧ Z.of_nat (length l) = ngpown a * ncouls a;
  alloc_vcoul : ∃ l,
    m !! vcoul a = Some (BReal l) ∧ Z.of_nat (length l) = ncouls a;
  alloc_achtemp_re : ∃ l,
    m !! achtemp_re a = Some (BReal l) ∧ Z.of_nat (length l) = nend - nstart;
  alloc_achtemp_im : ∃ l,
    m !! achtemp_im a = Some (BReal l) ∧ Z.of_nat (length l) = nend - nstart;
  alloc_timer : ∃ l,
    m !! elapsedKernelTimer a = Some (BReal l) ∧ (0 < length l)%nat
}.

(** The six arrays [init_tables] writes. *)
Definition tables (ngpown ncouls : Z) (a : solver_args)
    (m : gmap loc (block float)) : gmap loc (block float) :=
  <[wx_array a := BReal (wx_of <$> seqZ nstart (nend - nstart))]> (
  <[achtemp_im a := BReal zero_acc]> (
  <[achtemp_re a := BReal zero_acc]> (
  <[indinv a := BInt (seqZ 0 ncouls ++ [ncouls - 1])]> (
  <[inv_igp_index a :=
      BInt ((λ ig, ((ig + 1) * ncouls) `div` ngpown) <$> seqZ 0 ngpown)]> (
  <[vcoul a := BReal ((λ i, float_of_int i * 0.025)%float <$> seqZ 0 ncouls)]>
    m))))).

(** The heap [main_init] leaves. *)
Definition initialised (a : solver_args) (m : gmap loc (block float))
    : gmap loc (block float) :=
  tables (ngpown a) (ncouls a) a (
  tables (ngpown a) (ncouls a) a (
  <[wtilde_array a := BCplx (replicate (Z.to_nat (ngpown a * ncouls a)) expr)]> (
  <[I_eps_array a := BCplx (replicate (Z.to_nat (ngpown a * ncouls a)) expr)]> (
  <[aqsntemp a := BCplx (replicate (Z.to_nat (number_bands a * ncouls a)) expr)]> (
  <[aqsmtemp a := BCplx (replicate (Z.to_nat (number_bands a * ncouls a)) expr)]>
    m))))).

(** ** Concrete inputs *)

(** Eleven objects at the addresses 1 to 11. *)
Definition demo_args (nb ng nc : Z) : solver_args :=
  {| number_bands := nb; ngpown := ng; ncouls := nc;
     inv_igp_index := 1; indinv := 2; wx_array := 3; wtilde_array := 4;
     aqsmtemp := 5; aqsntemp := 6; I_eps_array := 7; vcoul := 8;
     achtemp_re := 9; achtemp_im := 10; elapsedKernelTimer := 11 |}.

Definition demo_heap {T : Type} (x : inputs T) (re im : list T) (timer : T)
    : gmap loc (block T) :=
  <[1 := BInt (in_inv_igp_index x)]> (
  <[2 := BInt (in_indinv x)]> (
  <[3 := BReal (in_wx_array x)]> (
  <[4 := BCplx (in_wtilde_array x)]> (
  <[5 := BCplx (in_aqsmtemp x)]> (
  <[6 := BCplx (in_aqsntemp x)]> (
  <[7 := BCplx (in_I_eps_array x)]> (
  <[8 := BReal (in_vcoul x)]> (
  <[9 := BReal re]> (
  <[10 := BReal im]> (
  <[11 := BReal [timer]]> ∅)))))))))).

(** The extents and index ranges of a valid input, as a check. *)
Definition input_ok {T : Type} (nb ng nc : Z) (x : inputs T) (re im : list T) : bool :=
  bool_decide (0 ≤ nb ∧ 0 ≤ ng ∧ 0 ≤ nc ∧ nb * nc < size_max ∧ ng * nc < size_max)
  && bool_decide (Z.of_nat (length (in_inv_igp_index x)) = ng
                  ∧ Z.of_nat (length (in_indinv x)) = nc + 1
                  ∧ Z.of_nat (length (in_wx_array x)) = nend - nstart
                  ∧ Z.of_nat (length (in_wtilde_array x)) = ng * nc
                  ∧ Z.of_nat (length (in_aqsmtemp x)) = nb * nc
                  ∧ Z.of_nat (length (in_aqsntemp x)) = nb * nc
                  ∧ Z.of_nat (length (in_I_eps_array x)) = ng * nc
                  ∧ Z.of_nat (length (in_vcoul x)) = nc
                  ∧ Z.of_nat (length re) = nend - nstart
                  ∧ Z.of_nat (length im) = nend - nstart)
  && forallb (λ k, bool_decide (0 ≤ k ≤ nc)) (in_inv_igp_index x)
  && forallb (λ my_igp,
       match resolve x my_igp with
       | Some igp => bool_decide (0 ≤ igp < nc)
       | None => false
       end) (seqZ 0 ng).

(** One band, one group point, two plane waves; [vcoul] holds [v] twice. *)
Definition demo_inputs {T : Type} `{Scalar T} (v : T) : inputs T :=
  {| in_inv_igp_index := [1];
     in_indinv := [0; 1; 1];
     in_wx_array := [s_of_int 3; s_of_int 4; s_of_int 5];
     in_wtilde_array := [mkComplex s_one s_one; mkComplex (s_of_int 2) s_one];
     in_aqsmtemp := [mkComplex s_one s_zero; mkComplex s_one s_zero];
     in_aqsntemp := [mkComplex s_one s_zero; mkComplex s_one s_zero];
     in_I_eps_array := [mkComplex s_one s_zero; mkComplex s_one s_zero];
     in_vcoul := [v; v] |}.

Definition demo_clock_start : timeval := {| tv_sec := 100; tv_usec := 250000 |}.

Definition demo_clock_end : timeval := {| tv_sec := 101; tv_usec := 750000 |}.

(** ** Signs of binary64 numbers *)

(** The sign of a rounded number is the sign handed to the rounding. *)
Definition has_sign (s : bool) (x : spec_float) : Prop :=
  match x with
  | S754_zero sx | S754_infinity sx | S754_finite sx _ _ => sx = s
  | S754_nan => False
  end.

Definition not_positive (x : spec_float) : Prop :=
  match x with
  | S754_zero _ | S754_infinity true | S754_finite true _ _ => True
  | _ => False
  end.

(** Zeros of either sign, and the numbers that are neither infinite nor
    NaN. *)
Definition sf_zero (x : spec_float) : Prop :=
  match x with S754_zero _ => True | _ => False end.

Definition sf_finite (x : spec_float) : Prop :=
  match x with S754_zero _ | S754_finite _ _ _ => True | _ => False end.

(** Both parts of a complex number are NaN. *)
Definition cnan (c : CustomComplex float) : Prop :=
  is_nan (get_real c) = true ∧ is_nan (get_imag c) = true.

(** ** What a result is computed from *)

Section Reads.
Context {T : Type} `{Scalar T}.

(** What the kernel uses for the frequency index [iw]: the two index
    maps, [wx_array[iw]], [wtilde_array], [I_eps_array], and of
    [aqsmtemp], [aqsntemp] and [vcoul] the columns [igp] that the index
    maps select. *)
Definition same_reads (nb ng nc iw : Z) (x x' : inputs T) : Prop :=
  in_inv_igp_index x = in_inv_igp_index x'
  ∧ in_indinv x = in_indinv x'
  ∧ at1 (in_wx_array x) iw = at1 (in_wx_array x') iw
  ∧ in_wtilde_array x = in_wtilde_array x'
  ∧ in_I_eps_array x = in_I_eps_array x'
  ∧ ∀ my_igp igp, 0 ≤ my_igp < ng → resolve x my_igp = Some igp →
      at1 (in_vcoul x) igp = at1 (in_vcoul x') igp
      ∧ ∀ n1, 0 ≤ n1 < nb →
          at2 (in_aqsmtemp x) nc n1 igp = at2 (in_aqsmtemp x') nc n1 igp
          ∧ at2 (in_aqsntemp x) nc n1 igp = at2 (in_aqsntemp x') nc n1 igp.
End Reads.

(** ** Further concrete inputs *)

(** The input [demo_inputs v] with [wtilde_array(0, 0)] set to
    [wx_array[0] = 3]. *)
Definition degenerate_inputs (v : float) : inputs float :=
  {| in_inv_igp_index := [1];
     in_indinv := [0; 1; 1];
     in_wx_array := [3; 4; 5]%float;
     in_wtilde_array := [mkComplex 3%float 0%float; mkComplex 2%float 1%float];
     in_aqsmtemp := [mkComplex 1%float 0%float; mkComplex 1%float 0%float];
     in_aqsntemp := [mkComplex 1%float 0%float; mkComplex 1%float 0%float];
     in_I_eps_array := [mkComplex 1%float 0%float; mkComplex 1%float 0%float];
     in_vcoul := [v; v] |}.

(** [demo_inputs 4] with other frequencies at the indices 1 and 2 and
    other values in the column 0 of [aqsmtemp], [aqsntemp] and [vcoul],
    which the index maps do not select. *)
Definition other_inputs : inputs float :=
  {| in_inv_igp_index := [1];
     in_indinv := [0; 1; 1];
     in_wx_array := [3; 8; 9]%float;
     in_wtilde_array := [mkComplex 1%float 1%float; mkComplex 2%float 1%float];
     in_aqsmtemp := [mkComplex 7%float 7%float; mkComplex 1%float 0%float];
     in_aqsntemp := [mkComplex 6%float 5%float; mkComplex 1%float 0%float];
     in_I_eps_array := [mkComplex 1%float 0%float; mkComplex 1%float 0%float];
     in_vcoul := [9; 4]%float |}.

(** ** Allocation *)

(** The null pointer. *)
Definition NULL : loc := 0.

(** The byte counts of the eleven requests of lines 222-254, in the order
    of the source; the extents are macros of [commonDefines.h], which is
    not part of the sources, so the counts are taken as given. *)
Record requests := {
  req_achtemp : Z;
  req_aqsmtemp : Z;
  req_aqsntemp : Z;
  req_I_eps_array : Z;
  req_wtilde_array : Z;
  req_vcoul : Z;
  req_inv_igp_index : Z;
  req_indinv : Z;
  req_achtemp_re : Z;
  req_achtemp_im : Z;
  req_wx_array : Z
}.

Section Alloc.
(** [malloc] is the C library's: it returns a pointer, or [NULL], and a
    new state of the allocator. *)
Context {A : Type} (malloc : Z → A → loc * A).

Inductive alloc_result (X : Type) :=
  | Ret (x : X) (s : A)
  | Abort (n : Z).               (* the message names [n] bytes; [abort()] *)
Arguments Ret {X} _ _.
Arguments Abort {X} _.

Definition alloc_bind {X Y : Type} (r : alloc_result X)
    (k : X → A → alloc_result Y) : alloc_result Y :=
  match r with
  | Ret x s => k x s
  | Abort n => Abort n
  end.

(** Lines 15-25. *)
Definition safe_malloc (n : Z) (s : A) : alloc_result loc :=
  let '(p, s') := malloc n s in
  if bool_decide (p = NULL) then Abort n else Ret p s'.

(** Lines 222-254: the eleven arrays of [main], for the sizes [main] has
    derived; [timer] is the address of its local [elapsedKernelTimer]. *)
Definition main_alloc (r : requests) (nb ng nc : Z) (timer : loc) (s : A)
    : alloc_result (loc * solver_args) :=
  alloc_bind (safe_malloc (req_achtemp r) s) (λ achtemp s,
  alloc_bind (safe_malloc (req_aqsmtemp r) s) (λ aqsmtemp s,
  alloc_bind (safe_malloc (req_aqsntemp r) s) (λ aqsntemp s,
  alloc_bind (safe_malloc (req_I_eps_array r) s) (λ I_eps_array s,
  alloc_bind (safe_malloc (req_wtilde_array r) s) (λ wtilde_array s,
  alloc_bind (safe_malloc (req_vcoul r) s) (λ vcoul s,
  alloc_bind (safe_malloc (req_inv_igp_index r) s) (λ inv_igp_index s,
  alloc_bind (safe_malloc (req_indinv r) s) (λ indinv s,
  alloc_bind (safe_malloc (req_achtemp_re r) s) (λ achtemp_re s,
  alloc_bind (safe_malloc (req_achtemp_im r) s) (λ achtemp_im s,
  alloc_bind (safe_malloc (req_wx_array r) s) (λ wx_array s,
    Ret (achtemp,
         {| number_bands := nb; ngpown := ng; ncouls := nc;
            inv_igp_index := inv_igp_index; indinv := indinv;
            wx_array := wx_array; wtilde_array := wtilde_array;
            aqsmtemp := aqsmtemp; aqsntemp := aqsntemp;
            I_eps_array := I_eps_array; vcoul := vcoul;
            achtemp_re := achtemp_re; achtemp_im := achtemp_im;
            elapsedKernelTimer := timer |}) s))))))))))).
(** [malloc] as the C standard has it: a pointer it returns, if not
    [NULL], addresses an object that was not live before and is live
    afterwards, and the objects that were live stay so. *)
Definition allocator (live : A → loc → Prop) : Prop :=
  ∀ n s p s', malloc n s = (p, s') → p ≠ NULL →
    ¬ live s p ∧ live s' p ∧ ∀ q, live s q → live s' q.

End Alloc.
Arguments Ret {A X} _ _.
Arguments Abort {A X} _.

(** An allocator that hands out the addresses [s + 1], [s + 2], ... and
    fails for a request of more than [limit] bytes. *)
Definition bump (limit : Z) (n : Z) (s : Z) : loc * Z :=
  if bool_decide (n ≤ limit) then (s + 1, s + 1) else (NULL, s).

Definition demo_requests : requests :=
  {| req_achtemp := 48; req_aqsmtemp := 96; req_aqsntemp := 96;
     req_I_eps_array := 144; req_wtilde_array := 144; req_vcoul := 24;
     req_inv_igp_index := 12; req_indinv := 16; req_achtemp_re := 24;
     req_achtemp_im := 24; req_wx_array := 24 |}.

(** * Properties *)

(** ** Proof automation *)

Ltac heap_lookup :=
  repeat first [rewrite lookup_insert_eq | rewrite lookup_insert_ne by done].

Ltac split_distinct H :=
  repeat (let Hn := fresh "Hn" in
          apply NoDup_cons in H as [Hn H]; rewrite ?not_elem_of_cons in Hn);
  destruct_and?.

(** Arithmetic goals in the presence of many distinctness facts about
    locations: [lia] would split on each of them. *)
Ltac drop_distinct :=
  repeat match goal with H : _ ≠ _ |- _ => clear H end.

Ltac arith := drop_distinct; lia.

(** ** Arrays and loops *)

Lemma index_Some {A : Type} (l : list A) (i : Z) (v : A) :
  index l i = Some v ↔ 0 ≤ i ∧ l !! Z.to_nat i = Some v.
Proof.
  unfold index. destruct (bool_decide_reflect (0 ≤ i)); [tauto|].
  split; [done|tauto].
Qed.

Lemma index_in_range {A : Type} (l : list A) (i : Z) :
  0 ≤ i < Z.of_nat (length l) → ∃ v, index l i = Some v.
Proof.
  intros Hi. destruct (lookup_lt_is_Some_2 l (Z.to_nat i)) as [v Hv]; [lia|].
  exists v. apply index_Some. split; [lia|done].
Qed.

Lemma index_range {A : Type} (l : list A) (i : Z) (v : A) :
  index l i = Some v → 0 ≤ i < Z.of_nat (length l).
Proof.
  intros [Hi Hv]%index_Some. apply lookup_lt_Some in Hv. lia.
Qed.

Lemma flat_index_in_range (r cols c rows : Z) :
  0 ≤ r < rows → 0 ≤ c < cols → rows * cols < size_max →
  flat_index r cols c = r * cols + c ∧ 0 ≤ r * cols + c < rows * cols.
Proof.
  intros Hr Hc Hmax. assert (0 ≤ r * cols + c < rows * cols) by nia.
  split; [|done]. unfold flat_index. apply Z.mod_small. lia.
Qed.

Lemma load_real_block {T : Type} (m : gmap loc (block T)) (p : loc) (l : list T) (i : Z) :
  m !! p = Some (BReal l) → load_real m p i = index l i.
Proof. intros Hp. unfold load_real. by rewrite Hp. Qed.

Lemma load_cplx_block {T : Type} (m : gmap loc (block T)) (p : loc)
    (l : list (CustomComplex T)) (i : Z) :
  m !! p = Some (BCplx l) → load_cplx m p i = index l i.
Proof. intros Hp. unfold load_cplx. by rewrite Hp. Qed.

Lemma load_int_block {T : Type} (m : gmap loc (block T)) (p : loc) (l : list Z) (i : Z) :
  m !! p = Some (BInt l) → load_int m p i = index l i.
Proof. intros Hp. unfold load_int. by rewrite Hp. Qed.

Lemma store_real_block {T : Type} (m : gmap loc (block T)) (p : loc) (l : list T)
    (i : Z) (v : T) :
  m !! p = Some (BReal l) → 0 ≤ i < Z.of_nat (length l) →
  store_real m p i v = Some (<[p := BReal (<[Z.to_nat i := v]> l)]> m).
Proof. intros Hp Hi. unfold store_real. by rewrite Hp, bool_decide_true. Qed.

Lemma store_cplx_block {T : Type} (m : gmap loc (block T)) (p : loc)
    (l : list (CustomComplex T)) (i : Z) (v : CustomComplex T) :
  m !! p = Some (BCplx l) → 0 ≤ i < Z.of_nat (length l) →
  store_cplx m p i v = Some (<[p := BCplx (<[Z.to_nat i := v]> l)]> m).
Proof. intros Hp Hi. unfold store_cplx. by rewrite Hp, bool_decide_true. Qed.

Lemma store_int_block {T : Type} (m : gmap loc (block T)) (p : loc) (l : list Z)
    (i : Z) (v : Z) :
  m !! p = Some (BInt l) → 0 ≤ i < Z.of_nat (length l) →
  store_int m p i v = Some (<[p := BInt (<[Z.to_nat i := v]> l)]> m).
Proof. intros Hp Hi. unfold store_int. by rewrite Hp, bool_decide_true. Qed.

(** A loop refines a fold as soon as its body refines the step of the
    fold on the indices visited. *)
Lemma for_each_refine {S A : Type} (R : A → S → Prop)
    (body : Z → S → option S) (f : A → Z → A) (idx : list Z) :
  (∀ i acc s, i ∈ idx → R acc s → ∃ s', body i s = Some s' ∧ R (f acc i) s') →
  ∀ acc s, R acc s → ∃ s', for_each body idx s = Some s' ∧ R (foldl f acc idx) s'.
Proof.
  induction idx as [|i idx IH]; intros Hbody acc s HR; simpl.
  - eauto.
  - destruct (Hbody i acc s) as (s1 & Hs1 & HR1); [left|done|].
    rewrite Hs1. simpl. apply IH; [|done]. intros j ? ? Hj. apply Hbody. by right.
Qed.

Lemma for_loop_refine {S A : Type} (R : A → S → Prop)
    (body : Z → S → option S) (f : A → Z → A) (lo hi : Z) :
  (∀ i acc s, lo ≤ i < hi → R acc s → ∃ s', body i s = Some s' ∧ R (f acc i) s') →
  ∀ acc s, R acc s →
    ∃ s', for_loop lo hi body s = Some s' ∧ R (foldl f acc (seqZ lo (hi - lo))) s'.
Proof.
  intros Hbody. apply for_each_refine. intros i acc s Hi.
  apply Hbody. apply elem_of_seqZ in Hi. lia.
Qed.

Lemma for_loop_refine_0 {S A : Type} (R : A → S → Prop)
    (body : Z → S → option S) (f : A → Z → A) (hi : Z) :
  (∀ i acc s, 0 ≤ i < hi → R acc s → ∃ s', body i s = Some s' ∧ R (f acc i) s') →
  ∀ acc s, R acc s →
    ∃ s', for_loop 0 hi body s = Some s' ∧ R (foldl f acc (seqZ 0 hi)) s'.
Proof.
  intros Hbody acc s HR.
  destruct (for_loop_refine R body f 0 hi Hbody acc s HR) as (s' & Hs' & HR').
  exists s'. split; [done|]. by rewrite Z.sub_0_r in HR'.
Qed.

Lemma for_loop_empty {S : Type} (lo hi : Z) (body : Z → S → option S) (s : S) :
  hi ≤ lo → for_loop lo hi body s = Some s.
Proof. intros. unfold for_loop. by rewrite seqZ_nil by lia. Qed.

Lemma foldl_ext {A B : Type} (f g : A → B → A) (l : list B) (a : A) :
  (∀ a x, f a x = g a x) → foldl f a l = foldl g a l.
Proof.
  intros Hfg. revert a. induction l as [|x l IH]; intros a; simpl; [done|].
  rewrite Hfg. apply IH.
Qed.

Lemma foldl_bind {A B C : Type} (f : A → C → A) (g : B → list C) (l : list B) (a : A) :
  foldl f a (l ≫= g) = foldl (λ a x, foldl f a (g x)) a l.
Proof.
  revert a. induction l as [|x l IH]; intros a; [done|].
  rewrite bind_cons, foldl_app. apply IH.
Qed.

(** ** The kernel as a fold over the two accumulators *)

Section KernelFold.
Context {T : Type} `{Scalar T}.
Local Abbreviation heap := (gmap loc (block T)).
Local Abbreviation accs := (list T * list T)%type.

Lemma at1_index (l : list T) (i : Z) :
  0 ≤ i < Z.of_nat (length l) → index l i = Some (at1 l i).
Proof.
  intros Hi. destruct (index_in_range l i Hi) as [v Hv].
  unfold at1. by rewrite Hv.
Qed.

Lemma at2_index (l : list (CustomComplex T)) (rows cols r c : Z) :
  0 ≤ r < rows → 0 ≤ c < cols → rows * cols < size_max →
  Z.of_nat (length l) = rows * cols →
  index l (flat_index r cols c) = Some (at2 l cols r c).
Proof.
  intros Hr Hc Hmax Hlen.
  destruct (flat_index_in_range r cols c rows) as [-> Hi]; [done..|].
  destruct (index_in_range l (r * cols + c)) as [v Hv]; [lia|].
  unfold at2. by rewrite Hv.
Qed.

Lemma length_acc_add (acc : list T) (iw : Z) (d : T) :
  length (acc_add acc iw d) = length acc.
Proof. apply length_insert. Qed.

Lemma fold_kernel_triples (x : inputs T) (nb ng nc : Z) (s : accs) :
  fold_kernel x nb ng nc s = foldl (fold_triple x nc) s (triples nb ng nc).
Proof.
  unfold fold_kernel, triples. rewrite foldl_bind.
  apply foldl_ext. intros s1 n1. unfold fold_band. rewrite foldl_bind.
  apply foldl_ext. intros s2 my_igp. unfold fold_igp. rewrite foldl_bind.
  apply foldl_ext. intros s3 ig. done.
Qed.

(** One triple adds its term to each of the three frequency slots. *)
Lemma fold_triple_slots (x : inputs T) (nc : Z) (t : Z * Z * Z) (re im : list T) :
  Z.of_nat (length re) = nend - nstart →
  Z.of_nat (length im) = nend - nstart →
  let s' := fold_triple x nc (re, im) t in
  length s'.1 = length re ∧ length s'.2 = length im ∧
  ∀ iw, nstart ≤ iw < nend →
    at1 s'.1 iw = (at1 re iw + get_real (sch_at x nc iw t))%S ∧
    at1 s'.2 iw = (at1 im iw + get_imag (sch_at x nc iw t))%S.
Proof.
  intros Hre Him. unfold nstart, nend in *.
  destruct re as [|r0 [|r1 [|r2 [|]]]]; simpl in Hre; try lia.
  destruct im as [|i0 [|i1 [|i2 [|]]]]; simpl in Him; try lia.
  unfold fold_triple, nstart, nend. change (seqZ 0 (3 - 0)) with [0; 1; 2].
  simpl. split; [done|]. split; [done|].
  intros iw Hiw.
  assert (iw = 0 ∨ iw = 1 ∨ iw = 2) as [-> | [-> | ->]] by lia; done.
Qed.

Lemma fold_triples_slots (x : inputs T) (nc : Z) (ts : list (Z * Z * Z))
    (re im : list T) :
  Z.of_nat (length re) = nend - nstart →
  Z.of_nat (length im) = nend - nstart →
  let s' := foldl (fold_triple x nc) (re, im) ts in
  length s'.1 = length re ∧ length s'.2 = length im ∧
  ∀ iw, nstart ≤ iw < nend →
    at1 s'.1 iw
      = running_sum (at1 re iw) ((λ t, get_real (sch_at x nc iw t)) <$> ts) ∧
    at1 s'.2 iw
      = running_sum (at1 im iw) ((λ t, get_imag (sch_at x nc iw t)) <$> ts).
Proof.
  revert re im. induction ts as [|t ts IH]; intros re im Hre Him; simpl.
  - done.
  - destruct (fold_triple_slots x nc t re im Hre Him) as (Hl1 & Hl2 & Hslots).
    destruct (fold_triple x nc (re, im) t) as [re1 im1] eqn:Ht. simpl in *.
    destruct (IH re1 im1) as (Hl1' & Hl2' & Hrest); [lia..|].
    split; [lia|]. split; [lia|]. intros iw Hiw.
    destruct (Hrest iw Hiw) as [-> ->]. destruct (Hslots iw Hiw) as [-> ->].
    done.
Qed.

Lemma valid_input_fresh (a : solver_args) (x : inputs T) (re im : list T) (m : heap) :
  valid_input a x re im m →
  ∀ p, p ∈ [inv_igp_index a; indinv a; wx_array a; wtilde_array a; aqsmtemp a;
            aqsntemp a; I_eps_array a; vcoul a; elapsedKernelTimer a] →
       achtemp_re a ≠ p ∧ achtemp_im a ≠ p.
Proof.
  intros Hv p Hp. split; intros <-.
  - by apply (valid_re_fresh _ _ _ _ _ Hv).
  - by apply (valid_im_fresh _ _ _ _ _ Hv).
Qed.

Lemma lookup_update (a : solver_args) (re' im' : list T) (m : heap) (p : loc) :
  achtemp_re a ≠ p → achtemp_im a ≠ p →
  (<[achtemp_im a := BReal im']> (<[achtemp_re a := BReal re']> m)) !! p = m !! p.
Proof. intros. by rewrite !lookup_insert_ne. Qed.

Lemma valid_input_update (a : solver_args) (x : inputs T) (re im re' im' : list T)
    (m : heap) :
  valid_input a x re im m →
  length re' = length re → length im' = length im →
  valid_input a x re' im'
    (<[achtemp_im a := BReal im']> (<[achtemp_re a := BReal re']> m)).
Proof.
  intros Hv Hre Him. pose proof (valid_input_fresh _ _ _ _ _ Hv) as Hfresh.
  assert (∀ p b, p ∈ [inv_igp_index a; indinv a; wx_array a; wtilde_array a;
                       aqsmtemp a; aqsntemp a; I_eps_array a; vcoul a;
                       elapsedKernelTimer a] →
            m !! p = Some b →
            (<[achtemp_im a := BReal im']> (<[achtemp_re a := BReal re']> m)) !! p
              = Some b) as Hkeep.
  { intros p b Hp Hb. destruct (Hfresh p Hp). by rewrite lookup_update. }
  destruct Hv. constructor.
  all: try assumption.
  all: try (apply Hkeep; [repeat constructor|assumption]).
  - rewrite lookup_insert_ne by congruence. apply lookup_insert_eq.
  - apply lookup_insert_eq.
  - destruct valid_timer0 as (t & Ht & Hlen). exists t. split; [|assumption].
    apply Hkeep; [repeat constructor|assumption].
  - by rewrite Hre.
  - by rewrite Him.
Qed.

Lemma iw_body_refine (a : solver_args) (x : inputs T) (n1 my_igp igp ig iw : Z)
    (s : accs) (m : heap) :
  holds a x s m →
  0 ≤ n1 < number_bands a → 0 ≤ my_igp < ngpown a →
  resolve x my_igp = Some igp → 0 ≤ igp < ncouls a →
  0 ≤ ig < ncouls a → nstart ≤ iw < nend →
  ∃ m', iw_body a n1 my_igp igp ig iw m = Some m'
        ∧ holds a x (fold_iw x (ncouls a) (n1, my_igp, ig) s iw) m'.
Proof.
  destruct s as [re im]. unfold holds, fold_iw. cbn [fst snd].
  intros Hv Hn1 Higp Hres Hrange Hig Hiw.
  pose proof Hv as Hv'. destruct Hv'.
  assert (0 ≤ iw < Z.of_nat (length re)) by (unfold nstart in *; lia).
  assert (0 ≤ iw < Z.of_nat (length im)) by (unfold nstart in *; lia).
  assert (sch_of (at1 (in_wx_array x) iw)
            (at2 (in_wtilde_array x) (ncouls a) my_igp ig)
            (at2 (in_I_eps_array x) (ncouls a) my_igp ig)
            (at2 (in_aqsmtemp x) (ncouls a) n1 igp)
            (at2 (in_aqsntemp x) (ncouls a) n1 igp)
            (at1 (in_vcoul x) igp)
          = sch_at x (ncouls a) iw (n1, my_igp, ig)) as Hsch.
  { unfold sch_at, sch_of, delw_at, delw_of, wdiff_at. by rewrite Hres. }
  unfold iw_body.
  rewrite (load_real_block m _ _ _ valid_wx_array0).
  rewrite (load_cplx_block m _ _ _ valid_wtilde_array0).
  rewrite (load_cplx_block m _ _ _ valid_I_eps_array0).
  rewrite (load_cplx_block m _ _ _ valid_aqsmtemp0).
  rewrite (load_cplx_block m _ _ _ valid_aqsntemp0).
  rewrite (load_real_block m _ _ _ valid_vcoul0).
  rewrite (load_real_block m _ _ _ valid_achtemp_re0).
  rewrite (at1_index (in_wx_array x) iw) by (unfold nstart in *; lia).
  rewrite (at2_index (in_wtilde_array x) (ngpown a)) by assumption.
  rewrite (at2_index (in_I_eps_array x) (ngpown a)) by assumption.
  rewrite (at2_index (in_aqsmtemp x) (number_bands a)) by assumption.
  rewrite (at2_index (in_aqsntemp x) (number_bands a)) by assumption.
  rewrite (at1_index (in_vcoul x) igp) by lia.
  rewrite (at1_index re iw) by assumption.
  cbn [mbind option_bind]. rewrite Hsch.
  rewrite (store_real_block m _ re) by assumption.
  cbn [mbind option_bind].
  rewrite (load_real_block _ (achtemp_im a) im)
    by (rewrite lookup_insert_ne; assumption).
  rewrite (at1_index im iw) by assumption.
  cbn [mbind option_bind].
  rewrite (store_real_block _ (achtemp_im a) im);
    [|rewrite lookup_insert_ne; assumption|assumption].
  eexists. split; [reflexivity|].
  apply (valid_input_update a x re im); [assumption|..]; apply length_insert.
Qed.

Lemma igp_body_refine (a : solver_args) (x : inputs T) (n1 my_igp : Z)
    (s : accs) (m : heap) :
  holds a x s m →
  0 ≤ n1 < number_bands a → 0 ≤ my_igp < ngpown a →
  ∃ m', igp_body a n1 my_igp m = Some m'
        ∧ holds a x (fold_igp x (ncouls a) n1 s my_igp) m'.
Proof.
  intros Hv Hn1 Higp.
  destruct (valid_resolve _ _ _ _ _ Hv my_igp Higp) as (igp & Hres & Hrange).
  pose proof Hres as Hres'. unfold resolve in Hres'.
  destruct (index (in_inv_igp_index x) my_igp) as [indigp|] eqn:Hinv; [|done].
  simpl in Hres'. unfold igp_body, load_int.
  rewrite (valid_inv_igp_index _ _ _ _ _ Hv), Hinv. simpl.
  rewrite (valid_indinv _ _ _ _ _ Hv), Hres'. simpl.
  unfold fold_igp.
  apply (for_loop_refine_0 (holds a x) _
           (λ s ig, fold_triple x (ncouls a) s (n1, my_igp, ig))); [|exact Hv].
  intros ig s1 m1 Hig Hv1. unfold fold_triple.
  apply (for_loop_refine (holds a x) _
           (fold_iw x (ncouls a) (n1, my_igp, ig))); [|exact Hv1].
  intros iw s2 m2 Hiw Hv2.
  by apply iw_body_refine with (igp := igp).
Qed.

Lemma target_loop_refine (a : solver_args) (x : inputs T) (s : accs) (m : heap) :
  holds a x s m →
  ∃ m', target_loop a m = Some m'
        ∧ holds a x (fold_kernel x (number_bands a) (ngpown a) (ncouls a) s) m'.
Proof.
  intros Hv. unfold target_loop, fold_kernel.
  apply (for_loop_refine_0 (holds a x) _ (fold_band x (ngpown a) (ncouls a)));
    [|exact Hv].
  intros n1 s1 m1 Hn1 Hv1. unfold fold_band.
  apply (for_loop_refine_0 (holds a x) _ (fold_igp x (ncouls a) n1)); [|exact Hv1].
  intros my_igp s2 m2 Higp Hv2. by apply igp_body_refine.
Qed.

(** The kernel on a valid input: it returns, the input blocks still hold
    [x], and the accumulators hold the fold. *)
Lemma noflagOCC_solver_refine (t0 t1 : timeval) (a : solver_args) (x : inputs T)
    (re im : list T) (m : heap) :
  valid_input a x re im m →
  ∃ m1 m' t,
    target_loop a m = Some m1 ∧
    m1 !! elapsedKernelTimer a = Some (BReal t) ∧
    m' = <[elapsedKernelTimer a := BReal (<[0%nat := elapsed t0 t1]> t)]> m1 ∧
    noflagOCC_solver t0 t1 a m = Some m' ∧
    holds a x (fold_kernel x (number_bands a) (ngpown a) (ncouls a) (re, im)) m1.
Proof.
  intros Hv.
  destruct (target_loop_refine a x (re, im) m Hv) as (m1 & Hm1 & Hv1).
  destruct (valid_timer _ _ _ _ _ Hv1) as (t & Ht & Hlen).
  exists m1. eexists. exists t.
  split; [done|]. split; [done|]. split; [reflexivity|].
  split; [|done]. unfold noflagOCC_solver. rewrite Hm1. cbn [mbind option_bind].
  rewrite (store_real_block m1 _ t) by (done || lia). done.
Qed.

(** The accumulators after the kernel, slot by slot. *)
Lemma solver_sums (t0 t1 : timeval) (a : solver_args)
    (x : inputs T) (re im : list T) (m : heap) :
  valid_input a x re im m →
  ∃ m', noflagOCC_solver t0 t1 a m = Some m' ∧
    ∀ iw, nstart ≤ iw < nend →
      load_real m' (achtemp_re a) iw
        = Some (achtemp_re_sum x (number_bands a) (ngpown a) (ncouls a) iw
                  (at1 re iw)) ∧
      load_real m' (achtemp_im a) iw
        = Some (achtemp_im_sum x (number_bands a) (ngpown a) (ncouls a) iw
                  (at1 im iw)).
Proof.
  intros Hv.
  destruct (noflagOCC_solver_refine t0 t1 a x re im m Hv)
    as (m1 & m' & t & _ & _ & -> & Hrun & Hv1).
  eexists. split; [exact Hrun|]. intros iw Hiw.
  rewrite fold_kernel_triples in Hv1.
  destruct (fold_triples_slots x (ncouls a)
              (triples (number_bands a) (ngpown a) (ncouls a)) re im)
    as (Hlre & Hlim & Hslots);
    [apply (valid_len_achtemp_re _ _ _ _ _ Hv)
    |apply (valid_len_achtemp_im _ _ _ _ _ Hv)|].
  destruct (Hslots iw Hiw) as [Hre Him].
  destruct (valid_input_fresh _ _ _ _ _ Hv1 (elapsedKernelTimer a)) as [Hne1 Hne2];
    [repeat constructor|].
  unfold achtemp_re_sum, achtemp_im_sum. rewrite <- Hre, <- Him.
  pose proof (valid_len_achtemp_re _ _ _ _ _ Hv1).
  pose proof (valid_len_achtemp_im _ _ _ _ _ Hv1).
  split.
  - rewrite (load_real_block _ _ _ _
               (eq_trans (lookup_insert_ne _ _ _ _ (not_eq_sym Hne1))
                         (valid_achtemp_re _ _ _ _ _ Hv1))).
    apply at1_index. unfold nstart in *. lia.
  - rewrite (load_real_block _ _ _ _
               (eq_trans (lookup_insert_ne _ _ _ _ (not_eq_sym Hne2))
                         (valid_achtemp_im _ _ _ _ _ Hv1))).
    apply at1_index. unfold nstart in *. lia.
Qed.

(** C1. On every valid input the kernel returns, and for each frequency
    index [iw] in [0, 3) the accumulators [achtemp_re[iw]] and
    [achtemp_im[iw]] hold their initial value to which the real, resp.
    imaginary, parts of [sch] have been added, one triple [(n1, my_igp, ig)]
    after the other in the order of the loop nest, with
    [igp = indinv[inv_igp_index[my_igp]]] and [sch], [delw], [wdiff] as in
    section 4.3 of the specification. *)
Theorem noflagOCC_solver_running_sum (t0 t1 : timeval) (a : solver_args)
    (x : inputs T) (re im : list T) (m : heap) :
  valid_input a x re im m →
  ∃ m', noflagOCC_solver t0 t1 a m = Some m' ∧
    ∀ iw, nstart ≤ iw < nend →
      load_real m' (achtemp_re a) iw
        = Some (achtemp_re_sum x (number_bands a) (ngpown a) (ncouls a) iw
                  (at1 re iw)) ∧
      load_real m' (achtemp_im a) iw
        = Some (achtemp_im_sum x (number_bands a) (ngpown a) (ncouls a) iw
                  (at1 im iw)).
Proof. apply solver_sums. Qed.
End KernelFold.

(** ** What the kernel writes *)

Section Frame.
Context {T : Type} `{Scalar T}.
Local Abbreviation heap := (gmap loc (block T)).

Lemma frame_refl (ps : list loc) (m : heap) : frame ps m m.
Proof. by intros p _. Qed.

Lemma frame_trans (ps : list loc) (m1 m2 m3 : heap) :
  frame ps m1 m2 → frame ps m2 m3 → frame ps m1 m3.
Proof. intros H12 H23 p Hp. by rewrite H23, H12. Qed.

Lemma frame_weaken (ps qs : list loc) (m m' : heap) :
  ps ⊆ qs → frame ps m m' → frame qs m m'.
Proof. intros Hsub Hf p Hp. apply Hf. intros Hin. by apply Hp, Hsub. Qed.

Lemma store_real_frame (m m' : heap) (p : loc) (i : Z) (v : T) :
  store_real m p i v = Some m' → frame [p] m m'.
Proof.
  unfold store_real. intros Hst q Hq.
  destruct (m !! p) as [[l|l|l]|]; try done.
  case_bool_decide; [|done]. injection Hst as <-.
  apply lookup_insert_ne. intros ->. apply Hq. left.
Qed.

Lemma for_each_frame {S : Type} (P : S → S → Prop) (body : Z → S → option S)
    (idx : list Z) :
  (∀ s, P s s) → (∀ s1 s2 s3, P s1 s2 → P s2 s3 → P s1 s3) →
  (∀ i s s', body i s = Some s' → P s s') →
  ∀ s s', for_each body idx s = Some s' → P s s'.
Proof.
  intros Hrefl Htrans Hbody. induction idx as [|i idx IH]; intros s s' Hrun.
  - injection Hrun as <-. apply Hrefl.
  - simpl in Hrun. apply bind_Some in Hrun as (s1 & Hs1 & Hrun).
    eapply Htrans; [by eapply Hbody|by apply IH].
Qed.

Lemma for_loop_frame (ps : list loc) (lo hi : Z) (body : Z → heap → option heap) :
  (∀ i m m', body i m = Some m' → frame ps m m') →
  ∀ m m', for_loop lo hi body m = Some m' → frame ps m m'.
Proof.
  intros Hbody. apply for_each_frame; [apply frame_refl|apply frame_trans|done].
Qed.

Lemma iw_body_frame (a : solver_args) (n1 my_igp igp ig iw : Z) (m m' : heap) :
  iw_body a n1 my_igp igp ig iw m = Some m' →
  frame [achtemp_re a; achtemp_im a] m m'.
Proof.
  unfold iw_body. intros Hrun.
  do 7 (apply bind_Some in Hrun as (? & _ & Hrun)).
  apply bind_Some in Hrun as (m1 & Hm1 & Hrun).
  apply bind_Some in Hrun as (? & _ & Hrun).
  apply store_real_frame in Hm1, Hrun.
  eapply frame_trans; (eapply frame_weaken; [|eassumption]); set_solver.
Qed.

Lemma target_loop_frame (a : solver_args) (m m' : heap) :
  target_loop a m = Some m' → frame [achtemp_re a; achtemp_im a] m m'.
Proof.
  apply for_loop_frame. intros n1 m1 m1'.
  apply for_loop_frame. intros my_igp m2 m2' Hrun. unfold igp_body in Hrun.
  do 2 (apply bind_Some in Hrun as (? & _ & Hrun)).
  revert m2 m2' Hrun. apply for_loop_frame. intros ig m3 m3'.
  apply for_loop_frame. intros iw m4 m4'. apply iw_body_frame.
Qed.

(** C2. The kernel changes no block of the heap other than the two
    accumulators [achtemp_re], [achtemp_im] (and the scalar out-parameter
    [elapsedKernelTimer]): the eight arrays [inv_igp_index], [indinv],
    [wx_array], [wtilde_array], [aqsmtemp], [aqsntemp], [I_eps_array] and
    [vcoul], being other objects, are unchanged after the call.  The three
    sizes are passed by value. *)
Theorem noflagOCC_solver_mutates_only (t0 t1 : timeval) (a : solver_args)
    (m m' : heap) :
  noflagOCC_solver t0 t1 a m = Some m' →
  ∀ p, p ∉ [achtemp_re a; achtemp_im a; elapsedKernelTimer a] →
    m' !! p = m !! p.
Proof.
  unfold noflagOCC_solver. intros Hrun.
  apply bind_Some in Hrun as (m1 & Hm1 & Hrun).
  apply target_loop_frame in Hm1. apply store_real_frame in Hrun.
  change (frame [achtemp_re a; achtemp_im a; elapsedKernelTimer a] m m').
  eapply frame_trans; (eapply frame_weaken; [|eassumption]); set_solver.
Qed.

Lemma for_each_skip {S : Type} (body : Z → S → option S) (idx : list Z) (s : S) :
  (∀ i s, body i s = Some s) → for_each body idx s = Some s.
Proof.
  intros Hbody. induction idx as [|i idx IH]; simpl; [done|].
  by rewrite Hbody.
Qed.

Lemma target_loop_no_iteration (a : solver_args) (m : heap) :
  number_bands a = 0 ∨ ngpown a = 0 → target_loop a m = Some m.
Proof.
  unfold target_loop. intros [Hnb | Hng].
  - apply for_loop_empty. lia.
  - apply for_each_skip. intros n1 m1. apply for_loop_empty. lia.
Qed.

(** C4. With [number_bands = 0] or [ngpown = 0] the kernel returns and
    leaves [achtemp_re] and [achtemp_im] as they were, whatever the other
    arrays hold. *)
Theorem noflagOCC_solver_no_iteration (t0 t1 : timeval) (a : solver_args)
    (m : heap) (t : list T) :
  number_bands a = 0 ∨ ngpown a = 0 →
  m !! elapsedKernelTimer a = Some (BReal t) → (0 < length t)%nat →
  elapsedKernelTimer a ∉ [achtemp_re a; achtemp_im a] →
  ∃ m', noflagOCC_solver t0 t1 a m = Some m' ∧
        m' !! achtemp_re a = m !! achtemp_re a ∧
        m' !! achtemp_im a = m !! achtemp_im a.
Proof.
  intros Hzero Ht Hlen Hfresh. unfold noflagOCC_solver.
  rewrite (target_loop_no_iteration a m Hzero). cbn [mbind option_bind].
  rewrite (store_real_block m _ t) by (done || lia).
  eexists. split; [done|].
  split; apply lookup_insert_ne; intros Heq; apply Hfresh; rewrite Heq;
    set_solver.
Qed.
End Frame.

(** ** Determinism *)

Section Determinism.
Context {T : Type} `{Scalar T}.
Local Abbreviation heap := (gmap loc (block T)).

Lemma both_bind {A S : Type} (R : S → S → Prop) (r : option A)
    (f1 f2 : A → option S) :
  (∀ v, both R (f1 v) (f2 v)) → both R (r ≫= f1) (r ≫= f2).
Proof. intros Hf. destruct r; simpl; [apply Hf|done]. Qed.

Lemma both_bind_rel {S : Type} (R : S → S → Prop) (r1 r2 : option S)
    (f1 f2 : S → option S) :
  both R r1 r2 → (∀ s1 s2, R s1 s2 → both R (f1 s1) (f2 s2)) →
  both R (r1 ≫= f1) (r2 ≫= f2).
Proof. intros Hr Hf. destruct r1, r2; simpl in *; try done. by apply Hf. Qed.

Lemma for_each_both {S : Type} (R : S → S → Prop) (body : Z → S → option S)
    (idx : list Z) :
  (∀ i s1 s2, R s1 s2 → both R (body i s1) (body i s2)) →
  ∀ s1 s2, R s1 s2 → both R (for_each body idx s1) (for_each body idx s2).
Proof.
  intros Hbody. induction idx as [|i idx IH]; intros s1 s2 HR; simpl; [done|].
  apply both_bind_rel; [by apply Hbody|done].
Qed.

Lemma load_real_agree (q : loc) (m1 m2 : heap) (p : loc) (i : Z) :
  agree_off q m1 m2 → p ≠ q → load_real m1 p i = load_real m2 p i.
Proof. intros Ha Hp. unfold load_real. by rewrite (Ha p Hp). Qed.

Lemma load_cplx_agree (q : loc) (m1 m2 : heap) (p : loc) (i : Z) :
  agree_off q m1 m2 → p ≠ q → load_cplx m1 p i = load_cplx m2 p i.
Proof. intros Ha Hp. unfold load_cplx. by rewrite (Ha p Hp). Qed.

Lemma load_int_agree (q : loc) (m1 m2 : heap) (p : loc) (i : Z) :
  agree_off q m1 m2 → p ≠ q → load_int m1 p i = load_int m2 p i.
Proof. intros Ha Hp. unfold load_int. by rewrite (Ha p Hp). Qed.

Lemma store_real_agree (q : loc) (m1 m2 : heap) (p : loc) (i : Z) (v : T) :
  agree_off q m1 m2 → p ≠ q →
  both (agree_off q) (store_real m1 p i v) (store_real m2 p i v).
Proof.
  intros Ha Hp. unfold store_real. rewrite (Ha p Hp).
  destruct (m2 !! p) as [[l|l|l]|]; try done.
  case_bool_decide; [|done]. simpl. intros r Hr.
  destruct (decide (r = p)) as [->|Hne].
  - by rewrite !lookup_insert_eq.
  - rewrite !lookup_insert_ne by done. by apply Ha.
Qed.

Lemma iw_body_both (q : loc) (a : solver_args) (n1 my_igp igp ig iw : Z)
    (m1 m2 : heap) :
  q ∉ touched a → agree_off q m1 m2 →
  both (agree_off q) (iw_body a n1 my_igp igp ig iw m1)
                     (iw_body a n1 my_igp igp ig iw m2).
Proof.
  intros Hq Ha. unfold touched in Hq. unfold iw_body.
  rewrite (load_real_agree q m1 m2 (wx_array a)) by set_solver.
  rewrite (load_cplx_agree q m1 m2 (wtilde_array a)) by set_solver.
  rewrite (load_cplx_agree q m1 m2 (I_eps_array a)) by set_solver.
  rewrite (load_cplx_agree q m1 m2 (aqsmtemp a)) by set_solver.
  rewrite (load_cplx_agree q m1 m2 (aqsntemp a)) by set_solver.
  rewrite (load_real_agree q m1 m2 (vcoul a)) by set_solver.
  rewrite (load_real_agree q m1 m2 (achtemp_re a)) by set_solver.
  do 7 (apply both_bind; intros ?).
  apply both_bind_rel; [apply store_real_agree; [done|set_solver]|].
  intros s1 s2 Hs.
  rewrite (load_real_agree q s1 s2 (achtemp_im a)) by set_solver.
  apply both_bind; intros ?. apply store_real_agree; [done|set_solver].
Qed.

Lemma target_loop_both (q : loc) (a : solver_args) (m1 m2 : heap) :
  q ∉ touched a → agree_off q m1 m2 →
  both (agree_off q) (target_loop a m1) (target_loop a m2).
Proof.
  intros Hq. apply for_each_both. intros n1 s1 s2 Hs. revert s1 s2 Hs.
  apply for_each_both. intros my_igp s1 s2 Hs. unfold igp_body.
  rewrite (load_int_agree q s1 s2 (inv_igp_index a))
    by (done || unfold touched in Hq; set_solver).
  apply both_bind; intros indigp.
  rewrite (load_int_agree q s1 s2 (indinv a))
    by (done || unfold touched in Hq; set_solver).
  apply both_bind; intros igp. revert s1 s2 Hs.
  apply for_each_both. intros ig s1 s2 Hs. revert s1 s2 Hs.
  apply for_each_both. intros iw s1 s2 Hs. by apply iw_body_both.
Qed.

(** C8. The accumulators the kernel returns are a function of the sizes,
    the arrays and the initial accumulators alone: two runs on heaps that
    hold the same blocks, with any two pairs of clock readings and any
    initial contents of the timer variable, either both fail or both
    return, and then with identical [achtemp_re] and [achtemp_im]. *)
Theorem noflagOCC_solver_deterministic (t0 t1 t0' t1' : timeval)
    (a : solver_args) (m1 m2 : heap) (c1 c2 : list T) :
  elapsedKernelTimer a ∉ touched a →
  agree_off (elapsedKernelTimer a) m1 m2 →
  m1 !! elapsedKernelTimer a = Some (BReal c1) → (0 < length c1)%nat →
  m2 !! elapsedKernelTimer a = Some (BReal c2) → (0 < length c2)%nat →
  both (λ m1' m2', m1' !! achtemp_re a = m2' !! achtemp_re a ∧
                   m1' !! achtemp_im a = m2' !! achtemp_im a)
       (noflagOCC_solver t0 t1 a m1) (noflagOCC_solver t0' t1' a m2).
Proof.
  intros Hq Ha Hc1 Hlen1 Hc2 Hlen2.
  pose proof (target_loop_both _ a m1 m2 Hq Ha) as Hloop.
  unfold noflagOCC_solver.
  destruct (target_loop a m1) as [s1|] eqn:Hs1,
           (target_loop a m2) as [s2|] eqn:Hs2; try done.
  simpl in Hloop. cbn [mbind option_bind].
  apply target_loop_frame in Hs1, Hs2. unfold touched in Hq.
  rewrite (store_real_block s1 _ c1), (store_real_block s2 _ c2);
    [|rewrite Hs2; [done|set_solver]|lia|rewrite Hs1; [done|set_solver]|lia].
  simpl. rewrite !lookup_insert_ne by set_solver.
  split; apply Hloop; set_solver.
Qed.
End Determinism.

(** ** Exact arithmetic *)

Section Exact.
Context {T : Type} `{Scalar T}.
Local Abbreviation heap := (gmap loc (block T)).

Lemma at1_zero_acc (iw : Z) : at1 zero_acc iw = s_zero.
Proof.
  unfold at1, index, zero_acc. case_bool_decide; [|done].
  destruct (replicate _ _ !! _) as [v|] eqn:Hv; [|done].
  by apply lookup_replicate in Hv as [-> _].
Qed.

Lemma running_sum_shift (E : ExactScalar T) (v : T) (ts : list T) :
  running_sum v ts = (v + running_sum s_zero ts)%S.
Proof.
  unfold running_sum. revert v. induction ts as [|t ts IH]; intros v; simpl.
  - by rewrite (exact_add_0_r T E).
  - rewrite (IH (v + t)%S), (IH (s_zero + t)%S).
    by rewrite (exact_add_0_l T E), (exact_add_assoc T E).
Qed.

Lemma running_sum_scale (E : ExactScalar T) (k v : T) (ts : list T) :
  running_sum (k * v)%S (s_mul k <$> ts) = (k * running_sum v ts)%S.
Proof.
  unfold running_sum. revert v. induction ts as [|t ts IH]; intros v; simpl.
  - done.
  - by rewrite <- (exact_mul_add_distr_l T E), IH.
Qed.

Lemma at1_scale (E : ExactScalar T) (k : T) (l : list T) (i : Z) :
  at1 (s_mul k <$> l) i = (k * at1 l i)%S.
Proof.
  unfold at1, index. case_bool_decide; simpl.
  - rewrite list_lookup_fmap. destruct (l !! Z.to_nat i); simpl; [done|].
    by rewrite (exact_mul_0_r T E).
  - by rewrite (exact_mul_0_r T E).
Qed.

Lemma sch_at_scale (E : ExactScalar T) (k : T) (x : inputs T) (nc iw : Z)
    (t : Z * Z * Z) :
  get_real (sch_at (scale_vcoul k x) nc iw t) = (k * get_real (sch_at x nc iw t))%S
  ∧ get_imag (sch_at (scale_vcoul k x) nc iw t)
    = (k * get_imag (sch_at x nc iw t))%S.
Proof.
  destruct t as [[n1 my_igp] ig]. unfold sch_at.
  change (resolve (scale_vcoul k x) my_igp) with (resolve x my_igp).
  change (delw_at (scale_vcoul k x)) with (delw_at x).
  cbn [scale_vcoul in_vcoul in_I_eps_array in_aqsmtemp in_aqsntemp].
  rewrite (at1_scale E). unfold cscale at 1 3 5 7. cbn [get_real get_imag].
  split.
  - rewrite (exact_mul_assoc T E), (exact_mul_comm T E _ k).
    by rewrite <- (exact_mul_assoc T E).
  - rewrite (exact_mul_assoc T E), (exact_mul_comm T E _ k).
    by rewrite <- (exact_mul_assoc T E).
Qed.

(** C6 (as amended). The kernel only adds to the accumulators, and never
    resets or overwrites them: started from accumulators holding [v_re],
    [v_im] and started from cleared accumulators, it adds the same terms in
    the same order.  In exact arithmetic it therefore returns
    [v_re[iw] + R[iw]] and [v_im[iw] + I[iw]], where [R], [I] are what it
    returns from cleared accumulators. *)
Theorem noflagOCC_solver_adds (t0 t1 : timeval) (a : solver_args) (x : inputs T)
    (v_re v_im : list T) (m m0 : heap) :
  valid_input a x v_re v_im m →
  valid_input a x zero_acc zero_acc m0 →
  ∃ m' m0',
    noflagOCC_solver t0 t1 a m = Some m' ∧
    noflagOCC_solver t0 t1 a m0 = Some m0' ∧
    ∀ iw, nstart ≤ iw < nend →
      ∃ terms_re terms_im R I,
        R = running_sum s_zero terms_re ∧
        I = running_sum s_zero terms_im ∧
        load_real m0' (achtemp_re a) iw = Some R ∧
        load_real m0' (achtemp_im a) iw = Some I ∧
        load_real m' (achtemp_re a) iw
          = Some (running_sum (at1 v_re iw) terms_re) ∧
        load_real m' (achtemp_im a) iw
          = Some (running_sum (at1 v_im iw) terms_im) ∧
        (ExactScalar T →
           load_real m' (achtemp_re a) iw = Some (at1 v_re iw + R)%S ∧
           load_real m' (achtemp_im a) iw = Some (at1 v_im iw + I)%S).
Proof.
  intros Hv Hv0.
  destruct (solver_sums t0 t1 a x v_re v_im m Hv) as (m' & Hrun & Hsum).
  destruct (solver_sums t0 t1 a x zero_acc zero_acc m0 Hv0) as (m0' & Hrun0 & Hsum0).
  exists m', m0'. split; [done|]. split; [done|]. intros iw Hiw.
  destruct (Hsum iw Hiw) as [Hre Him]. destruct (Hsum0 iw Hiw) as [Hre0 Him0].
  rewrite at1_zero_acc in Hre0, Him0.
  eexists _, _, _, _. split; [reflexivity|]. split; [reflexivity|].
  split; [exact Hre0|]. split; [exact Him0|].
  split; [exact Hre|]. split; [exact Him|]. intros E.
  rewrite Hre, Him. unfold achtemp_re_sum, achtemp_im_sum.
  split; f_equal; apply (running_sum_shift E).
Qed.

Lemma sch_at_split (x : inputs T) (nc iw : Z) (t : Z * Z * Z) :
  sch_at x nc iw t = cscale (sch_before_vcoul x nc iw t) (vcoul_at x t).
Proof. by destruct t as [[n1 my_igp] ig]. Qed.

Lemma sch_before_vcoul_scale (k : T) (x : inputs T) (nc iw : Z) (t : Z * Z * Z) :
  sch_before_vcoul (scale_vcoul k x) nc iw t = sch_before_vcoul x nc iw t.
Proof. by destruct t as [[n1 my_igp] ig]. Qed.

Lemma elem_of_triples (nb ng nc : Z) (n1 my_igp ig : Z) :
  (n1, my_igp, ig) ∈ triples nb ng nc → 0 ≤ my_igp < ng.
Proof.
  unfold triples. intros Hin.
  apply list_elem_of_bind in Hin as (n & Hin & _).
  apply list_elem_of_bind in Hin as (g & Hin & Hg).
  apply list_elem_of_bind in Hin as (c & Hin & _).
  apply list_elem_of_singleton in Hin. injection Hin as -> -> ->.
  apply elem_of_seqZ in Hg. lia.
Qed.

(** Within the array, [vcoul[igp]] of the scaled input is [k * vcoul[igp]]. *)
Lemma vcoul_at_scale (k : T) (a : solver_args) (x : inputs T) (re im : list T)
    (m : heap) (t : Z * Z * Z) :
  valid_input a x re im m →
  t ∈ triples (number_bands a) (ngpown a) (ncouls a) →
  vcoul_at (scale_vcoul k x) t = (k * vcoul_at x t)%S.
Proof.
  intros Hv Hin. destruct t as [[n1 my_igp] ig].
  apply elem_of_triples in Hin.
  destruct (valid_resolve _ _ _ _ _ Hv my_igp Hin) as (igp & Hres & Higp).
  unfold vcoul_at. change (resolve (scale_vcoul k x) my_igp) with (resolve x my_igp).
  rewrite Hres. change (default 0 (Some igp)) with igp.
  cbn [scale_vcoul in_vcoul].
  pose proof (valid_len_vcoul _ _ _ _ _ Hv) as Hlen.
  destruct (index_in_range (in_vcoul x) igp) as [v Hv']; [lia|].
  unfold at1. rewrite Hv'.
  apply index_Some in Hv' as [Hpos Hv'].
  assert (index (s_mul k <$> in_vcoul x) igp = Some (k * v)%S) as ->; [|done].
  apply index_Some. split; [done|]. by rewrite list_lookup_fmap, Hv'.
Qed.

(** C5 (as amended). With every entry of [vcoul] multiplied by [k], all
    else fixed and the accumulators cleared, the kernel adds the same
    terms in the same order, each with its last factor [vcoul[igp]]
    replaced by [k * vcoul[igp]].  In exact arithmetic it therefore
    returns [k] times what it returns for the original [vcoul], in both
    parts and at each frequency index. *)
Theorem noflagOCC_solver_linear (t0 t1 : timeval) (k : T)
    (a : solver_args) (x : inputs T) (m mk : heap) :
  valid_input a x zero_acc zero_acc m →
  valid_input a (scale_vcoul k x) zero_acc zero_acc mk →
  ∃ m' mk',
    noflagOCC_solver t0 t1 a m = Some m' ∧
    noflagOCC_solver t0 t1 a mk = Some mk' ∧
    ∀ iw, nstart ≤ iw < nend →
      ∃ (terms : list (CustomComplex T * T)) R I,
        R = running_sum s_zero ((λ p, get_real p.1 * p.2)%S <$> terms) ∧
        I = running_sum s_zero ((λ p, get_imag p.1 * p.2)%S <$> terms) ∧
        load_real m' (achtemp_re a) iw = Some R ∧
        load_real m' (achtemp_im a) iw = Some I ∧
        load_real mk' (achtemp_re a) iw
          = Some (running_sum s_zero
                    ((λ p, get_real p.1 * (k * p.2))%S <$> terms)) ∧
        load_real mk' (achtemp_im a) iw
          = Some (running_sum s_zero
                    ((λ p, get_imag p.1 * (k * p.2))%S <$> terms)) ∧
        (ExactScalar T →
           load_real mk' (achtemp_re a) iw = Some (k * R)%S ∧
           load_real mk' (achtemp_im a) iw = Some (k * I)%S).
Proof.
  intros Hv Hvk.
  destruct (solver_sums t0 t1 a x _ _ m Hv) as (m' & Hrun & Hsum).
  destruct (solver_sums t0 t1 a _ _ _ mk Hvk) as (mk' & Hrunk & Hsumk).
  exists m', mk'. split; [done|]. split; [done|]. intros iw Hiw.
  destruct (Hsum iw Hiw) as [Hre Him]. destruct (Hsumk iw Hiw) as [Hrek Himk].
  rewrite at1_zero_acc in Hre, Him, Hrek, Himk.
  exists ((λ t, (sch_before_vcoul x (ncouls a) iw t, vcoul_at x t))
            <$> triples (number_bands a) (ngpown a) (ncouls a)).
  eexists _, _. split; [reflexivity|]. split; [reflexivity|].
  rewrite <- !list_fmap_compose.
  split; [rewrite Hre; unfold achtemp_re_sum; do 2 f_equal;
          apply list_fmap_ext; intros i t _; by rewrite sch_at_split|].
  split; [rewrite Him; unfold achtemp_im_sum; do 2 f_equal;
          apply list_fmap_ext; intros i t _; by rewrite sch_at_split|].
  split; [rewrite Hrek; unfold achtemp_re_sum; do 2 f_equal;
          apply list_fmap_ext; intros i t Ht;
          apply list_elem_of_lookup_2 in Ht;
          by rewrite sch_at_split, sch_before_vcoul_scale,
                     (vcoul_at_scale k a x _ _ m t Hv Ht)|].
  split; [rewrite Himk; unfold achtemp_im_sum; do 2 f_equal;
          apply list_fmap_ext; intros i t Ht;
          apply list_elem_of_lookup_2 in Ht;
          by rewrite sch_at_split, sch_before_vcoul_scale,
                     (vcoul_at_scale k a x _ _ m t Hv Ht)|].
  intros E. rewrite Hrek, Himk. unfold achtemp_re_sum, achtemp_im_sum.
  rewrite <- !(running_sum_scale E), !(exact_mul_0_r T E), <- !list_fmap_compose.
  split; f_equal; f_equal; apply list_fmap_ext; intros i t _;
    destruct (sch_at_scale E k x (ncouls a) iw t) as [Hr Hi].
  - by rewrite Hr, sch_at_split.
  - by rewrite Hi, sch_at_split.
Qed.
End Exact.

(** ** The kernel on concrete inputs *)

Lemma demo_valid {T : Type} (nb ng nc : Z) (x : inputs T) (re im : list T) (timer : T) :
  input_ok nb ng nc x re im = true →
  valid_input (demo_args nb ng nc) x re im (demo_heap x re im timer).
Proof.
  unfold input_ok. rewrite !andb_true_iff, !bool_decide_eq_true.
  intros [[[Hsz Hlen] Hinv] Hres].
  destruct Hsz as (? & ? & ? & ? & ?).
  destruct Hlen as (? & ? & ? & ? & ? & ? & ? & ? & ? & ?).
  constructor; try assumption; try reflexivity.
  - exists [timer]. split; [reflexivity|simpl; lia].
  - intros my_igp k Hk. rewrite forallb_forall in Hinv.
    specialize (Hinv k). rewrite bool_decide_eq_true in Hinv. apply Hinv.
    apply list_elem_of_In, list_elem_of_lookup. by exists my_igp.
  - intros my_igp Hm. simpl in Hm. rewrite forallb_forall in Hres.
    specialize (Hres my_igp). simpl in Hres.
    destruct (resolve x my_igp) as [igp|].
    + exists igp. split; [done|]. rewrite bool_decide_eq_true in Hres.
      apply Hres. apply list_elem_of_In, elem_of_seqZ. lia.
    + exfalso. apply Bool.diff_false_true. apply Hres.
      apply list_elem_of_In, elem_of_seqZ. lia.
  - done.
  - simpl. intros Hin.
    repeat (apply elem_of_cons in Hin as [Hin|Hin]; [done|]).
    by apply elem_of_nil in Hin.
  - simpl. intros Hin.
    repeat (apply elem_of_cons in Hin as [Hin|Hin]; [done|]).
    by apply elem_of_nil in Hin.
Qed.

Lemma Qc_exact : ExactScalar Qc.
Proof.
  constructor; simpl.
  - apply Qcplus_assoc.
  - apply Qcplus_0_l.
  - apply Qcplus_0_r.
  - apply Qcmult_assoc.
  - apply Qcmult_comm.
  - apply Qcmult_plus_distr_r.
  - apply Qcmult_0_r.
Qed.

Lemma float_neq (a b : float) : PrimFloat.Leibniz.eqb a b = false → a ≠ b.
Proof.
  intros Hab Heq. apply FloatAxioms.Leibniz.eqb_spec in Heq. congruence.
Qed.

Lemma noflagOCC_solver_running_sum_witness :
  ∃ m', noflagOCC_solver demo_clock_start demo_clock_end (demo_args 1 1 2)
          (demo_heap (demo_inputs 1%float) [8; 0; 0]%float [0; 0; 0]%float 0%float)
        = Some m' ∧
    ∀ iw, nstart ≤ iw < nend →
      load_real m' 9 iw
        = Some (achtemp_re_sum (demo_inputs 1%float) 1 1 2 iw
                  (at1 [8; 0; 0]%float iw)) ∧
      load_real m' 10 iw
        = Some (achtemp_im_sum (demo_inputs 1%float) 1 1 2 iw
                  (at1 [0; 0; 0]%float iw)).
Proof.
  apply (noflagOCC_solver_running_sum demo_clock_start demo_clock_end
           (demo_args 1 1 2) (demo_inputs 1%float)).
  apply demo_valid. vm_compute. reflexivity.
Defined.

Lemma noflagOCC_solver_mutates_only_witness :
  ∃ m', noflagOCC_solver demo_clock_start demo_clock_end (demo_args 1 1 2)
          (demo_heap (demo_inputs 1%float) [8; 0; 0]%float [0; 0; 0]%float 0%float)
        = Some m' ∧
    m' !! vcoul (demo_args 1 1 2)
      = demo_heap (demo_inputs 1%float) [8; 0; 0]%float [0; 0; 0]%float 0%float
          !! vcoul (demo_args 1 1 2).
Proof.
  destruct (solver_sums demo_clock_start demo_clock_end (demo_args 1 1 2)
              (demo_inputs 1%float) [8; 0; 0]%float [0; 0; 0]%float
              (demo_heap (demo_inputs 1%float) [8; 0; 0]%float [0; 0; 0]%float
                 0%float))
    as (m' & Hrun & _); [apply demo_valid; vm_compute; reflexivity|].
  exists m'. split; [exact Hrun|].
  apply (noflagOCC_solver_mutates_only _ _ _ _ _ Hrun).
  simpl. intros Hin.
  repeat (apply elem_of_cons in Hin as [Hin|Hin]; [done|]).
  by apply elem_of_nil in Hin.
Defined.

Lemma noflagOCC_solver_no_iteration_witness :
  ∃ m', noflagOCC_solver demo_clock_start demo_clock_end (demo_args 0 1 2)
          (demo_heap (demo_inputs 1%float) [8; 0; 0]%float [0; 0; 0]%float 0%float)
        = Some m' ∧
    m' !! 9 = Some (BReal [8; 0; 0]%float) ∧
    m' !! 10 = Some (BReal [0; 0; 0]%float).
Proof.
  apply (noflagOCC_solver_no_iteration demo_clock_start demo_clock_end
           (demo_args 0 1 2)
           (demo_heap (demo_inputs 1%float) [8; 0; 0]%float [0; 0; 0]%float 0%float)
           [0%float]).
  - left. reflexivity.
  - reflexivity.
  - simpl. lia.
  - simpl. intros Hin.
    repeat (apply elem_of_cons in Hin as [Hin|Hin]; [done|]).
    by apply elem_of_nil in Hin.
Defined.

Lemma agree_off_insert {T : Type} (q k : loc) (b : block T)
    (m1 m2 : gmap loc (block T)) :
  agree_off q m1 m2 → agree_off q (<[k := b]> m1) (<[k := b]> m2).
Proof.
  intros Ha p Hp. rewrite !lookup_insert. case_decide; [done|by apply Ha].
Qed.

Lemma demo_heap_agree {T : Type} (x : inputs T) (re im : list T) (c1 c2 : T) :
  agree_off 11 (demo_heap x re im c1) (demo_heap x re im c2).
Proof.
  unfold demo_heap. do 10 apply agree_off_insert.
  intros p Hp. by rewrite !lookup_insert_ne.
Qed.

Lemma noflagOCC_solver_deterministic_witness :
  both (λ m1' m2', m1' !! 9 = m2' !! 9 ∧ m1' !! 10 = m2' !! 10)
    (noflagOCC_solver demo_clock_start demo_clock_end (demo_args 1 1 2)
       (demo_heap (demo_inputs 1%float) [8; 0; 0]%float [0; 0; 0]%float 0%float))
    (noflagOCC_solver demo_clock_end demo_clock_start (demo_args 1 1 2)
       (demo_heap (demo_inputs 1%float) [8; 0; 0]%float [0; 0; 0]%float 7%float)).
Proof.
  apply (noflagOCC_solver_deterministic demo_clock_start demo_clock_end
           demo_clock_end demo_clock_start (demo_args 1 1 2) _ _
           [0%float] [7%float]).
  - simpl. intros Hin.
    repeat (apply elem_of_cons in Hin as [Hin|Hin]; [done|]).
    by apply elem_of_nil in Hin.
  - apply demo_heap_agree.
  - reflexivity.
  - simpl. lia.
  - reflexivity.
  - simpl. lia.
Defined.

Lemma noflagOCC_solver_adds_witness :
  ∃ m' m0',
    noflagOCC_solver demo_clock_start demo_clock_end (demo_args 1 1 2)
      (demo_heap (demo_inputs (Q2Qc 2)) [Q2Qc 5; Q2Qc 0; Q2Qc 1] [Q2Qc 0; Q2Qc 7; Q2Qc 0]
         (Q2Qc 0)) = Some m' ∧
    noflagOCC_solver demo_clock_start demo_clock_end (demo_args 1 1 2)
      (demo_heap (demo_inputs (Q2Qc 2)) zero_acc zero_acc (Q2Qc 0)) = Some m0' ∧
    ∀ iw, nstart ≤ iw < nend →
      ∃ terms_re terms_im R I,
        R = running_sum s_zero terms_re ∧
        I = running_sum s_zero terms_im ∧
        load_real m0' 9 iw = Some R ∧
        load_real m0' 10 iw = Some I ∧
        load_real m' 9 iw
          = Some (running_sum (at1 [Q2Qc 5; Q2Qc 0; Q2Qc 1] iw) terms_re) ∧
        load_real m' 10 iw
          = Some (running_sum (at1 [Q2Qc 0; Q2Qc 7; Q2Qc 0] iw) terms_im) ∧
        (ExactScalar Qc →
           load_real m' 9 iw = Some (at1 [Q2Qc 5; Q2Qc 0; Q2Qc 1] iw + R)%S ∧
           load_real m' 10 iw = Some (at1 [Q2Qc 0; Q2Qc 7; Q2Qc 0] iw + I)%S).
Proof.
  apply (noflagOCC_solver_adds demo_clock_start demo_clock_end
           (demo_args 1 1 2) (demo_inputs (Q2Qc 2))).
  - apply demo_valid. vm_compute. reflexivity.
  - apply demo_valid. vm_compute. reflexivity.
Defined.

Lemma noflagOCC_solver_linear_witness :
  ∃ m' mk',
    noflagOCC_solver demo_clock_start demo_clock_end (demo_args 1 1 2)
      (demo_heap (demo_inputs (Q2Qc 2)) zero_acc zero_acc (Q2Qc 0)) = Some m' ∧
    noflagOCC_solver demo_clock_start demo_clock_end (demo_args 1 1 2)
      (demo_heap (scale_vcoul (Q2Qc 3) (demo_inputs (Q2Qc 2))) zero_acc zero_acc
         (Q2Qc 0)) = Some mk' ∧
    ∀ iw, nstart ≤ iw < nend →
      ∃ (terms : list (CustomComplex Qc * Qc)) R I,
        R = running_sum s_zero ((λ p, get_real p.1 * p.2)%S <$> terms) ∧
        I = running_sum s_zero ((λ p, get_imag p.1 * p.2)%S <$> terms) ∧
        load_real m' 9 iw = Some R ∧
        load_real m' 10 iw = Some I ∧
        load_real mk' 9 iw
          = Some (running_sum s_zero
                    ((λ p, get_real p.1 * (Q2Qc 3 * p.2))%S <$> terms)) ∧
        load_real mk' 10 iw
          = Some (running_sum s_zero
                    ((λ p, get_imag p.1 * (Q2Qc 3 * p.2))%S <$> terms)) ∧
        (ExactScalar Qc →
           load_real mk' 9 iw = Some (Q2Qc 3 * R)%S ∧
           load_real mk' 10 iw = Some (Q2Qc 3 * I)%S).
Proof.
  apply (noflagOCC_solver_linear demo_clock_start demo_clock_end
           (Q2Qc 3) (demo_args 1 1 2) (demo_inputs (Q2Qc 2))).
  - apply demo_valid. vm_compute. reflexivity.
  - apply demo_valid. vm_compute. reflexivity.
Defined.

(** In binary64 the sum is rounded after each addition.  One band, one
    group point and two plane waves, [vcoul = [4; 4]], and the accumulator
    [achtemp_re[0]] started at [2^53]: each of the two terms is absorbed,
    the kernel returns [2^53]; started at zero it returns
    [R = 1.3999999999999999], and [2^53 + R = 2^53 + 2]. *)
Lemma noflagOCC_solver_adds_double_counterexample :
  ∃ m' m0' F R,
    valid_input (demo_args 1 1 2) (demo_inputs 4%float)
      [9007199254740992; 0; 0]%float [0; 0; 0]%float
      (demo_heap (demo_inputs 4%float) [9007199254740992; 0; 0]%float
         [0; 0; 0]%float 0%float) ∧
    valid_input (demo_args 1 1 2) (demo_inputs 4%float) zero_acc zero_acc
      (demo_heap (demo_inputs 4%float) zero_acc zero_acc 0%float) ∧
    noflagOCC_solver demo_clock_start demo_clock_end (demo_args 1 1 2)
      (demo_heap (demo_inputs 4%float) [9007199254740992; 0; 0]%float
         [0; 0; 0]%float 0%float) = Some m' ∧
    noflagOCC_solver demo_clock_start demo_clock_end (demo_args 1 1 2)
      (demo_heap (demo_inputs 4%float) zero_acc zero_acc 0%float) = Some m0' ∧
    load_real m' 9 0 = Some F ∧
    load_real m0' 9 0 = Some R ∧
    F ≠ (9007199254740992 + R)%float.
Proof.
  eexists _, _, _, _.
  split; [apply demo_valid; vm_compute; reflexivity|].
  split; [apply demo_valid; vm_compute; reflexivity|].
  split; [vm_compute; reflexivity|].
  split; [vm_compute; reflexivity|].
  split; [vm_compute; reflexivity|].
  split; [vm_compute; reflexivity|].
  apply float_neq. vm_compute. reflexivity.
Qed.

(** In binary64 the products are rounded.  Same sizes, [vcoul = [1; 1]]
    and [k = 3]: the kernel returns [R = 0.34999999999999998] for [vcoul]
    and [1.05] for [3 * vcoul], and [3 * R = 1.0499999999999998]. *)
Lemma noflagOCC_solver_linear_double_counterexample :
  ∃ m' mk' R K,
    valid_input (demo_args 1 1 2) (demo_inputs 1%float) zero_acc zero_acc
      (demo_heap (demo_inputs 1%float) zero_acc zero_acc 0%float) ∧
    valid_input (demo_args 1 1 2) (scale_vcoul 3%float (demo_inputs 1%float))
      zero_acc zero_acc
      (demo_heap (scale_vcoul 3%float (demo_inputs 1%float)) zero_acc zero_acc
         0%float) ∧
    noflagOCC_solver demo_clock_start demo_clock_end (demo_args 1 1 2)
      (demo_heap (demo_inputs 1%float) zero_acc zero_acc 0%float) = Some m' ∧
    noflagOCC_solver demo_clock_start demo_clock_end (demo_args 1 1 2)
      (demo_heap (scale_vcoul 3%float (demo_inputs 1%float)) zero_acc zero_acc
         0%float) = Some mk' ∧
    load_real m' 9 0 = Some R ∧
    load_real mk' 9 0 = Some K ∧
    K ≠ (3 * R)%float.
Proof.
  eexists _, _, _, _.
  split; [apply demo_valid; vm_compute; reflexivity|].
  split; [apply demo_valid; vm_compute; reflexivity|].
  split; [vm_compute; reflexivity|].
  split; [vm_compute; reflexivity|].
  split; [vm_compute; reflexivity|].
  split; [vm_compute; reflexivity|].
  apply float_neq. vm_compute. reflexivity.
Qed.

(** ** The sizes [main] derives *)

Lemma int_range_Some (z v : Z) :
  int_range z = Some v ↔ v = z ∧ INT_MIN ≤ z ≤ INT_MAX.
Proof.
  unfold int_range. case_bool_decide; [|by split; [|intros [_ ?]]].
  split; [by intros [= <-]|by intros [-> _]].
Qed.

Lemma int_div_Some (a b v : Z) :
  int_div a b = Some v ↔ b ≠ 0 ∧ v = a `quot` b ∧ INT_MIN ≤ a `quot` b ≤ INT_MAX.
Proof.
  unfold int_div. case_bool_decide as Hb.
  - split; [done|by intros [? _]].
  - rewrite int_range_Some. tauto.
Qed.

(** C7 (as amended). [ngpown] is the truncated quotient of [ncouls] by
    [nodes_per_group]: for every sizing with [0 <= ncouls] and
    [0 < nodes_per_group] the division is defined and
    [ngpown * nodes_per_group <= ncouls < (ngpown + 1) * nodes_per_group],
    the difference being the remainder; the product equals [ncouls]
    exactly when [nodes_per_group] divides [ncouls]. *)
Theorem derive_ngpown_truncates (s : sizes) :
  0 ≤ sz_ncouls s ≤ INT_MAX → 0 < sz_nodes_per_group s →
  ∃ ngpown,
    derive_ngpown s = Some ngpown ∧
    ngpown * sz_nodes_per_group s + sz_ncouls s `mod` sz_nodes_per_group s
      = sz_ncouls s ∧
    ngpown * sz_nodes_per_group s ≤ sz_ncouls s
      < (ngpown + 1) * sz_nodes_per_group s ∧
    (ngpown * sz_nodes_per_group s = sz_ncouls s
       ↔ (sz_nodes_per_group s | sz_ncouls s)).
Proof.
  intros Hnc Hnpg. exists (sz_ncouls s `div` sz_nodes_per_group s).
  pose proof (Z.div_mod (sz_ncouls s) (sz_nodes_per_group s)) as Hdm.
  pose proof (Z.mod_pos_bound (sz_ncouls s) (sz_nodes_per_group s) Hnpg) as Hm.
  assert (0 ≤ sz_ncouls s `div` sz_nodes_per_group s ≤ sz_ncouls s) as Hq.
  { split; [apply Z.div_pos; lia|]. apply Z.div_le_upper_bound; nia. }
  split; [|split; [lia|split; [nia|]]].
  - unfold derive_ngpown. apply int_div_Some.
    rewrite Z.quot_div_nonneg by lia. unfold INT_MIN, INT_MAX in *. lia.
  - rewrite <- Z.mod_divide by lia. lia.
Qed.

Lemma derive_ngpown_truncates_witness :
  ∃ ngpown,
    derive_ngpown test_sizes = Some ngpown ∧
    ngpown * 20 + 512 `mod` 20 = 512 ∧
    ngpown * 20 ≤ 512 < (ngpown + 1) * 20 ∧
    (ngpown * 20 = 512 ↔ (20 | 512)).
Proof.
  apply (derive_ngpown_truncates test_sizes).
  - vm_compute. split; discriminate.
  - reflexivity.
Defined.

(** The two built-in sizings: 512 = 25 * 20 + 12 and
    32768 = 1638 * 20 + 8. *)
Lemma derive_ngpown_builtin (atoi : string → Z) (prog : string) :
  problem_sizes atoi [prog] = Run test_sizes ∧
  problem_sizes atoi [prog; "test"%string] = Run test_sizes ∧
  problem_sizes atoi [prog; "benchmark"%string] = Run benchmark_sizes ∧
  derive_ngpown test_sizes = Some 25 ∧
  derive_ngpown benchmark_sizes = Some 1638.
Proof. repeat split. Qed.

(** The test sizing [main] falls back to when it is run without argument:
    [ngpown = 512 / 20 = 25], and [25 * 20 = 500], not 512. *)
Lemma derive_ngpown_divides_counterexample :
  problem_sizes (λ _, 0) ["gpp.ex"%string] = Run test_sizes ∧
  derive_ngpown test_sizes = Some 25 ∧
  25 * sz_nodes_per_group test_sizes ≠ sz_ncouls test_sizes.
Proof. split; [reflexivity|]. split; [reflexivity|]. discriminate. Qed.

(** ** The index maps [main] builds *)

Lemma for_each_invariant {St : Type} (P : Z → St → Prop)
    (body : Z → St → option St) (n : nat) (lo : Z) (s s' : St) :
  (∀ i s s1, lo ≤ i < lo + Z.of_nat n → P i s → body i s = Some s1 → P (i + 1) s1) →
  P lo s →
  for_each body (seqZ lo (Z.of_nat n)) s = Some s' →
  P (lo + Z.of_nat n) s'.
Proof.
  revert lo s. induction n as [|n IH]; intros lo s Hbody HP Hrun.
  - simpl in Hrun. injection Hrun as <-. by rewrite Z.add_0_r.
  - rewrite seqZ_cons in Hrun by lia. simpl in Hrun.
    apply bind_Some in Hrun as (s1 & Hs1 & Hrun).
    replace (Z.pred (Z.of_nat (S n))) with (Z.of_nat n) in Hrun by lia.
    replace (lo + Z.of_nat (S n)) with (Z.succ lo + Z.of_nat n) by lia.
    apply (IH (Z.succ lo) s1); [| |done].
    + intros i s2 s3 Hi. apply Hbody. lia.
    + replace (Z.succ lo) with (lo + 1) by lia. eapply Hbody; [|done..]. lia.
Qed.

(** What holds before a loop and is carried by every iteration that
    returns holds after the loop, if the loop returns. *)
Lemma for_loop_invariant {S : Type} (P : Z → S → Prop) (body : Z → S → option S)
    (lo hi : Z) (s s' : S) :
  lo ≤ hi →
  (∀ i s s1, lo ≤ i < hi → P i s → body i s = Some s1 → P (i + 1) s1) →
  P lo s → for_loop lo hi body s = Some s' → P hi s'.
Proof.
  intros Hle Hbody HP Hrun. unfold for_loop in Hrun.
  replace hi with (lo + Z.of_nat (Z.to_nat (hi - lo))) by lia.
  apply (for_each_invariant P body _ lo s); [|done|].
  - intros i s1 s2 Hi. apply Hbody. lia.
  - by rewrite Z2Nat.id by lia.
Qed.

Section IndexMaps.
Context {T : Type}.
Local Abbreviation heap := (gmap loc (block T)).

Lemma load_store_int (m m' : heap) (p : loc) (i v : Z) :
  store_int m p i v = Some m' → load_int m' p i = Some v.
Proof.
  unfold store_int, load_int. intros Hst.
  destruct (m !! p) as [[l|l|l]|]; try done.
  case_bool_decide as Hi; [|done]. injection Hst as <-.
  rewrite lookup_insert_eq. apply index_Some. split; [lia|].
  apply list_lookup_insert_eq. lia.
Qed.

Lemma load_store_int_other (m m' : heap) (p q : loc) (i j v : Z) :
  store_int m p i v = Some m' → q ≠ p ∨ j ≠ i →
  load_int m' q j = load_int m q j.
Proof.
  unfold store_int, load_int. intros Hst Hne.
  destruct (m !! p) as [[l|l|l]|] eqn:Hp; try done.
  case_bool_decide as Hi; [|done]. injection Hst as <-.
  destruct (decide (q = p)) as [->|Hq].
  - rewrite lookup_insert_eq, Hp. unfold index.
    case_bool_decide; [|done]. apply list_lookup_insert_ne. lia.
  - by rewrite lookup_insert_ne.
Qed.

(** C3. After the caller's initialisation of the two index maps
    ([inv_igp_index[ig] = (ig + 1) * ncouls / ngpown], [indinv[ig] = ig],
    [indinv[ncouls] = ncouls - 1]) and for [ngpown >= 1], [ncouls >= 1],
    the resolution [indinv[inv_igp_index[my_igp]]] of every
    [my_igp] in [0, ngpown) reads both arrays within their bounds, with
    [inv_igp_index[my_igp]] in [0, ncouls] and the result [igp] in
    [0, ncouls), so that the flat index of [aqsmtemp(n1, igp)] and
    [aqsntemp(n1, igp)] lies within [number_bands * ncouls] cells and
    [vcoul[igp]] within [ncouls]. *)
Theorem resolve_in_bounds (ngpown ncouls : Z) (a : solver_args) (m m' : heap) :
  1 ≤ ngpown → 1 ≤ ncouls →
  inv_igp_index a ≠ indinv a →
  init_index_maps ngpown ncouls a m = Some m' →
  ∀ my_igp, 0 ≤ my_igp < ngpown →
    ∃ indigp igp,
      load_int m' (inv_igp_index a) my_igp = Some indigp ∧
      indigp = ((my_igp + 1) * ncouls) `div` ngpown ∧
      0 ≤ indigp ≤ ncouls ∧
      load_int m' (indinv a) indigp = Some igp ∧
      igp = Z.min indigp (ncouls - 1) ∧
      0 ≤ igp < ncouls ∧
      ∀ number_bands n1,
        0 ≤ n1 < number_bands → number_bands * ncouls < size_max →
        0 ≤ flat_index n1 ncouls igp < number_bands * ncouls.
Proof.
  intros Hng Hnc Hne Hrun my_igp Hmy. unfold init_index_maps in Hrun.
  apply bind_Some in Hrun as (m1 & Hm1 & Hrun).
  apply bind_Some in Hrun as (m2 & Hm2 & Hrun).
  apply bind_Some in Hrun as (v & Hv & Hrun).
  apply int_range_Some in Hv as [-> _].
  (* the first loop *)
  assert (∀ j, 0 ≤ j < ngpown →
            load_int m1 (inv_igp_index a) j = Some (((j + 1) * ncouls) `div` ngpown))
    as Hfirst.
  { refine (for_loop_invariant
              (λ i s, ∀ j, 0 ≤ j < i →
                 load_int s (inv_igp_index a) j
                 = Some (((j + 1) * ncouls) `div` ngpown))
              _ 0 ngpown m m1 _ _ _ Hm1); [lia| |intros; lia].
    intros i s s1 Hi IH Hbody j Hj.
    apply bind_Some in Hbody as (v1 & Hv1 & Hbody).
    apply bind_Some in Hbody as (v2 & Hv2 & Hbody).
    apply bind_Some in Hbody as (v3 & Hv3 & Hbody).
    apply int_range_Some in Hv1 as [-> _].
    apply int_range_Some in Hv2 as [-> _].
    apply int_div_Some in Hv3 as (_ & -> & _).
    rewrite Z.quot_div_nonneg in Hbody by nia.
    destruct (decide (j = i)) as [->|Hji].
    - by apply load_store_int in Hbody.
    - rewrite (load_store_int_other _ _ _ _ _ _ _ Hbody) by tauto.
      apply IH; lia. }
  (* the second loop *)
  assert ((∀ j, 0 ≤ j < ncouls → load_int m2 (indinv a) j = Some j) ∧
          ∀ j, load_int m2 (inv_igp_index a) j = load_int m1 (inv_igp_index a) j)
    as [Hind Hinv].
  { refine (for_loop_invariant
              (λ i s, (∀ j, 0 ≤ j < i → load_int s (indinv a) j = Some j) ∧
                      ∀ j, load_int s (inv_igp_index a) j
                           = load_int m1 (inv_igp_index a) j)
              _ 0 ncouls m1 m2 _ _ _ Hm2); [lia| |split; [intros; lia|done]].
    intros i s s1 Hi [IH1 IH2] Hbody. split.
    - intros j Hj. destruct (decide (j = i)) as [->|Hji].
      + by apply load_store_int in Hbody.
      + rewrite (load_store_int_other _ _ _ _ _ _ _ Hbody) by tauto.
        apply IH1; lia.
    - intros j. rewrite (load_store_int_other _ _ _ _ _ _ _ Hbody) by tauto.
      apply IH2. }
  (* the resolution *)
  assert (0 ≤ ((my_igp + 1) * ncouls) `div` ngpown ≤ ncouls) as Hrange.
  { split; [apply Z.div_pos; nia|]. apply Z.div_le_upper_bound; nia. }
  exists (((my_igp + 1) * ncouls) `div` ngpown),
         (Z.min (((my_igp + 1) * ncouls) `div` ngpown) (ncouls - 1)).
  split.
  { rewrite (load_store_int_other _ _ _ _ _ _ _ Hrun) by tauto.
    rewrite Hinv. by apply Hfirst. }
  split; [done|]. split; [done|]. split; [|split; [done|split; [lia|]]].
  - destruct (decide (((my_igp + 1) * ncouls) `div` ngpown = ncouls)) as [Heq|Hlt].
    + rewrite Heq, Z.min_r by lia. by apply load_store_int in Hrun.
    + rewrite Z.min_l by lia.
      rewrite (load_store_int_other _ _ _ _ _ _ _ Hrun) by (right; lia).
      apply Hind. lia.
  - intros number_bands n1 Hn1 Hmax.
    destruct (flat_index_in_range n1 ncouls
                (Z.min (((my_igp + 1) * ncouls) `div` ngpown) (ncouls - 1))
                number_bands) as [-> ?]; [done|lia|done|done].
Qed.
End IndexMaps.

(** ** Binary64 comparisons and differences *)

Lemma SFcompare_antisym (x y : spec_float) :
  SFcompare y x = CompOpp <$> SFcompare x y.
Proof.
  destruct x as [sx|sx| |sx mx ex], y as [sy|sy| |sy my ey]; simpl;
    try destruct sx; try destruct sy; try reflexivity.
  - rewrite (Z.compare_antisym ex ey). destruct (ex ?= ey); simpl; try done.
    by rewrite CompOpp_involutive, Pos.compare_cont_antisym.
  - rewrite (Z.compare_antisym ex ey). destruct (ex ?= ey); simpl; try done.
    by rewrite Pos.compare_cont_antisym.
Qed.

Lemma SFcompare_refl (x : spec_float) :
  x ≠ S754_nan → SFcompare x x = Some Eq.
Proof.
  destruct x as [s|s| |s m e]; simpl; try done.
  - by destruct s.
  - intros _. rewrite Z.compare_refl.
    change (Pos.compare_cont Eq m m) with (Pos.compare m m).
    rewrite Pos.compare_refl. by destruct s.
Qed.

Lemma is_nan_spec (x : float) : is_nan x = true ↔ Prim2SF x = S754_nan.
Proof.
  unfold is_nan. rewrite FloatAxioms.eqb_spec. unfold SFeqb. split.
  - intros Hx. destruct (Prim2SF x) eqn:Hsf; try done.
    all: by rewrite SFcompare_refl in Hx.
  - by intros ->.
Qed.

Lemma SFcompare_None (x y : spec_float) :
  SFcompare x y = None ↔ x = S754_nan ∨ y = S754_nan.
Proof.
  destruct x as [sx|sx| |sx mx ex], y as [sy|sy| |sy my ey]; simpl;
    split; try tauto; try discriminate; intros [?|?]; discriminate.
Qed.

(** [x < y] fails exactly when [y <= x] or one of the two is not a number. *)
Lemma ltb_false_iff (x y : float) :
  (x <? y)%float = false
  ↔ (y <=? x)%float = true ∨ is_nan x = true ∨ is_nan y = true.
Proof.
  rewrite FloatAxioms.ltb_spec, FloatAxioms.leb_spec, !is_nan_spec.
  unfold SFltb, SFleb.
  rewrite (SFcompare_antisym (Prim2SF x) (Prim2SF y)).
  pose proof (SFcompare_None (Prim2SF x) (Prim2SF y)) as Hnone.
  destruct (SFcompare (Prim2SF x) (Prim2SF y)) as [[]|]; simpl.
  - tauto.
  - split; [done|]. intros [?|Hnan]; [done|]. apply Hnone in Hnan. done.
  - tauto.
  - tauto.
Qed.

Lemma digits2_pos_bounds (m : positive) :
  2 ^ (Z.pos (digits2_pos m) - 1) ≤ Z.pos m < 2 ^ Z.pos (digits2_pos m).
Proof.
  induction m as [m IH|m IH|]; simpl digits2_pos.
  - rewrite Pos2Z.inj_succ, Z.pow_succ_r by lia.
    replace (Z.succ (Z.pos (digits2_pos m)) - 1) with
      (Z.succ (Z.pos (digits2_pos m) - 1)) by lia.
    rewrite Z.pow_succ_r by lia. lia.
  - rewrite Pos2Z.inj_succ, Z.pow_succ_r by lia.
    replace (Z.succ (Z.pos (digits2_pos m)) - 1) with
      (Z.succ (Z.pos (digits2_pos m) - 1)) by lia.
    rewrite Z.pow_succ_r by lia. lia.
  - simpl. lia.
Qed.

Lemma iter_xO (m d : positive) : Z.pos (Pos.iter xO m d) = Z.pos m * 2 ^ Z.pos d.
Proof.
  induction d as [|d IH] using Pos.peano_ind.
  - simpl. lia.
  - rewrite Pos.iter_succ, Pos2Z.inj_xO, IH, Pos2Z.inj_succ, Z.pow_succ_r by lia.
    lia.
Qed.

Lemma shl_align_fst (mx : positive) (ex ez : Z) :
  ez ≤ ex → Z.pos (fst (shl_align mx ex ez)) = Z.pos mx * 2 ^ (ex - ez).
Proof.
  intros Hle. unfold shl_align. destruct (ez - ex) as [|d|d] eqn:Hd; simpl.
  - replace (ex - ez) with 0 by lia. simpl. lia.
  - lia.
  - rewrite iter_xO. f_equal. f_equal. lia.
Qed.

Lemma valid_finite_bounds (s : bool) (m : positive) (e : Z) :
  valid_binary (S754_finite s m e) = true →
  SpecFloat.emin prec emax ≤ e ∧ Z.pos (digits2_pos m) ≤ prec
  ∧ (SpecFloat.emin prec emax < e → Z.pos (digits2_pos m) = prec).
Proof.
  unfold SpecFloat.valid_binary, bounded, canonical_mantissa, fexp.
  intros [Hc _]%andb_true_iff. apply Z.eqb_eq in Hc. lia.
Qed.

Lemma shr_1_nonneg (mrs : shr_record) : 0 ≤ shr_m mrs → 0 ≤ shr_m (shr_1 mrs).
Proof. destruct mrs as [[|[p|p|]|[p|p|]] r s]; simpl; lia. Qed.

Lemma iter_pos_shr_1_nonneg (p : positive) (mrs : shr_record) :
  0 ≤ shr_m mrs → 0 ≤ shr_m (SpecFloat.iter_pos shr_1 p mrs).
Proof.
  revert mrs. induction p as [p IH|p IH|]; intros mrs Hm; simpl.
  - by apply IH, IH, shr_1_nonneg.
  - by apply IH, IH.
  - by apply shr_1_nonneg.
Qed.

Lemma shr_fexp_nonneg (m e : Z) (l : location) :
  0 ≤ m → 0 ≤ shr_m (fst (shr_fexp prec emax m e l)).
Proof.
  intros Hm. unfold shr_fexp, shr.
  assert (0 ≤ shr_m (shr_record_of_loc m l)) by (by destruct l as [|[]]).
  destruct (_ - e); simpl; try done. by apply iter_pos_shr_1_nonneg.
Qed.

Lemma round_nearest_even_nonneg (m : Z) (l : location) :
  0 ≤ m → 0 ≤ round_nearest_even m l.
Proof.
  intros Hm. unfold round_nearest_even.
  destruct l as [|[]]; try done; [destruct (Z.even m)|]; lia.
Qed.

Lemma binary_round_aux_sign (sx : bool) (mx ex : Z) (lx : location) :
  0 ≤ mx → has_sign sx (binary_round_aux prec emax sx mx ex lx).
Proof.
  intros Hm. unfold binary_round_aux.
  pose proof (shr_fexp_nonneg mx ex lx Hm) as H1.
  destruct (shr_fexp prec emax mx ex lx) as [mrs' e'].
  pose proof (shr_fexp_nonneg
                (round_nearest_even (shr_m mrs') (loc_of_shr_record mrs')) e'
                loc_Exact (round_nearest_even_nonneg _ _ H1)) as H2.
  destruct (shr_fexp prec emax _ e' loc_Exact) as [mrs'' e''].
  simpl in H2. destruct (shr_m mrs''); [done| |lia].
  by destruct (_ <=? _).
Qed.

Lemma binary_normalize_neg (m e : Z) (szero : bool) :
  m < 0 → has_sign true (binary_normalize prec emax m e szero).
Proof.
  intros Hm. destruct m as [|p|p]; try lia. simpl. unfold binary_round.
  destruct (shl_align p e _) as [mz ez]. by apply binary_round_aux_sign.
Qed.

Lemma has_sign_not_positive (x : spec_float) : has_sign true x → not_positive x.
Proof. destruct x as [s|s| |s m e]; simpl; try done; by intros ->. Qed.

(** Two valid finite numbers of the same sign compare as their aligned
    mantissas. *)
Lemma aligned_lt (mx my : positive) (ex ey : Z) (sx sy : bool) :
  valid_binary (S754_finite sx mx ex) = true →
  valid_binary (S754_finite sy my ey) = true →
  ex < ey →
  Z.pos (fst (shl_align mx ex (Z.min ex ey)))
  < Z.pos (fst (shl_align my ey (Z.min ex ey))).
Proof.
  intros (Hex & Hdx & _)%valid_finite_bounds (Hey & _ & Hdy)%valid_finite_bounds Hlt.
  rewrite !shl_align_fst by lia. rewrite Z.min_l by lia.
  replace (ex - ex) with 0 by lia. rewrite Z.pow_0_r, Z.mul_1_r.
  pose proof (digits2_pos_bounds mx) as [_ Hmx].
  pose proof (digits2_pos_bounds my) as [Hmy _].
  rewrite Hdy in Hmy by lia.
  assert (2 ^ Z.pos (digits2_pos mx) ≤ 2 ^ prec) by (apply Z.pow_le_mono_r; lia).
  assert (2 ^ 1 ≤ 2 ^ (ey - ex)) by (apply Z.pow_le_mono_r; lia).
  change (2 ^ (prec - 1)) with 4503599627370496 in Hmy.
  change (2 ^ prec) with 9007199254740992 in *. change (2 ^ 1) with 2 in *.
  nia.
Qed.

Lemma SFsub_not_positive (x y : spec_float) :
  valid_binary x = true → valid_binary y = true →
  SFltb x y = true → not_positive (SF64sub x y).
Proof.
  intros Hvx Hvy. unfold SFltb, SF64sub.
  destruct x as [sx|sx| |sx mx ex], y as [sy|sy| |sy my ey];
    try destruct sx; try destruct sy;
    cbn -[Z.sub Z.add Z.opp Z.min Z.compare shl_align binary_normalize];
    try done.
  all: intros Hlt; apply has_sign_not_positive, binary_normalize_neg.
  - (* both negative *)
    destruct (ex ?= ey) eqn:Hc; try done.
    + apply Z.compare_eq in Hc as ->. rewrite Z.min_id.
      rewrite !shl_align_fst by lia. replace (ey - ey) with 0 by lia.
      rewrite Z.pow_0_r, !Z.mul_1_r.
      destruct (Pos.compare_cont Eq mx my) eqn:Hm; try done.
      change (Pos.compare_cont Eq mx my) with (mx ?= my)%positive in Hm.
      apply Pos.compare_gt_iff, Pos2Z.pos_lt_pos in Hm. lia.
    + apply Z.compare_gt_iff in Hc.
      pose proof (aligned_lt my mx ey ex true true Hvy Hvx Hc) as Hal.
      rewrite (Z.min_comm ex ey). lia.
  - (* negative minus positive *)
    lia.
  - (* both positive *)
    destruct (ex ?= ey) eqn:Hc; try done.
    + apply Z.compare_eq in Hc as ->. rewrite Z.min_id.
      rewrite !shl_align_fst by lia. replace (ey - ey) with 0 by lia.
      rewrite Z.pow_0_r, !Z.mul_1_r.
      change (Pos.compare_cont Eq mx my) with (mx ?= my)%positive in Hlt.
      destruct (mx ?= my)%positive eqn:Hm; try done.
      apply Pos.compare_lt_iff, Pos2Z.pos_lt_pos in Hm. lia.
    + apply Z.compare_lt_iff in Hc.
      pose proof (aligned_lt mx my ex ey false false Hvx Hvy Hc) as Hal.
      lia.
Qed.

Lemma not_positive_ltb (x : spec_float) (m : positive) (e : Z) :
  not_positive x → SFltb x (S754_finite false m e) = true.
Proof. destruct x as [s|[]| |[] mx ex]; simpl; try done. Qed.

(** A number below another leaves a difference below every positive
    number: the rounded difference is negative, zero or minus infinity. *)
Lemma sub_ltb_positive (x y tol : float) (m : positive) (e : Z) :
  Prim2SF tol = S754_finite false m e →
  (x <? y)%float = true → (x - y <? tol)%float = true.
Proof.
  intros Htol. rewrite !FloatAxioms.ltb_spec, sub_spec, Htol. intros Hlt.
  apply not_positive_ltb, SFsub_not_positive; [apply Prim2SF_valid..|done].
Qed.

Lemma binary_normalize_not_nan (m e : Z) (szero : bool) :
  binary_normalize prec emax m e szero ≠ S754_nan.
Proof.
  destruct m as [|p|p]; simpl; [done|..]; unfold binary_round;
    destruct (shl_align p e _) as [mz ez]; intros Hnan.
  - pose proof (binary_round_aux_sign false (Z.pos mz) ez loc_Exact) as Hs.
    rewrite Hnan in Hs. apply Hs. lia.
  - pose proof (binary_round_aux_sign true (Z.pos mz) ez loc_Exact) as Hs.
    rewrite Hnan in Hs. apply Hs. lia.
Qed.

(** A difference with a finite number is not a number exactly when the
    other operand is not a number. *)
Lemma sub_is_nan (x c : float) (s : bool) (m : positive) (e : Z) :
  Prim2SF c = S754_finite s m e → is_nan (x - c) = is_nan x.
Proof.
  intros Hc. apply eq_true_iff_eq. rewrite !is_nan_spec, sub_spec, Hc.
  unfold SF64sub, SFsub.
  destruct (Prim2SF x) as [sx|sx| |sx mx ex]; try done.
  split; [|done]. intros Hnan. by apply binary_normalize_not_nan in Hnan.
Qed.

(** ** The correctness check *)

Lemma expected_finite (problem_size : Z) :
  (∃ s m e, Prim2SF (expected problem_size).1 = S754_finite s m e) ∧
  (∃ s m e, Prim2SF (expected problem_size).2 = S754_finite s m e).
Proof.
  unfold expected. case_bool_decide; split; eexists _, _, _; vm_compute;
    reflexivity.
Qed.

(** C10 (as amended). The check is one-sided: it takes the signed
    differences between the computed and the expected parts and declares
    success exactly when both are strictly below [1e-5], with no absolute
    value; so every result whose two parts are below the expected ones
    passes, however far below.  It exits with [EXIT_FAILURE] exactly when
    a difference is not below [1e-5]: when it is [>= 1e-5], or when the
    part of the result is not a number. *)
Theorem correctness_one_sided (problem_size : Z) (result : CustomComplex float) :
  let re_diff := (get_real result - (expected problem_size).1)%float in
  let im_diff := (get_imag result - (expected problem_size).2)%float in
  (correctness problem_size result = Success
     ↔ (re_diff <? 0.00001)%float = true ∧ (im_diff <? 0.00001)%float = true)
  ∧ ((get_real result <? (expected problem_size).1)%float = true →
     (get_imag result <? (expected problem_size).2)%float = true →
     correctness problem_size result = Success)
  ∧ (correctness problem_size result = Failure
     ↔ (0.00001 <=? re_diff)%float = true ∨ is_nan (get_real result) = true
       ∨ (0.00001 <=? im_diff)%float = true ∨ is_nan (get_imag result) = true).
Proof.
  intros re_diff im_diff.
  assert (correctness problem_size result
          = if (re_diff <? 0.00001)%float && (im_diff <? 0.00001)%float
            then Success else Failure) as Hc.
  { unfold correctness, re_diff, im_diff, expected. by case_bool_decide. }
  assert (is_nan 0.00001%float = false) as Htol by reflexivity.
  destruct (expected_finite problem_size) as [(s1 & m1 & e1 & H1) (s2 & m2 & e2 & H2)].
  assert (is_nan re_diff = is_nan (get_real result)) as Hn1
    by apply (sub_is_nan _ _ _ _ _ H1).
  assert (is_nan im_diff = is_nan (get_imag result)) as Hn2
    by apply (sub_is_nan _ _ _ _ _ H2).
  rewrite Hc. split; [|split].
  - destruct (re_diff <? 0.00001)%float, (im_diff <? 0.00001)%float; simpl;
      split; try done; intros [? ?]; done.
  - intros Hre Him.
    assert ((re_diff <? 0.00001)%float = true) as ->
      by (eapply sub_ltb_positive; [vm_compute; reflexivity|done]).
    assert ((im_diff <? 0.00001)%float = true) as ->
      by (eapply sub_ltb_positive; [vm_compute; reflexivity|done]).
    done.
  - rewrite <- Hn1, <- Hn2.
    pose proof (ltb_false_iff re_diff 0.00001%float) as Hr.
    pose proof (ltb_false_iff im_diff 0.00001%float) as Hi.
    rewrite Htol in Hr, Hi.
    destruct (re_diff <? 0.00001)%float, (im_diff <? 0.00001)%float; simpl;
      split; try done; intros; naive_solver.
Qed.

(** A result whose real part is not a number: the check fails and the
    program exits, though neither difference is [>= 1e-5]. *)
Lemma correctness_nan_counterexample :
  correctness 1 (mkComplex nan 0%float) = Failure ∧
  (0.00001 <=? (nan - -0.096066))%float = false ∧
  (0.00001 <=? (0 - 11.431852))%float = false.
Proof. repeat split. Qed.

(** ** Reference scenario A *)

Lemma foldl_ext_in {A B : Type} (f g : A → B → A) (l : list B) (a : A) :
  (∀ a x, x ∈ l → f a x = g a x) → foldl f a l = foldl g a l.
Proof.
  revert a. induction l as [|x l IH]; intros a Hfg; simpl; [done|].
  rewrite (Hfg a x) by apply list_elem_of_here.
  apply IH. intros a' y Hy. apply Hfg. by apply list_elem_of_further.
Qed.

(** When the term of a triple depends on the group point alone, the
    running sum adds, band after band and group point after group point,
    the same term [nc] times. *)
Lemma running_sum_grouped {T : Type} `{Scalar T} (f : Z * Z * Z → T) (g : Z → T)
    (nb ng nc : Z) (init : T) :
  (∀ n1 my_igp ig, 0 ≤ n1 < nb → 0 ≤ my_igp < ng → 0 ≤ ig < nc →
     f (n1, my_igp, ig) = g my_igp) →
  running_sum init (f <$> triples nb ng nc)
  = let terms := g <$> seqZ 0 ng in
    let cols := seqZ 0 nc in
    foldl (λ v _, foldl (λ v t, foldl (λ v _, v + t)%S v cols) v terms)
          init (seqZ 0 nb).
Proof.
  intros Hfg. cbv zeta. unfold running_sum, triples.
  rewrite foldl_fmap, foldl_bind.
  apply foldl_ext_in. intros v n1 Hn1%elem_of_seqZ.
  rewrite foldl_bind, foldl_fmap.
  apply foldl_ext_in. intros v1 my_igp Hmy%elem_of_seqZ.
  rewrite foldl_bind.
  apply foldl_ext_in. intros v2 ig Hig%elem_of_seqZ. simpl.
  by rewrite Hfg by lia.
Qed.

Lemma at2_replicate {T : Type} `{Scalar T} (n : nat) (v : CustomComplex T)
    (cols r c : Z) :
  0 ≤ r * cols + c < Z.of_nat n → at2 (replicate n v) cols r c = v.
Proof.
  intros Hi. unfold at2, index. rewrite bool_decide_true by lia.
  by rewrite lookup_replicate_2 by lia.
Qed.

Lemma scenario_sch_at (nb ng nc iw n1 my_igp ig igp : Z) :
  0 ≤ n1 < nb → 0 ≤ my_igp < ng → 0 ≤ ig < nc →
  resolve (scenario_inputs nb ng nc) my_igp = Some igp → 0 ≤ igp < nc →
  sch_at (scenario_inputs nb ng nc) nc iw (n1, my_igp, ig)
  = sch_at (scenario_inputs nb ng nc) nc iw (0, my_igp, 0).
Proof.
  intros Hn1 Hmy Hig Hres Higp. unfold sch_at, delw_at, wdiff_at.
  rewrite Hres. change (default 0 (Some igp)) with igp.
  cbn [scenario_inputs in_wtilde_array in_I_eps_array in_aqsmtemp
       in_aqsntemp in_vcoul in_wx_array].
  rewrite (at2_replicate _ expr nc my_igp ig) by nia.
  rewrite (at2_replicate _ expr nc my_igp 0) by nia.
  rewrite (at2_replicate _ expr nc n1 igp) by nia.
  rewrite (at2_replicate _ expr nc 0 igp) by nia.
  done.
Qed.

Lemma scenario_sum (part : CustomComplex float → float) (nb ng nc iw : Z)
    (init : float) :
  (∀ my_igp, 0 ≤ my_igp < ng →
     ∃ igp, resolve (scenario_inputs nb ng nc) my_igp = Some igp ∧ 0 ≤ igp < nc) →
  running_sum init
    ((λ t, part (sch_at (scenario_inputs nb ng nc) nc iw t)) <$> triples nb ng nc)
  = let terms :=
      (λ my_igp, part (sch_at (scenario_inputs nb ng nc) nc iw (0, my_igp, 0)))
        <$> seqZ 0 ng in
    let cols := seqZ 0 nc in
    foldl (λ v _, foldl (λ v t, foldl (λ v _, v + t)%S v cols) v terms)
          init (seqZ 0 nb).
Proof.
  intros Hres.
  apply (running_sum_grouped
           (λ t, part (sch_at (scenario_inputs nb ng nc) nc iw t))
           (λ my_igp, part (sch_at (scenario_inputs nb ng nc) nc iw (0, my_igp, 0)))).
  intros n1 my_igp ig Hn1 Hmy Hig. destruct (Hres my_igp Hmy) as (igp & Higp & ?).
  by rewrite (scenario_sch_at nb ng nc iw n1 my_igp ig igp).
Qed.

(** The two sums of scenario A for the frequency index 0, in binary64. *)
Lemma scenario_A_sums :
  achtemp_re_sum scenario_A 512 25 512 0 0%float = (-0.096065979384142561)%float ∧
  achtemp_im_sum scenario_A 512 25 512 0 0%float = 11.431851546199047%float.
Proof.
  assert (∀ my_igp, 0 ≤ my_igp < 25 →
            ∃ igp, resolve scenario_A my_igp = Some igp ∧ 0 ≤ igp < 512) as Hres.
  { apply (valid_resolve (demo_args 512 25 512) scenario_A zero_acc zero_acc
             (demo_heap scenario_A zero_acc zero_acc 0%float)).
    apply demo_valid. vm_compute. reflexivity. }
  unfold achtemp_re_sum, achtemp_im_sum, scenario_A.
  rewrite !scenario_sum by exact Hres. split; vm_compute; reflexivity.
Qed.

(** ** Loops that fill an array *)

Lemma length_fill {A : Type} (g : Z → A) (n : Z) (l : list A) :
  0 ≤ n ≤ Z.of_nat (length l) → length (fill g n l) = length l.
Proof.
  intros Hn. unfold fill.
  rewrite length_app, length_fmap, length_seqZ, length_drop. lia.
Qed.

Lemma fill_0 {A : Type} (g : Z → A) (l : list A) : fill g 0 l = l.
Proof. done. Qed.

Lemma fill_all {A : Type} (g : Z → A) (n : Z) (l : list A) :
  n = Z.of_nat (length l) → fill g n l = g <$> seqZ 0 n.
Proof.
  intros ->. unfold fill. rewrite Nat2Z.id, drop_all. apply app_nil_r.
Qed.

Lemma insert_fill {A : Type} (g : Z → A) (n : Z) (l : list A) :
  0 ≤ n < Z.of_nat (length l) →
  <[Z.to_nat n := g n]> (fill g n l) = fill g (n + 1) l.
Proof.
  intros Hn. unfold fill.
  rewrite insert_app_r_alt by (rewrite length_fmap, length_seqZ; lia).
  rewrite length_fmap, length_seqZ, Nat.sub_diag.
  rewrite seqZ_app, fmap_app by lia. rewrite <- app_assoc. f_equal.
  change (seqZ (0 + n) 1) with [0 + n]. simpl.
  destruct (drop (Z.to_nat n) l) as [|x rest] eqn:Hd.
  - apply (f_equal length) in Hd. rewrite length_drop in Hd. simpl in Hd. lia.
  - simpl. f_equal.
    replace (Z.to_nat (n + 1)) with (Z.to_nat n + 1)%nat by lia.
    by rewrite <- drop_drop, Hd.
Qed.

Lemma fmap_const_seqZ {A : Type} (v : A) (n : Z) :
  (λ _, v) <$> seqZ 0 n = replicate (Z.to_nat n) v.
Proof.
  apply list_eq. intros i. rewrite list_lookup_fmap.
  destruct (decide (Z.of_nat i < n)) as [Hi|Hi].
  - rewrite lookup_seqZ_lt by done. simpl.
    by rewrite lookup_replicate_2 by lia.
  - rewrite lookup_seqZ_ge by lia. simpl. symmetry.
    apply lookup_replicate_None. lia.
Qed.

(** What holds before a loop and is carried by every iteration, which
    returns, holds after the loop, which returns. *)
Lemma for_each_total {St : Type} (P : Z → St → Prop) (body : Z → St → option St)
    (n : nat) (lo : Z) (s : St) :
  (∀ i s, lo ≤ i < lo + Z.of_nat n → P i s →
     ∃ s', body i s = Some s' ∧ P (i + 1) s') →
  P lo s →
  ∃ s', for_each body (seqZ lo (Z.of_nat n)) s = Some s' ∧ P (lo + Z.of_nat n) s'.
Proof.
  revert lo s. induction n as [|n IH]; intros lo s Hbody HP.
  - exists s. split; [done|]. by rewrite Z.add_0_r.
  - rewrite seqZ_cons by lia. simpl.
    destruct (Hbody lo s) as (s1 & Hs1 & HP1); [lia|done|]. rewrite Hs1. simpl.
    replace (Z.pred (Z.of_nat (S n))) with (Z.of_nat n) by lia.
    replace (lo + Z.of_nat (S n)) with (Z.succ lo + Z.of_nat n) by lia.
    apply IH.
    + intros i s2 Hi. apply Hbody. lia.
    + by replace (Z.succ lo) with (lo + 1) by lia.
Qed.

Lemma for_loop_total {St : Type} (P : Z → St → Prop) (body : Z → St → option St)
    (lo hi : Z) (s : St) :
  lo ≤ hi →
  (∀ i s, lo ≤ i < hi → P i s → ∃ s', body i s = Some s' ∧ P (i + 1) s') →
  P lo s →
  ∃ s', for_loop lo hi body s = Some s' ∧ P hi s'.
Proof.
  intros Hle Hbody HP. unfold for_loop.
  destruct (for_each_total P body (Z.to_nat (hi - lo)) lo s) as (s' & Hs' & HP');
    [|done|].
  - intros i s1 Hi. apply Hbody. lia.
  - exists s'. rewrite Z2Nat.id in Hs', HP' by lia.
    split; [done|]. by replace hi with (lo + (hi - lo)) by lia.
Qed.

Section FillLoop.
Context {T A : Type} (B : list A → block T).
Context (store : gmap loc (block T) → loc → Z → A → option (gmap loc (block T))).
Context (store_ok : ∀ m p l i v,
  m !! p = Some (B l) → 0 ≤ i < Z.of_nat (length l) →
  store m p i v = Some (<[p := B (<[Z.to_nat i := v]> l)]> m)).
Local Abbreviation heap := (gmap loc (block T)).

Lemma insert2_insert2 (p1 p2 : loc) (b1 b2 c1 c2 : block T) (m : heap) :
  p1 ≠ p2 →
  <[p2 := c2]> (<[p1 := c1]> (<[p2 := b2]> (<[p1 := b1]> m)))
  = <[p2 := c2]> (<[p1 := c1]> m).
Proof.
  intros Hne. apply map_eq. intros j. rewrite !lookup_insert.
  by repeat case_decide.
Qed.

(** A loop whose [i]-th iteration writes [g (off + i)] to the cell
    [off + i] of one array. *)
Lemma fill1_loop (p : loc) (g : Z → A) (off n : Z) (l : list A)
    (body : Z → heap → option heap) (m0 : heap) :
  0 ≤ off → 0 ≤ n → off + n ≤ Z.of_nat (length l) →
  m0 !! p = Some (B (fill g off l)) →
  (∀ i m, 0 ≤ i < n → body i m = store m p (off + i) (g (off + i))) →
  for_loop 0 n body m0 = Some (<[p := B (fill g (off + n) l)]> m0).
Proof using store_ok.
  intros Hoff Hn Hlen Hp Hbody.
  destruct (for_loop_total (λ i s, s = <[p := B (fill g (off + i) l)]> m0)
              body 0 n m0) as (s' & Hs' & ->); [done| |..|done].
  - intros i s Hi ->. rewrite Hbody by lia.
    rewrite (store_ok _ p (fill g (off + i) l));
      [|apply lookup_insert_eq|rewrite length_fill by lia; lia].
    eexists. split; [done|].
    by rewrite insert_insert_eq, insert_fill, Z.add_assoc by lia.
  - rewrite Z.add_0_r. symmetry. by apply insert_id.
Qed.

(** The same for two arrays written side by side. *)
Lemma fill2_loop (p1 p2 : loc) (g : Z → A) (off n : Z) (l1 l2 : list A)
    (body : Z → heap → option heap) (m0 : heap) :
  p1 ≠ p2 → 0 ≤ off → 0 ≤ n →
  off + n ≤ Z.of_nat (length l1) → off + n ≤ Z.of_nat (length l2) →
  m0 !! p1 = Some (B (fill g off l1)) →
  m0 !! p2 = Some (B (fill g off l2)) →
  (∀ i m, 0 ≤ i < n →
     body i m = (m1 ← store m p1 (off + i) (g (off + i));
                 store m1 p2 (off + i) (g (off + i)))) →
  for_loop 0 n body m0
  = Some (<[p2 := B (fill g (off + n) l2)]> (<[p1 := B (fill g (off + n) l1)]> m0)).
Proof using store_ok.
  intros Hne Hoff Hn Hlen1 Hlen2 Hp1 Hp2 Hbody.
  destruct (for_loop_total
              (λ i s, s = <[p2 := B (fill g (off + i) l2)]>
                            (<[p1 := B (fill g (off + i) l1)]> m0))
              body 0 n m0) as (s' & Hs' & ->); [done| |..|done].
  - intros i s Hi ->. rewrite Hbody by lia.
    rewrite (store_ok _ p1 (fill g (off + i) l1));
      [|rewrite lookup_insert_ne by done; apply lookup_insert_eq
       |rewrite length_fill by lia; lia].
    cbn [mbind option_bind].
    rewrite (store_ok _ p2 (fill g (off + i) l2));
      [|rewrite lookup_insert_ne by done; apply lookup_insert_eq
       |rewrite length_fill by lia; lia].
    eexists. split; [done|].
    rewrite !insert_fill, !Z.add_assoc by lia.
    by apply insert2_insert2.
  - rewrite Z.add_0_r. symmetry.
    rewrite (insert_id (<[p1 := _]> m0)).
    + by apply insert_id.
    + by rewrite lookup_insert_ne.
Qed.
End FillLoop.

(** ** The initialisation in [main] *)

Lemma int_range_in (z : Z) : INT_MIN ≤ z ≤ INT_MAX → int_range z = Some z.
Proof. intros Hz. unfold int_range. by rewrite bool_decide_true. Qed.

Lemma flat_index_int_in (r cols c rows : Z) :
  0 ≤ r < rows → 0 ≤ c < cols → rows * cols ≤ INT_MAX →
  flat_index_int r cols c = Some (r * cols + c).
Proof.
  intros Hr Hc Hmax. unfold flat_index_int, int_mul, int_add, INT_MIN in *.
  rewrite int_range_in by (unfold INT_MIN; nia). simpl.
  apply int_range_in. unfold INT_MIN. nia.
Qed.

(** Two arrays of [rows * cols] complex numbers filled with [v] by a
    nest of two loops (lines 263-268 and 270-275). *)
Lemma fill_2d (p1 p2 : loc) (v : CustomComplex float) (rows cols : Z)
    (l1 l2 : list (CustomComplex float)) (m : gmap loc (block float)) :
  p1 ≠ p2 → 0 ≤ rows → 0 ≤ cols → rows * cols ≤ INT_MAX →
  m !! p1 = Some (BCplx l1) → Z.of_nat (length l1) = rows * cols →
  m !! p2 = Some (BCplx l2) → Z.of_nat (length l2) = rows * cols →
  for_loop 0 rows (λ r,
    for_loop 0 cols (λ c m,
      i ← flat_index_int r cols c;
      m1 ← store_cplx m p1 i v;
      store_cplx m1 p2 i v)) m
  = Some (<[p2 := BCplx (replicate (Z.to_nat (rows * cols)) v)]>
            (<[p1 := BCplx (replicate (Z.to_nat (rows * cols)) v)]> m)).
Proof.
  intros Hne Hrows Hcols Hmax Hp1 Hlen1 Hp2 Hlen2.
  destruct (for_loop_total
              (λ r s, s = <[p2 := BCplx (fill (λ _, v) (r * cols) l2)]>
                            (<[p1 := BCplx (fill (λ _, v) (r * cols) l1)]> m))
              (λ r, for_loop 0 cols (λ c m,
                 i ← flat_index_int r cols c;
                 m1 ← store_cplx m p1 i v;
                 store_cplx m1 p2 i v)) 0 rows m) as (s' & Hs' & ->);
    [done| | |].
  - intros r s Hr ->.
    rewrite (fill2_loop BCplx store_cplx store_cplx_block p1 p2 (λ _, v)
               (r * cols) cols l1 l2); [|done|nia|done|nia|nia|..].
    + eexists. split; [done|].
      rewrite insert2_insert2 by done.
      by replace ((r + 1) * cols) with (r * cols + cols) by lia.
    + rewrite lookup_insert_ne by done. apply lookup_insert_eq.
    + apply lookup_insert_eq.
    + intros c m1 Hc. by rewrite (flat_index_int_in r cols c rows).
  - simpl. symmetry. rewrite (insert_id (<[p1 := _]> m)).
    + by apply insert_id.
    + by rewrite lookup_insert_ne.
  - rewrite Hs'. rewrite !fill_all by lia. by rewrite fmap_const_seqZ.
Qed.

Lemma init_vcoul_spec (ncouls : Z) (a : solver_args) (l : list float)
    (m : gmap loc (block float)) :
  0 ≤ ncouls →
  m !! vcoul a = Some (BReal l) → Z.of_nat (length l) = ncouls →
  init_vcoul ncouls a m
  = Some (<[vcoul a :=
              BReal ((λ i, float_of_int i * 0.025)%float <$> seqZ 0 ncouls)]> m).
Proof.
  intros Hnc Hp Hlen. unfold init_vcoul.
  rewrite (fill1_loop BReal store_real store_real_block (vcoul a)
             (λ i, float_of_int i * 0.025)%float 0 ncouls l);
    [|done|done|lia|done|done].
  by rewrite fill_all by lia.
Qed.

Lemma init_achtemp_spec (a : solver_args) (re im : list float)
    (m : gmap loc (block float)) :
  achtemp_re a ≠ achtemp_im a →
  m !! achtemp_re a = Some (BReal re) → Z.of_nat (length re) = nend - nstart →
  m !! achtemp_im a = Some (BReal im) → Z.of_nat (length im) = nend - nstart →
  init_achtemp a m
  = Some (<[achtemp_im a := BReal zero_acc]> (<[achtemp_re a := BReal zero_acc]> m)).
Proof.
  intros Hne Hre Hlre Him Hlim. unfold init_achtemp, nstart, nend in *.
  rewrite (fill2_loop BReal store_real store_real_block (achtemp_re a)
             (achtemp_im a) (λ _, 0%float) 0 3 re im);
    [|done|done|done|lia|lia|done|done|done].
  by rewrite !fill_all by lia.
Qed.

Lemma init_wx_array_spec (a : solver_args) (l : list float)
    (m : gmap loc (block float)) :
  m !! wx_array a = Some (BReal l) → Z.of_nat (length l) = nend - nstart →
  init_wx_array a m
  = Some (<[wx_array a := BReal (wx_of <$> seqZ nstart (nend - nstart))]> m).
Proof.
  intros Hp Hlen. unfold init_wx_array, nstart, nend in *.
  rewrite (fill1_loop BReal store_real store_real_block (wx_array a) wx_of 0 3 l);
    [|done|done|lia|done|].
  - by rewrite fill_all by lia.
  - intros iw m1 Hiw. unfold int_add, int_sub.
    rewrite (int_range_in (iw + 1)) by (unfold INT_MIN, INT_MAX; lia).
    cbn [mbind option_bind].
    rewrite (int_range_in (iw + 1 - 2)) by (unfold INT_MIN, INT_MAX; lia).
    cbn [mbind option_bind]. rewrite Z.add_0_l.
    unfold wx_of, store_real, load_real.
    destruct (m1 !! wx_array a) as [[l1|l1|l1]|]; try done.
    destruct (bool_decide_reflect (0 ≤ iw < Z.of_nat (length l1))) as [Hi|Hi];
      [|done].
    cbn [mbind option_bind]. rewrite lookup_insert_eq.
    assert (∀ w, index (<[Z.to_nat iw := w]> l1) iw = Some w) as Hget.
    { intros w. apply index_Some. split; [lia|].
      apply list_lookup_insert_eq. lia. }
    rewrite Hget. cbn [mbind option_bind].
    destruct (_ <? to1)%float; [|done].
    rewrite length_insert, bool_decide_true by done.
    by rewrite insert_insert_eq, list_insert_insert_eq.
Qed.

Lemma insert_fill_last {A : Type} (g : Z → A) (n : Z) (v : A) (l : list A) :
  0 ≤ n → Z.of_nat (length l) = n + 1 →
  <[Z.to_nat n := v]> (fill g n l) = (g <$> seqZ 0 n) ++ [v].
Proof.
  intros Hn Hlen. unfold fill.
  rewrite insert_app_r_alt by (rewrite length_fmap, length_seqZ; lia).
  rewrite length_fmap, length_seqZ, Nat.sub_diag. f_equal.
  destruct (drop (Z.to_nat n) l) as [|x [|y rest]] eqn:Hd; [|done|];
    apply (f_equal length) in Hd; rewrite length_drop in Hd; simpl in Hd; lia.
Qed.

Lemma init_index_maps_spec {T : Type} (ngpown ncouls : Z) (a : solver_args)
    (l1 l2 : list Z) (m : gmap loc (block T)) :
  inv_igp_index a ≠ indinv a →
  1 ≤ ngpown → 1 ≤ ncouls → ngpown * ncouls ≤ INT_MAX →
  m !! inv_igp_index a = Some (BInt l1) → Z.of_nat (length l1) = ngpown →
  m !! indinv a = Some (BInt l2) → Z.of_nat (length l2) = ncouls + 1 →
  init_index_maps ngpown ncouls a m
  = Some (<[indinv a := BInt (seqZ 0 ncouls ++ [ncouls - 1])]>
            (<[inv_igp_index a :=
                 BInt ((λ ig, ((ig + 1) * ncouls) `div` ngpown)
                         <$> seqZ 0 ngpown)]> m)).
Proof.
  intros Hne Hng Hnc Hmax Hp1 Hlen1 Hp2 Hlen2. unfold init_index_maps.
  rewrite (fill1_loop BInt store_int store_int_block (inv_igp_index a)
             (λ ig, ((ig + 1) * ncouls) `div` ngpown) 0 ngpown l1);
    [|done|lia|lia|done|].
  2:{ intros ig m1 Hig. unfold int_add, int_mul, int_div.
      rewrite (int_range_in (ig + 1)) by (unfold INT_MIN, INT_MAX in *; nia).
      cbn [mbind option_bind].
      rewrite (int_range_in ((ig + 1) * ncouls))
        by (unfold INT_MIN, INT_MAX in *; nia).
      cbn [mbind option_bind]. rewrite bool_decide_false by lia.
      rewrite Z.quot_div_nonneg by nia.
      assert (0 ≤ ((ig + 1) * ncouls) `div` ngpown ≤ ncouls) as Hq.
      { split; [apply Z.div_pos; nia|]. apply Z.div_le_upper_bound; nia. }
      rewrite int_range_in by (unfold INT_MIN, INT_MAX in *; nia).
      cbn [mbind option_bind]. by rewrite Z.add_0_l. }
  cbn [mbind option_bind]. rewrite fill_all by lia.
  rewrite (fill1_loop BInt store_int store_int_block (indinv a)
             (λ ig, ig) 0 ncouls l2); [|done|lia|lia| |done].
  2:{ by rewrite lookup_insert_ne. }
  cbn [mbind option_bind]. unfold int_sub.
  rewrite int_range_in by (unfold INT_MIN, INT_MAX in *; nia).
  cbn [mbind option_bind].
  rewrite (store_int_block _ (indinv a) (fill (λ ig, ig) (0 + ncouls) l2));
    [|apply lookup_insert_eq|rewrite length_fill by lia; lia].
  rewrite insert_insert_eq, Z.add_0_l, insert_fill_last by lia.
  by rewrite list_fmap_id.
Qed.

Lemma resolve_scenario (nb ng nc my_igp : Z) :
  1 ≤ ng → 1 ≤ nc → 0 ≤ my_igp < ng →
  resolve (scenario_inputs nb ng nc) my_igp
  = Some (Z.min (((my_igp + 1) * nc) `div` ng) (nc - 1))
  ∧ 0 ≤ ((my_igp + 1) * nc) `div` ng ≤ nc.
Proof.
  intros Hng Hnc Hmy.
  assert (0 ≤ ((my_igp + 1) * nc) `div` ng ≤ nc) as Hq.
  { split; [apply Z.div_pos; nia|]. apply Z.div_le_upper_bound; nia. }
  split; [|done]. unfold resolve, index. cbn [scenario_inputs in_inv_igp_index
                                               in_indinv].
  rewrite bool_decide_true by lia.
  rewrite list_lookup_fmap, lookup_seqZ_lt by lia. cbn [fmap option_fmap option_map
                                                        mbind option_bind].
  rewrite Z.add_0_l, Z2Nat.id, bool_decide_true by lia.
  destruct (decide (((my_igp + 1) * nc) `div` ng = nc)) as [Heq|Hlt].
  - rewrite Heq, Z.min_r by lia.
    rewrite lookup_app_r by (rewrite length_seqZ; lia).
    by rewrite length_seqZ, Nat.sub_diag.
  - rewrite Z.min_l by lia. rewrite lookup_app_l by (rewrite length_seqZ; lia).
    rewrite lookup_seqZ_lt by lia. f_equal. lia.
Qed.

Lemma init_tables_spec (ngpown ncouls : Z) (a : solver_args)
    (lv lre lim lwx : list float) (linv lind : list Z)
    (m : gmap loc (block float)) :
  NoDup [vcoul a; inv_igp_index a; indinv a; achtemp_re a; achtemp_im a;
         wx_array a] →
  1 ≤ ngpown → 1 ≤ ncouls → ngpown * ncouls ≤ INT_MAX →
  m !! vcoul a = Some (BReal lv) → Z.of_nat (length lv) = ncouls →
  m !! inv_igp_index a = Some (BInt linv) → Z.of_nat (length linv) = ngpown →
  m !! indinv a = Some (BInt lind) → Z.of_nat (length lind) = ncouls + 1 →
  m !! achtemp_re a = Some (BReal lre) → Z.of_nat (length lre) = nend - nstart →
  m !! achtemp_im a = Some (BReal lim) → Z.of_nat (length lim) = nend - nstart →
  m !! wx_array a = Some (BReal lwx) → Z.of_nat (length lwx) = nend - nstart →
  init_tables ngpown ncouls a m = Some (tables ngpown ncouls a m).
Proof.
  intros Hnd Hng Hnc Hmax Hv Hlv Hinv Hlinv Hind Hlind Hre Hlre Him Hlim Hwx Hlwx.
  repeat (let Hn := fresh "Hn" in
          apply NoDup_cons in Hnd as [Hn Hnd]; rewrite ?not_elem_of_cons in Hn).
  destruct_and?.
  unfold init_tables, tables.
  rewrite (init_vcoul_spec ncouls a lv) by (done || lia).
  cbn [mbind option_bind].
  rewrite (init_index_maps_spec ngpown ncouls a linv lind);
    [|done..|by heap_lookup|done|by heap_lookup|done].
  cbn [mbind option_bind].
  rewrite (init_achtemp_spec a lre lim);
    [|done|by heap_lookup|done|by heap_lookup|done].
  cbn [mbind option_bind].
  rewrite (init_wx_array_spec a lwx); [done|by heap_lookup|done].
Qed.

Lemma main_init_spec (a : solver_args) (m : gmap loc (block float)) :
  allocated a m →
  0 ≤ number_bands a → 1 ≤ ngpown a → 1 ≤ ncouls a →
  number_bands a * ncouls a ≤ INT_MAX → ngpown a * ncouls a ≤ INT_MAX →
  main_init (number_bands a) (ngpown a) (ncouls a) a m = Some (initialised a m).
Proof.
  intros [Hnd (linv & Hinv & Hlinv) (lind & Hind & Hlind) (lwx & Hwx & Hlwx)
            (lwt & Hwt & Hlwt) (lam & Ham & Hlam) (lan & Han & Hlan)
            (lie & Hie & Hlie) (lv & Hv & Hlv) (lre & Hre & Hlre)
            (lim & Him & Hlim) _] Hnb Hng Hnc Hmax1 Hmax2.
  assert (NoDup [vcoul a; inv_igp_index a; indinv a; achtemp_re a; achtemp_im a;
                 wx_array a]) as Hnd6.
  { pose proof Hnd as Hnd'. split_distinct Hnd'.
    repeat (apply NoDup_cons; split;
            [rewrite ?not_elem_of_cons; repeat split; done || apply not_elem_of_nil|]).
    apply NoDup_nil_2. }
  split_distinct Hnd.
  unfold main_init, initialised, init_bands, init_groups.
  rewrite (fill_2d (aqsmtemp a) (aqsntemp a) expr (number_bands a) (ncouls a)
             lam lan) by (done || arith).
  cbn [mbind option_bind].
  rewrite (fill_2d (I_eps_array a) (wtilde_array a) expr (ngpown a) (ncouls a)
             lie lwt); [|done|arith|arith|done|by heap_lookup|done|by heap_lookup|done].
  cbn [mbind option_bind].
  rewrite (init_tables_spec (ngpown a) (ncouls a) a lv lre lim lwx linv lind);
    [|done..|by heap_lookup|done|by heap_lookup|done|by heap_lookup|done
     |by heap_lookup|done|by heap_lookup|done|by heap_lookup|done].
  cbn [mbind option_bind].
  apply (init_tables_spec (ngpown a) (ncouls a) a
           ((λ i, float_of_int i * 0.025)%float <$> seqZ 0 (ncouls a))
           zero_acc zero_acc (wx_of <$> seqZ nstart (nend - nstart))
           ((λ ig, ((ig + 1) * ncouls a) `div` ngpown a) <$> seqZ 0 (ngpown a))
           (seqZ 0 (ncouls a) ++ [ncouls a - 1])); try done.
  all: unfold tables; try (by heap_lookup).
  - rewrite length_fmap, length_seqZ. arith.
  - rewrite length_fmap, length_seqZ. arith.
  - rewrite length_app, length_seqZ. simpl. arith.
Qed.

Lemma initialised_valid (a : solver_args) (m : gmap loc (block float)) :
  allocated a m →
  0 ≤ number_bands a → 1 ≤ ngpown a → 1 ≤ ncouls a →
  number_bands a * ncouls a ≤ INT_MAX → ngpown a * ncouls a ≤ INT_MAX →
  valid_input a (scenario_inputs (number_bands a) (ngpown a) (ncouls a))
    zero_acc zero_acc (initialised a m).
Proof.
  intros [Hnd _ _ _ _ _ _ _ _ _ _ (lt & Ht & Hlt)] Hnb Hng Hnc Hmax1 Hmax2.
  assert (INT_MAX < size_max) by done.
  pose proof Hnd as Hnd'. split_distinct Hnd'.
  unfold initialised, tables.
  constructor; cbn [scenario_inputs in_inv_igp_index in_indinv in_wx_array
                    in_wtilde_array in_aqsmtemp in_aqsntemp in_I_eps_array
                    in_vcoul].
  all: try (by heap_lookup).
  all: try arith.
  all: rewrite ?length_fmap, ?length_seqZ, ?length_replicate, ?length_app; try arith.
  - exists lt. split; [by heap_lookup|done].
  - rewrite length_seqZ. simpl. arith.
  - intros my_igp k Hk. rewrite list_lookup_fmap in Hk.
    destruct (seqZ 0 (ngpown a) !! my_igp) as [ig|] eqn:Hig; [|done].
    apply lookup_seqZ in Hig as [-> Hlt']. injection Hk as <-.
    drop_distinct. split; [apply Z.div_pos; nia|]. apply Z.div_le_upper_bound; nia.
  - intros my_igp Hmy.
    destruct (resolve_scenario (number_bands a) (ngpown a) (ncouls a) my_igp)
      as [Hres Hq]; [done..|].
    eexists. split; [exact Hres|]. arith.
  - intros Hin. repeat (apply elem_of_cons in Hin as [Hin|Hin]; [done|]).
    by apply elem_of_nil in Hin.
  - intros Hin. repeat (apply elem_of_cons in Hin as [Hin|Hin]; [done|]).
    by apply elem_of_nil in Hin.
Qed.

(** C9. Reference scenario A: [number_bands = 512], [ncouls = 512],
    [nodes_per_group = 20], hence [ngpown = 25].  Whatever the allocated
    arrays hold, [main]'s initialisation returns and leaves the arrays of
    the scenario ([aqsmtemp], [aqsntemp], [I_eps_array], [wtilde_array]
    filled with (0.025, 0.025), [vcoul[i] = i * 0.025], the two index maps
    with the sentinel, [wx_array] clamped at 1e-6 from below, cleared
    accumulators); the kernel then returns, in binary64,
    [achtemp_re[0] = -0.096065979384142561] and
    [achtemp_im[0] = 11.431851546199047], each within [1e-5] of the
    reference values -0.096066 and 11.431852. *)
Theorem scenario_A_result (t0 t1 : timeval) (a : solver_args)
    (m : gmap loc (block float)) :
  number_bands a = sz_number_bands test_sizes →
  Some (ngpown a) = derive_ngpown test_sizes →
  ncouls a = sz_ncouls test_sizes →
  allocated a m →
  ∃ m1 m2 re im,
    main_init 512 25 512 a m = Some m1 ∧
    valid_input a scenario_A zero_acc zero_acc m1 ∧
    noflagOCC_solver t0 t1 a m1 = Some m2 ∧
    load_real m2 (achtemp_re a) 0 = Some re ∧
    load_real m2 (achtemp_im a) 0 = Some im ∧
    re = (-0.096065979384142561)%float ∧
    im = 11.431851546199047%float ∧
    (abs (re - -0.096066) <? 0.00001)%float = true ∧
    (abs (im - 11.431852) <? 0.00001)%float = true.
Proof.
  intros Hnb Hng Hnc Halloc.
  change (derive_ngpown test_sizes) with (Some 25) in Hng. injection Hng as Hng.
  change (number_bands a = 512) in Hnb. change (ncouls a = 512) in Hnc.
  assert (main_init 512 25 512 a m = Some (initialised a m)) as Hinit.
  { pose proof (main_init_spec a m Halloc) as Hspec.
    rewrite Hnb, Hng, Hnc in Hspec. by apply Hspec. }
  assert (valid_input a scenario_A zero_acc zero_acc (initialised a m)) as Hvalid.
  { pose proof (initialised_valid a m Halloc) as Hspec.
    rewrite Hnb, Hng, Hnc in Hspec. by apply Hspec. }
  destruct (solver_sums t0 t1 a scenario_A zero_acc zero_acc _ Hvalid)
    as (m2 & Hrun & Hsum).
  destruct (Hsum 0) as [Hre Him]; [done|].
  rewrite at1_zero_acc, Hnb, Hng, Hnc in Hre, Him.
  destruct scenario_A_sums as [Hsre Hsim].
  change (@s_zero float float_scalar) with 0%float in Hre, Him.
  rewrite Hsre in Hre. rewrite Hsim in Him.
  exists (initialised a m), m2. eexists _, _.
  split; [exact Hinit|]. split; [exact Hvalid|]. split; [exact Hrun|].
  split; [exact Hre|]. split; [exact Him|]. by repeat split.
Qed.

Lemma demo_allocated (nb ng nc : Z) (x : inputs float) (re im : list float)
    (timer : float) :
  input_ok nb ng nc x re im = true →
  allocated (demo_args nb ng nc) (demo_heap x re im timer).
Proof.
  intros Hok. pose proof (demo_valid nb ng nc x re im timer Hok) as Hv.
  destruct Hv. constructor; try (eexists; split; [done|done]).
  - simpl. by apply (bool_decide_unpack _).
  - exists [timer]. split; [done|]. simpl. lia.
Qed.

Lemma scenario_A_result_witness :
  ∃ m1 m2 re im,
    main_init 512 25 512 (demo_args 512 25 512)
      (demo_heap (scale_vcoul 7%float scenario_A) [1; 2; 3]%float [4; 5; 6]%float
         0%float) = Some m1 ∧
    valid_input (demo_args 512 25 512) scenario_A zero_acc zero_acc m1 ∧
    noflagOCC_solver demo_clock_start demo_clock_end (demo_args 512 25 512) m1
      = Some m2 ∧
    load_real m2 9 0 = Some re ∧
    load_real m2 10 0 = Some im ∧
    re = (-0.096065979384142561)%float ∧
    im = 11.431851546199047%float ∧
    (abs (re - -0.096066) <? 0.00001)%float = true ∧
    (abs (im - 11.431852) <? 0.00001)%float = true.
Proof.
  apply (scenario_A_result demo_clock_start demo_clock_end (demo_args 512 25 512)).
  - reflexivity.
  - reflexivity.
  - reflexivity.
  - apply demo_allocated. vm_compute. reflexivity.
Defined.

Lemma resolve_in_bounds_witness :
  ∃ m',
    init_index_maps 25 512 (demo_args 512 25 512)
      (demo_heap scenario_A zero_acc zero_acc 0%float) = Some m' ∧
    ∀ my_igp, 0 ≤ my_igp < 25 →
      ∃ indigp igp,
        load_int m' 1 my_igp = Some indigp ∧
        indigp = ((my_igp + 1) * 512) `div` 25 ∧
        0 ≤ indigp ≤ 512 ∧
        load_int m' 2 indigp = Some igp ∧
        igp = Z.min indigp (512 - 1) ∧
        0 ≤ igp < 512 ∧
        ∀ number_bands n1,
          0 ≤ n1 < number_bands → number_bands * 512 < size_max →
          0 ≤ flat_index n1 512 igp < number_bands * 512.
Proof.
  eexists. split.
  - apply (init_index_maps_spec 25 512 (demo_args 512 25 512)
             (in_inv_igp_index scenario_A) (in_indinv scenario_A));
      done || reflexivity.
  - apply (resolve_in_bounds 25 512 (demo_args 512 25 512)
             (demo_heap scenario_A zero_acc zero_acc 0%float)); [lia|lia|done|].
    apply (init_index_maps_spec 25 512 (demo_args 512 25 512)
             (in_inv_igp_index scenario_A) (in_indinv scenario_A));
      done || reflexivity.
Defined.

(** ** The whole program on the test sizing *)

(** The accumulator blocks after the kernel. *)
Lemma solver_blocks {T : Type} `{Scalar T} (t0 t1 : timeval) (a : solver_args)
    (x : inputs T) (re im : list T) (m : gmap loc (block T)) :
  valid_input a x re im m →
  ∃ m' re' im',
    noflagOCC_solver t0 t1 a m = Some m' ∧
    m' !! achtemp_re a = Some (BReal re') ∧
    m' !! achtemp_im a = Some (BReal im') ∧
    Z.of_nat (length re') = nend - nstart ∧
    Z.of_nat (length im') = nend - nstart ∧
    frame [achtemp_re a; achtemp_im a; elapsedKernelTimer a] m m' ∧
    ∀ iw, nstart ≤ iw < nend →
      load_real m' (achtemp_re a) iw = Some (at1 re' iw) ∧
      load_real m' (achtemp_im a) iw = Some (at1 im' iw).
Proof.
  intros Hv.
  destruct (noflagOCC_solver_refine t0 t1 a x re im m Hv)
    as (m1 & m' & t & Hloop & Ht & -> & Hrun & Hv1).
  destruct (valid_input_fresh _ _ _ _ _ Hv1 (elapsedKernelTimer a)) as [Hne1 Hne2];
    [repeat constructor|].
  pose proof (valid_achtemp_re _ _ _ _ _ Hv1) as Hre.
  pose proof (valid_achtemp_im _ _ _ _ _ Hv1) as Him.
  pose proof (valid_len_achtemp_re _ _ _ _ _ Hv1) as Hlre.
  pose proof (valid_len_achtemp_im _ _ _ _ _ Hv1) as Hlim.
  eexists _, _, _. split; [exact Hrun|].
  split; [by rewrite lookup_insert_ne|]. split; [by rewrite lookup_insert_ne|].
  split; [exact Hlre|]. split; [exact Hlim|]. split.
  - apply target_loop_frame in Hloop. intros p Hp.
    rewrite lookup_insert_ne by set_solver. apply Hloop. set_solver.
  - intros iw Hiw. unfold load_real. rewrite !lookup_insert_ne by done.
    rewrite Hre, Him. unfold nstart in *. split; apply at1_index; lia.
Qed.

(** Lines 329-330: [achtemp[iw] = CustomComplex(achtemp_re[iw],
    achtemp_im[iw])]. *)
Lemma assemble_achtemp (a : solver_args) (achtemp : loc) (re im : list float)
    (lc : list (CustomComplex float)) (m : gmap loc (block float)) :
  m !! achtemp_re a = Some (BReal re) → Z.of_nat (length re) = nend - nstart →
  m !! achtemp_im a = Some (BReal im) → Z.of_nat (length im) = nend - nstart →
  m !! achtemp = Some (BCplx lc) → Z.of_nat (length lc) = nend - nstart →
  achtemp ≠ achtemp_re a → achtemp ≠ achtemp_im a →
  ∃ m',
    for_loop nstart nend (λ iw m,
      re ← load_real m (achtemp_re a) iw;
      im ← load_real m (achtemp_im a) iw;
      store_cplx m achtemp iw (mkComplex re im)) m = Some m' ∧
    load_cplx m' achtemp 0 = Some (mkComplex (at1 re 0) (at1 im 0)) ∧
    frame [achtemp] m m'.
Proof.
  intros Hre Hlre Him Hlim Hc Hlc Hne1 Hne2. unfold nstart, nend in *.
  destruct (for_loop_total
              (λ i s, ∃ l, s = <[achtemp := BCplx l]> m ∧
                           Z.of_nat (length l) = 3 ∧
                           (0 < i → l !! 0%nat = Some (mkComplex (at1 re 0) (at1 im 0))))
              (λ iw m,
                 re ← load_real m (achtemp_re a) iw;
                 im ← load_real m (achtemp_im a) iw;
                 store_cplx m achtemp iw (mkComplex re im)) 0 3 m)
    as (m' & Hrun & l & -> & Hl & Hfirst); [done| | |].
  - intros i s Hi (l & -> & Hl & Hfirst).
    rewrite (load_real_block _ (achtemp_re a) re) by (by rewrite lookup_insert_ne).
    rewrite at1_index by lia. cbn [mbind option_bind].
    rewrite (load_real_block _ (achtemp_im a) im) by (by rewrite lookup_insert_ne).
    rewrite !at1_index by lia. cbn [mbind option_bind].
    rewrite (store_cplx_block _ achtemp l) by (apply lookup_insert_eq || lia).
    eexists. split; [done|]. eexists. split; [by rewrite insert_insert_eq|].
    split; [by rewrite length_insert|]. intros _.
    destruct (decide (i = 0)) as [->|Hi0].
    + apply list_lookup_insert_eq. lia.
    + rewrite list_lookup_insert_ne by lia. apply Hfirst. lia.
  - exists lc. split; [symmetry; by apply insert_id|]. split; [lia|lia].
  - exists (<[achtemp := BCplx l]> m). split; [done|]. split.
    + rewrite (load_cplx_block _ _ l) by apply lookup_insert_eq.
      apply index_Some. split; [done|]. apply Hfirst. lia.
    + intros p Hp. apply lookup_insert_ne. set_solver.
Qed.

(** [main] run without argument (the test sizing) on freshly allocated
    arrays: the check passes and [main] returns 0. *)
Lemma main_test_passes (atoi : string → Z) (prog : string) (t0 t1 : timeval)
    (ptrs : solver_args) (achtemp : loc) (lc : list (CustomComplex float))
    (m : gmap loc (block float)) :
  number_bands ptrs = 512 → ngpown ptrs = 25 → ncouls ptrs = 512 →
  allocated ptrs m →
  m !! achtemp = Some (BCplx lc) → Z.of_nat (length lc) = nend - nstart →
  achtemp ∉ [inv_igp_index ptrs; indinv ptrs; wx_array ptrs; wtilde_array ptrs;
             aqsmtemp ptrs; aqsntemp ptrs; I_eps_array ptrs; vcoul ptrs;
             achtemp_re ptrs; achtemp_im ptrs; elapsedKernelTimer ptrs] →
  main atoi [prog] t0 t1 ptrs achtemp m = Some (Returned 0).
Proof.
  intros Hnb Hng Hnc Halloc Hc Hlc Hfresh. unfold main.
  change (problem_sizes atoi [prog]) with (Run test_sizes). cbv beta iota.
  change (derive_ngpown test_sizes) with (Some 25). cbn [mbind option_bind].
  change (to_size_t (sz_number_bands test_sizes)) with 512.
  change (to_size_t 25) with 25.
  change (to_size_t (sz_ncouls test_sizes)) with 512.
  change (sz_number_bands test_sizes) with 512.
  change (sz_ncouls test_sizes) with 512.
  assert ({| number_bands := 512; ngpown := 25; ncouls := 512;
             inv_igp_index := inv_igp_index ptrs; indinv := indinv ptrs;
             wx_array := wx_array ptrs; wtilde_array := wtilde_array ptrs;
             aqsmtemp := aqsmtemp ptrs; aqsntemp := aqsntemp ptrs;
             I_eps_array := I_eps_array ptrs; vcoul := vcoul ptrs;
             achtemp_re := achtemp_re ptrs; achtemp_im := achtemp_im ptrs;
             elapsedKernelTimer := elapsedKernelTimer ptrs |} = ptrs) as ->.
  { rewrite <- Hnb at 1. rewrite <- Hng. rewrite <- Hnc. by destruct ptrs. }
  assert (main_init 512 25 512 ptrs m = Some (initialised ptrs m)) as ->.
  { pose proof (main_init_spec ptrs m Halloc) as Hspec.
    rewrite Hnb, Hng, Hnc in Hspec. by apply Hspec. }
  assert (valid_input ptrs scenario_A zero_acc zero_acc (initialised ptrs m))
    as Hvalid.
  { pose proof (initialised_valid ptrs m Halloc) as Hspec.
    rewrite Hnb, Hng, Hnc in Hspec. by apply Hspec. }
  cbn [mbind option_bind].
  destruct (solver_blocks t0 t1 ptrs scenario_A zero_acc zero_acc _ Hvalid)
    as (m2 & re & im & Hrun & Hre & Him & Hlre & Hlim & Hframe & Hloads).
  destruct (solver_sums t0 t1 ptrs scenario_A zero_acc zero_acc _ Hvalid)
    as (m2' & Hrun' & Hsum).
  rewrite Hrun in Hrun' |- *. injection Hrun' as <-.
  cbn [mbind option_bind].
  apply not_elem_of_cons in Hfresh as [Hf1 Hfresh].
  apply not_elem_of_cons in Hfresh as [Hf2 Hfresh].
  apply not_elem_of_cons in Hfresh as [Hf3 Hfresh].
  apply not_elem_of_cons in Hfresh as [Hf4 Hfresh].
  apply not_elem_of_cons in Hfresh as [Hf5 Hfresh].
  apply not_elem_of_cons in Hfresh as [Hf6 Hfresh].
  apply not_elem_of_cons in Hfresh as [Hf7 Hfresh].
  apply not_elem_of_cons in Hfresh as [Hf8 Hfresh].
  apply not_elem_of_cons in Hfresh as [Hf9 Hfresh].
  apply not_elem_of_cons in Hfresh as [Hf10 Hfresh].
  apply not_elem_of_cons in Hfresh as [Hf11 _].
  destruct (assemble_achtemp ptrs achtemp re im lc m2) as (m3 & Hasm & Hload & _);
    [done..| |done|done|done|].
  { rewrite Hframe.
    - unfold initialised, tables. by rewrite !lookup_insert_ne by done.
    - rewrite !not_elem_of_cons. repeat split; [done..|]. apply not_elem_of_nil. }
  rewrite Hasm. cbn [mbind option_bind]. rewrite Hload. cbn [mbind option_bind].
  destruct (Hloads 0) as [Hre0 Him0]; [done|].
  destruct (Hsum 0) as [Hre1 Him1]; [done|].
  rewrite Hre0 in Hre1. rewrite Him0 in Him1.
  injection Hre1 as ->. injection Him1 as ->.
  rewrite Hnb, Hng, Hnc. change (at1 zero_acc 0) with 0%float.
  destruct scenario_A_sums as [-> ->]. vm_compute. reflexivity.
Qed.

(** Allocating one more object keeps the others. *)
Lemma allocated_insert (a : solver_args) (m : gmap loc (block float)) (p : loc)
    (b : block float) :
  allocated a m →
  p ∉ [inv_igp_index a; indinv a; wx_array a; wtilde_array a; aqsmtemp a;
       aqsntemp a; I_eps_array a; vcoul a; achtemp_re a; achtemp_im a;
       elapsedKernelTimer a] →
  allocated a (<[p := b]> m).
Proof.
  intros [H0 (l1 & H1 & E1) (l2 & H2 & E2) (l3 & H3 & E3) (l4 & H4 & E4)
            (l5 & H5 & E5) (l6 & H6 & E6) (l7 & H7 & E7) (l8 & H8 & E8)
            (l9 & H9 & E9) (l10 & H10 & E10) (l11 & H11 & E11)] Hp.
  rewrite !not_elem_of_cons in Hp. destruct_and!.
  constructor; [exact H0|..].
  - exists l1. by rewrite lookup_insert_ne.
  - exists l2. by rewrite lookup_insert_ne.
  - exists l3. by rewrite lookup_insert_ne.
  - exists l4. by rewrite lookup_insert_ne.
  - exists l5. by rewrite lookup_insert_ne.
  - exists l6. by rewrite lookup_insert_ne.
  - exists l7. by rewrite lookup_insert_ne.
  - exists l8. by rewrite lookup_insert_ne.
  - exists l9. by rewrite lookup_insert_ne.
  - exists l10. by rewrite lookup_insert_ne.
  - exists l11. by rewrite lookup_insert_ne.
Qed.

(** An instance: the arrays may hold anything before the initialisation. *)
Lemma main_test_passes_demo (atoi : string → Z) :
  main atoi ["gpp"] demo_clock_start demo_clock_end (demo_args 512 25 512) 12
    (<[12 := BCplx (replicate 3 (mkComplex 1%float 2%float))]>
       (demo_heap (scale_vcoul 7%float scenario_A) [1; 2; 3]%float
          [4; 5; 6]%float 0%float))
  = Some (Returned 0).
Proof.
  assert (12 ∉ [inv_igp_index (demo_args 512 25 512); indinv (demo_args 512 25 512);
                wx_array (demo_args 512 25 512); wtilde_array (demo_args 512 25 512);
                aqsmtemp (demo_args 512 25 512); aqsntemp (demo_args 512 25 512);
                I_eps_array (demo_args 512 25 512); vcoul (demo_args 512 25 512);
                achtemp_re (demo_args 512 25 512); achtemp_im (demo_args 512 25 512);
                elapsedKernelTimer (demo_args 512 25 512)]) as Hfresh.
  { intros Hin. repeat (apply elem_of_cons in Hin as [Hin|Hin]; [done|]).
    by apply elem_of_nil in Hin. }
  apply (main_test_passes atoi "gpp" demo_clock_start demo_clock_end
           (demo_args 512 25 512) 12 (replicate 3 (mkComplex 1%float 2%float))).
  - reflexivity.
  - reflexivity.
  - reflexivity.
  - apply allocated_insert; [|exact Hfresh].
    apply demo_allocated. vm_compute. reflexivity.
  - apply lookup_insert_eq.
  - reflexivity.
  - exact Hfresh.
Qed.

(** ** Arguments [main] rejects *)

Lemma problem_sizes_Exit (atoi : string → Z) (argv : list string) (code : Z) :
  problem_sizes atoi argv = Exit code
  ↔ code = 0
    ∧ ((length argv ≠ 1 ∧ length argv ≠ 2 ∧ length argv ≠ 5)%nat
       ∨ ∃ prog arg, argv = [prog; arg] ∧ arg ≠ "benchmark"%string
                     ∧ arg ≠ "test"%string).
Proof.
  destruct argv as [|p [|a1 [|a2 [|a3 [|a4 [|a5 rest]]]]]]; simpl.
  - split; [intros [= <-]; split; [done|left; lia]|by intros [-> _]].
  - split; [done|]. intros [_ [Hlen|(? & ? & ? & _)]]; [lia|done].
  - repeat case_bool_decide.
    + split; [done|]. intros [_ [Hlen|(? & ? & [= _ <-] & ? & _)]]; [lia|done].
    + split; [done|]. intros [_ [Hlen|(? & ? & [= _ <-] & _ & ?)]]; [lia|done].
    + split; [|by intros [-> _]].
      intros [= <-]. split; [done|]. right. by exists p, a1.
  - split; [intros [= <-]; split; [done|left; lia]|by intros [-> _]].
  - split; [intros [= <-]; split; [done|left; lia]|by intros [-> _]].
  - split; [done|]. intros [_ [Hlen|(? & ? & ? & _)]]; [lia|done].
  - split; [intros [= <-]; split; [done|left; simpl; lia]|by intros [-> _]].
Qed.

(** X1. [main] exits with status 0 exactly on a usage error: a number of
    arguments other than 0, 1 or 4 besides the program name, or a single
    argument that is neither [test] nor [benchmark].  Nothing is computed
    then; every other run of [main] is undefined, returns 0 or exits with
    [EXIT_FAILURE]. *)
Theorem main_exit_0_iff_usage (atoi : string → Z) (argv : list string)
    (t0 t1 : timeval) (ptrs : solver_args) (achtemp : loc)
    (m : gmap loc (block float)) :
  main atoi argv t0 t1 ptrs achtemp m = Some (Exited 0)
  ↔ (length argv ≠ 1 ∧ length argv ≠ 2 ∧ length argv ≠ 5)%nat
    ∨ ∃ prog arg, argv = [prog; arg] ∧ arg ≠ "benchmark"%string
                  ∧ arg ≠ "test"%string.
Proof.
  unfold main. destruct (problem_sizes atoi argv) as [s|code] eqn:Hsizes.
  - split.
    + intros Hrun. exfalso.
      apply bind_Some in Hrun as (ng & _ & Hrun).
      apply bind_Some in Hrun as (m1 & _ & Hrun).
      apply bind_Some in Hrun as (m2 & _ & Hrun).
      apply bind_Some in Hrun as (m3 & _ & Hrun).
      apply bind_Some in Hrun as (result & _ & Hrun).
      by destruct (correctness _ _).
    + intros Husage. exfalso.
      assert (problem_sizes atoi argv = Exit 0) as Hexit
        by (by apply problem_sizes_Exit).
      congruence.
  - apply problem_sizes_Exit in Hsizes as [-> Husage]. by split.
Qed.

(** ** The division that derives [ngpown] *)

Lemma quot_int_range (a b : Z) :
  INT_MIN ≤ a ≤ INT_MAX → b ≠ 0 → ¬ (a = INT_MIN ∧ b = -1) →
  INT_MIN ≤ a `quot` b ≤ INT_MAX.
Proof.
  unfold INT_MIN, INT_MAX. intros Ha Hb Hnot.
  destruct (decide (b = -1)) as [->|Hb1].
  - pose proof (Z.quot_opp_r a 1 ltac:(done)) as Hq.
    rewrite Z.quot_1_r in Hq. change (- (1)) with (-1) in Hq. lia.
  - destruct (decide (b = 1)) as [->|Hb2]; [rewrite Z.quot_1_r; lia|].
    assert (Z.abs (a `quot` b) ≤ 2 ^ 30); [|lia].
    rewrite <- Z.quot_abs by done.
    apply Z.quot_le_upper_bound; lia.
Qed.

(** X2. Line 192 is unguarded: for sizes given on the command line (each
    an [int]), the division [ncouls / nodes_per_group] is undefined exactly
    when [nodes_per_group] is 0, or [ncouls] is [INT_MIN] and
    [nodes_per_group] is -1; [main] is then undefined. *)
Theorem main_division_undefined (atoi : string → Z) (prog a1 a2 a3 a4 : string)
    (t0 t1 : timeval) (ptrs : solver_args) (achtemp : loc)
    (m : gmap loc (block float)) :
  INT_MIN ≤ atoi a3 ≤ INT_MAX → INT_MIN ≤ atoi a4 ≤ INT_MAX →
  let s := {| sz_number_bands := atoi a1; sz_nvband := atoi a2;
              sz_ncouls := atoi a3; sz_nodes_per_group := atoi a4 |} in
  problem_sizes atoi [prog; a1; a2; a3; a4] = Run s
  ∧ (derive_ngpown s = None
     ↔ atoi a4 = 0 ∨ (atoi a3 = INT_MIN ∧ atoi a4 = -1))
  ∧ (derive_ngpown s = None →
     main atoi [prog; a1; a2; a3; a4] t0 t1 ptrs achtemp m = None).
Proof.
  intros Hnc Hnpg s. split; [done|]. split.
  - unfold derive_ngpown, int_div. cbn [sz_ncouls sz_nodes_per_group s].
    case_bool_decide as Hz; [by split; [left|]|].
    unfold int_range. case_bool_decide as Hr.
    + split; [done|]. intros [?|[Ha Hb]]; [done|]. exfalso.
      rewrite Ha, Hb in Hr. vm_compute in Hr. destruct Hr as [_ Hr]. by apply Hr.
    + split; [|done]. intros _. right.
      destruct (decide (atoi a3 = INT_MIN ∧ atoi a4 = -1)) as [?|Hnot]; [done|].
      exfalso. apply Hr. by apply quot_int_range.
  - intros Hnone. unfold main.
    change (problem_sizes atoi [prog; a1; a2; a3; a4]) with (Run s).
    cbv beta iota. by rewrite Hnone.
Qed.

Lemma main_division_undefined_witness :
  let atoi := λ _ : string, 0 in
  let s := {| sz_number_bands := 0; sz_nvband := 0; sz_ncouls := 0;
              sz_nodes_per_group := 0 |} in
  problem_sizes atoi ["gpp"; "0"; "0"; "0"; "0"]%string = Run s
  ∧ (derive_ngpown s = None ↔ 0 = 0 ∨ (0 = INT_MIN ∧ 0 = -1))
  ∧ (derive_ngpown s = None →
     main atoi ["gpp"; "0"; "0"; "0"; "0"]%string demo_clock_start
       demo_clock_end (demo_args 1 1 2) 12 ∅ = None).
Proof.
  apply (main_division_undefined (λ _, 0) "gpp" "0" "0" "0" "0").
  - vm_compute. split; discriminate.
  - vm_compute. split; discriminate.
Defined.

(** ** Loops that fail *)

(** A loop is undefined as soon as one of its iterations is, on every
    state the earlier iterations can leave. *)
Lemma for_each_fails {St : Type} (P : St → Prop) (body : Z → St → option St)
    (idx : list Z) (i : Z) (s : St) :
  i ∈ idx → P s →
  (∀ j s s', j ∈ idx → P s → body j s = Some s' → P s') →
  (∀ s, P s → body i s = None) →
  for_each body idx s = None.
Proof.
  intros Hi HP Hkeep Hfail. revert s HP.
  induction idx as [|j idx IH]; intros s HP; [by apply elem_of_nil in Hi|].
  simpl. destruct (body j s) as [s'|] eqn:Hj; [|done]. simpl.
  apply elem_of_cons in Hi as [->|Hi].
  - by rewrite Hfail in Hj.
  - apply IH; [done| |].
    + intros k s1 s2 Hk. apply Hkeep. by right.
    + apply (Hkeep j s); [by left|done..].
Qed.

Lemma for_loop_fails {St : Type} (P : St → Prop) (body : Z → St → option St)
    (lo hi i : Z) (s : St) :
  lo ≤ i < hi → P s →
  (∀ j s s', lo ≤ j < hi → P s → body j s = Some s' → P s') →
  (∀ s, P s → body i s = None) →
  for_loop lo hi body s = None.
Proof.
  intros Hi HP Hkeep Hfail. unfold for_loop.
  apply (for_each_fails P body _ i); [|done| |done].
  - apply elem_of_seqZ. lia.
  - intros j s1 s2 Hj. apply Hkeep. apply elem_of_seqZ in Hj. lia.
Qed.

(** ** Sizes beyond the range of [int] *)





(** ** The kernel on inputs that are not valid *)

Section Unchecked.
Context {T : Type} `{Scalar T}.
Local Abbreviation heap := (gmap loc (block T)).

Lemma igp_body_frame (a : solver_args) (n1 my_igp : Z) (m m' : heap) :
  igp_body a n1 my_igp m = Some m' → frame [achtemp_re a; achtemp_im a] m m'.
Proof.
  unfold igp_body. intros Hrun.
  do 2 (apply bind_Some in Hrun as (? & _ & Hrun)).
  revert m m' Hrun. apply for_loop_frame. intros ig m3 m3'.
  apply for_loop_frame. intros iw m4 m4'. apply iw_body_frame.
Qed.

(** X4. The kernel checks no index: if for some group point [my_igp] of
    [0, ngpown) the read [inv_igp_index[my_igp]] or the read
    [indinv[inv_igp_index[my_igp]]] falls outside its array, and there is
    at least one band, the call is undefined (an out-of-bounds read), and
    nothing is reported. *)
Theorem noflagOCC_solver_unchecked_index (t0 t1 : timeval) (a : solver_args)
    (m : heap) (linv lind : list Z) (my_igp : Z) :
  1 ≤ number_bands a → 0 ≤ my_igp < ngpown a →
  m !! inv_igp_index a = Some (BInt linv) →
  m !! indinv a = Some (BInt lind) →
  inv_igp_index a ∉ [achtemp_re a; achtemp_im a] →
  indinv a ∉ [achtemp_re a; achtemp_im a] →
  (indigp ← index linv my_igp; index lind indigp) = None →
  noflagOCC_solver t0 t1 a m = None.
Proof.
  intros Hnb Higp Hinv Hind Hf1 Hf2 Hbad.
  unfold noflagOCC_solver, target_loop.
  set (P := λ s : heap, s !! inv_igp_index a = Some (BInt linv)
                        ∧ s !! indinv a = Some (BInt lind)).
  assert (∀ (s s' : heap), frame [achtemp_re a; achtemp_im a] s s' → P s → P s')
    as Hkeep.
  { intros s s' Hframe [H1 H2]. split; by rewrite Hframe. }
  rewrite (for_loop_fails P _ 0 (number_bands a) 0); [done|lia|done| |].
  - intros n1 s s' _ HP Hrun. apply (Hkeep s); [|done].
    clear HP. revert s s' Hrun. apply for_loop_frame. intros j s s'.
    apply igp_body_frame.
  - intros s HP.
    apply (for_loop_fails P _ 0 (ngpown a) my_igp); [done|done| |].
    + intros j s1 s2 _ HP1 Hrun. apply (Hkeep s1); [|done].
      by apply igp_body_frame in Hrun.
    + intros s1 [H1 H2]. unfold igp_body, load_int. rewrite H1.
      destruct (index linv my_igp) as [k|]; [|done]. cbn [mbind option_bind] in *.
      rewrite H2. by rewrite Hbad.
Qed.

Lemma for_each_skip_in {St : Type} (body : Z → St → option St) (idx : list Z)
    (s : St) :
  (∀ i, i ∈ idx → body i s = Some s) → for_each body idx s = Some s.
Proof.
  intros Hbody. induction idx as [|i idx IH]; simpl; [done|].
  rewrite Hbody by left. cbn [mbind option_bind].
  apply IH. intros j Hj. apply Hbody. by right.
Qed.

(** X5. With [ncouls = 0] the kernel still reads [inv_igp_index[my_igp]]
    and [indinv[...]] for every band and group point, but adds nothing:
    when these reads are within bounds it returns and leaves [achtemp_re]
    and [achtemp_im] as they were. *)
Theorem noflagOCC_solver_no_plane_wave (t0 t1 : timeval) (a : solver_args)
    (m : heap) (t : list T) :
  ncouls a = 0 →
  (∀ my_igp, 0 ≤ my_igp < ngpown a →
     ∃ indigp igp, load_int m (inv_igp_index a) my_igp = Some indigp
                   ∧ load_int m (indinv a) indigp = Some igp) →
  m !! elapsedKernelTimer a = Some (BReal t) → (0 < length t)%nat →
  elapsedKernelTimer a ∉ [achtemp_re a; achtemp_im a] →
  ∃ m', noflagOCC_solver t0 t1 a m = Some m' ∧
        m' !! achtemp_re a = m !! achtemp_re a ∧
        m' !! achtemp_im a = m !! achtemp_im a.
Proof.
  intros Hnc Hreads Ht Hlen Hfresh. unfold noflagOCC_solver.
  assert (target_loop a m = Some m) as ->.
  { unfold target_loop. apply for_each_skip_in. intros n1 _.
    apply for_each_skip_in. intros my_igp Hin. apply elem_of_seqZ in Hin.
    destruct (Hreads my_igp) as (indigp & igp & Hk & Higp); [lia|].
    unfold igp_body. rewrite Hk. cbn [mbind option_bind].
    rewrite Higp. cbn [mbind option_bind].
    apply for_loop_empty. lia. }
  cbn [mbind option_bind].
  rewrite (store_real_block m _ t) by (done || lia).
  eexists. split; [done|].
  split; apply lookup_insert_ne; intros Heq; apply Hfresh; rewrite Heq;
    set_solver.
Qed.
End Unchecked.

Lemma noflagOCC_solver_unchecked_index_witness :
  noflagOCC_solver demo_clock_start demo_clock_end (demo_args 1 1 2)
    (<[1 := BInt [3]]> (demo_heap (demo_inputs 4%float) zero_acc zero_acc 0%float))
  = None.
Proof.
  apply (noflagOCC_solver_unchecked_index demo_clock_start demo_clock_end
           (demo_args 1 1 2) _ [3] [0; 1; 1] 0).
  - simpl. lia.
  - simpl. lia.
  - reflexivity.
  - reflexivity.
  - intros Hin. repeat (apply elem_of_cons in Hin as [Hin|Hin]; [done|]).
    by apply elem_of_nil in Hin.
  - intros Hin. repeat (apply elem_of_cons in Hin as [Hin|Hin]; [done|]).
    by apply elem_of_nil in Hin.
  - reflexivity.
Defined.

Lemma noflagOCC_solver_no_plane_wave_witness :
  ∃ m', noflagOCC_solver demo_clock_start demo_clock_end (demo_args 2 1 0)
          (demo_heap (demo_inputs 4%float) [1; 2; 3]%float [4; 5; 6]%float 0%float)
        = Some m' ∧
        m' !! 9
          = demo_heap (demo_inputs 4%float) [1; 2; 3]%float [4; 5; 6]%float
              0%float !! 9 ∧
        m' !! 10
          = demo_heap (demo_inputs 4%float) [1; 2; 3]%float [4; 5; 6]%float
              0%float !! 10.
Proof.
  apply (noflagOCC_solver_no_plane_wave demo_clock_start demo_clock_end
           (demo_args 2 1 0)
           (demo_heap (demo_inputs 4%float) [1; 2; 3]%float [4; 5; 6]%float
              0%float) [0%float]).
  - reflexivity.
  - intros my_igp Hmy. assert (my_igp = 0) as -> by (simpl in Hmy; lia).
    by exists 1, 1.
  - reflexivity.
  - simpl. lia.
  - intros Hin. repeat (apply elem_of_cons in Hin as [Hin|Hin]; [done|]).
    by apply elem_of_nil in Hin.
Defined.

(** ** [main] on sizes within the range of [int] *)

(** What [main] returns: the check applied to the sums over the arrays
    its initialisation builds. *)
Lemma main_result (atoi : string → Z) (argv : list string) (s : sizes) (ng : Z)
    (t0 t1 : timeval) (ptrs : solver_args) (achtemp : loc)
    (lc : list (CustomComplex float)) (m : gmap loc (block float)) :
  problem_sizes atoi argv = Run s → derive_ngpown s = Some ng →
  number_bands ptrs = sz_number_bands s → ngpown ptrs = ng →
  ncouls ptrs = sz_ncouls s →
  0 ≤ sz_number_bands s → 1 ≤ ng → 1 ≤ sz_ncouls s →
  sz_number_bands s * sz_ncouls s ≤ INT_MAX → ng * sz_ncouls s ≤ INT_MAX →
  allocated ptrs m →
  m !! achtemp = Some (BCplx lc) → Z.of_nat (length lc) = nend - nstart →
  achtemp ∉ [inv_igp_index ptrs; indinv ptrs; wx_array ptrs; wtilde_array ptrs;
             aqsmtemp ptrs; aqsntemp ptrs; I_eps_array ptrs; vcoul ptrs;
             achtemp_re ptrs; achtemp_im ptrs; elapsedKernelTimer ptrs] →
  main atoi argv t0 t1 ptrs achtemp m
  = Some (match correctness (checked_problem argv)
                  (mkComplex
                     (achtemp_re_sum
                        (scenario_inputs (sz_number_bands s) ng (sz_ncouls s))
                        (sz_number_bands s) ng (sz_ncouls s) 0 0%float)
                     (achtemp_im_sum
                        (scenario_inputs (sz_number_bands s) ng (sz_ncouls s))
                        (sz_number_bands s) ng (sz_ncouls s) 0 0%float)) with
          | Success => Returned 0
          | Failure => Exited EXIT_FAILURE
          end).
Proof.
  intros Hsizes Hder Hnb Hng Hnc Hnb0 Hng1 Hnc1 Hmax1 Hmax2 Halloc Hc Hlc Hfresh.
  unfold main. rewrite Hsizes, Hder. cbn [mbind option_bind]. cbv zeta.
  assert (INT_MAX < size_max) as Hsm by done.
  assert (to_size_t (sz_number_bands s) = number_bands ptrs
          ∧ to_size_t ng = ngpown ptrs
          ∧ to_size_t (sz_ncouls s) = ncouls ptrs) as (-> & -> & ->).
  { unfold to_size_t. rewrite !Z.mod_small; [by rewrite Hnb, Hng, Hnc|nia..]. }
  replace (Build_solver_args _ _ _ _ _ _ _ _ _ _ _ _ _ _) with ptrs
    by (by destruct ptrs).
  rewrite <- Hnb, <- Hnc in *. rewrite <- Hng in *.
  rewrite (main_init_spec ptrs m Halloc) by done.
  pose proof (initialised_valid ptrs m Halloc Hnb0 Hng1 Hnc1 Hmax1 Hmax2) as Hvalid.
  cbn [mbind option_bind].
  destruct (solver_blocks t0 t1 ptrs _ zero_acc zero_acc _ Hvalid)
    as (m2 & re & im & Hrun & Hre & Him & Hlre & Hlim & Hframe & Hloads).
  destruct (solver_sums t0 t1 ptrs _ zero_acc zero_acc _ Hvalid)
    as (m2' & Hrun' & Hsum).
  rewrite Hrun in Hrun' |- *. injection Hrun' as <-.
  cbn [mbind option_bind].
  rewrite !not_elem_of_cons in Hfresh. destruct_and!.
  destruct (assemble_achtemp ptrs achtemp re im lc m2) as (m3 & Hasm & Hload & _);
    [done..| |done|done|done|].
  { rewrite Hframe.
    - unfold initialised, tables. by rewrite !lookup_insert_ne by done.
    - rewrite !not_elem_of_cons. repeat split; [done..|]. apply not_elem_of_nil. }
  rewrite Hasm. cbn [mbind option_bind]. rewrite Hload. cbn [mbind option_bind].
  destruct (Hloads 0) as [Hre0 Him0]; [done|].
  destruct (Hsum 0) as [Hre1 Him1]; [done|].
  rewrite Hre0 in Hre1. rewrite Him0 in Him1.
  injection Hre1 as ->. injection Him1 as ->.
  rewrite !at1_zero_acc. by destruct (correctness _ _).
Qed.

Lemma checked_problem_cases (argv : list string) :
  checked_problem argv = 1
  ∨ checked_problem argv = 0 ∧ ∃ prog, argv = [prog; "benchmark"%string].
Proof.
  destruct argv as [|p [|a1 [|a2 rest]]]; simpl; try by left.
  case_bool_decide as Ha; [|by left]. right. split; [done|]. exists p. by rewrite Ha.
Qed.

(** X6. For every sizing with [number_bands >= 0], [ngpown >= 1],
    [ncouls >= 1] and [number_bands * ncouls], [ngpown * ncouls] within
    the range of [int], [main] is defined: the initialisation, the kernel
    and the assembly of [achtemp] stay within the allocated arrays, no
    [int] overflows, and [main] ends by returning 0 or by
    [exit(EXIT_FAILURE)]. *)
Theorem main_defined (atoi : string → Z) (argv : list string) (s : sizes)
    (ng : Z) (t0 t1 : timeval) (ptrs : solver_args) (achtemp : loc)
    (lc : list (CustomComplex float)) (m : gmap loc (block float)) :
  problem_sizes atoi argv = Run s → derive_ngpown s = Some ng →
  number_bands ptrs = sz_number_bands s → ngpown ptrs = ng →
  ncouls ptrs = sz_ncouls s →
  0 ≤ sz_number_bands s → 1 ≤ ng → 1 ≤ sz_ncouls s →
  sz_number_bands s * sz_ncouls s ≤ INT_MAX → ng * sz_ncouls s ≤ INT_MAX →
  allocated ptrs m →
  m !! achtemp = Some (BCplx lc) → Z.of_nat (length lc) = nend - nstart →
  achtemp ∉ [inv_igp_index ptrs; indinv ptrs; wx_array ptrs; wtilde_array ptrs;
             aqsmtemp ptrs; aqsntemp ptrs; I_eps_array ptrs; vcoul ptrs;
             achtemp_re ptrs; achtemp_im ptrs; elapsedKernelTimer ptrs] →
  main atoi argv t0 t1 ptrs achtemp m = Some (Returned 0)
  ∨ main atoi argv t0 t1 ptrs achtemp m = Some (Exited EXIT_FAILURE).
Proof.
  intros. erewrite main_result by done.
  destruct (correctness _ _); [by left|by right].
Qed.

(** X7. [main] reads no array cell before it has written it: its outcome
    is the same whatever the allocated arrays hold at the start. *)
Theorem main_ignores_initial_contents (atoi : string → Z) (argv : list string)
    (s : sizes) (ng : Z) (t0 t1 t0' t1' : timeval) (ptrs : solver_args)
    (achtemp : loc) (lc lc' : list (CustomComplex float))
    (m m' : gmap loc (block float)) :
  problem_sizes atoi argv = Run s → derive_ngpown s = Some ng →
  number_bands ptrs = sz_number_bands s → ngpown ptrs = ng →
  ncouls ptrs = sz_ncouls s →
  0 ≤ sz_number_bands s → 1 ≤ ng → 1 ≤ sz_ncouls s →
  sz_number_bands s * sz_ncouls s ≤ INT_MAX → ng * sz_ncouls s ≤ INT_MAX →
  achtemp ∉ [inv_igp_index ptrs; indinv ptrs; wx_array ptrs; wtilde_array ptrs;
             aqsmtemp ptrs; aqsntemp ptrs; I_eps_array ptrs; vcoul ptrs;
             achtemp_re ptrs; achtemp_im ptrs; elapsedKernelTimer ptrs] →
  allocated ptrs m →
  m !! achtemp = Some (BCplx lc) → Z.of_nat (length lc) = nend - nstart →
  allocated ptrs m' →
  m' !! achtemp = Some (BCplx lc') → Z.of_nat (length lc') = nend - nstart →
  main atoi argv t0 t1 ptrs achtemp m = main atoi argv t0' t1' ptrs achtemp m'.
Proof.
  intros. erewrite !main_result by done. done.
Qed.

(** X8. Run with the test sizing (no argument, the argument [test], or
    the four sizes 512, any, 512, 20), [main] passes its own check and
    returns 0, whatever the allocated arrays hold at the start. *)
Theorem main_test_sizing_returns_0 (atoi : string → Z) (argv : list string)
    (s : sizes) (t0 t1 : timeval) (ptrs : solver_args) (achtemp : loc)
    (lc : list (CustomComplex float)) (m : gmap loc (block float)) :
  problem_sizes atoi argv = Run s →
  sz_number_bands s = 512 → sz_ncouls s = 512 → sz_nodes_per_group s = 20 →
  number_bands ptrs = 512 → ngpown ptrs = 25 → ncouls ptrs = 512 →
  allocated ptrs m →
  m !! achtemp = Some (BCplx lc) → Z.of_nat (length lc) = nend - nstart →
  achtemp ∉ [inv_igp_index ptrs; indinv ptrs; wx_array ptrs; wtilde_array ptrs;
             aqsmtemp ptrs; aqsntemp ptrs; I_eps_array ptrs; vcoul ptrs;
             achtemp_re ptrs; achtemp_im ptrs; elapsedKernelTimer ptrs] →
  main atoi argv t0 t1 ptrs achtemp m = Some (Returned 0).
Proof.
  intros Hsizes Hnb Hnc Hnpg Hpnb Hpng Hpnc Halloc Hc Hlc Hfresh.
  assert (derive_ngpown s = Some 25) as Hder.
  { unfold derive_ngpown. by rewrite Hnc, Hnpg. }
  rewrite (main_result atoi argv s 25 t0 t1 ptrs achtemp lc m); try done.
  all: rewrite ?Hnb, ?Hnc; try done.
  fold scenario_A.
  destruct scenario_A_sums as [-> ->].
  destruct (checked_problem_cases argv) as [->|[_ [prog ->]]].
  - vm_compute. reflexivity.
  - exfalso. simpl in Hsizes. injection Hsizes as <-. done.
Qed.

(** Sizes 2, 2, 3, 1 given on the command line, hence [ngpown = 3]. *)
Lemma demo_fresh (nb ng nc : Z) :
  12 ∉ [inv_igp_index (demo_args nb ng nc); indinv (demo_args nb ng nc);
        wx_array (demo_args nb ng nc); wtilde_array (demo_args nb ng nc);
        aqsmtemp (demo_args nb ng nc); aqsntemp (demo_args nb ng nc);
        I_eps_array (demo_args nb ng nc); vcoul (demo_args nb ng nc);
        achtemp_re (demo_args nb ng nc); achtemp_im (demo_args nb ng nc);
        elapsedKernelTimer (demo_args nb ng nc)].
Proof.
  intros Hin. repeat (apply elem_of_cons in Hin as [Hin|Hin]; [done|]).
  by apply elem_of_nil in Hin.
Qed.

Lemma main_defined_witness :
  let atoi := λ arg : string,
    if bool_decide (arg = "1"%string) then 1
    else if bool_decide (arg = "2"%string) then 2 else 3 in
  let m := <[12 := BCplx (replicate 3 (mkComplex 1%float 2%float))]>
             (demo_heap (scale_vcoul 7%float (scenario_inputs 2 3 3))
                [1; 2; 3]%float [4; 5; 6]%float 0%float) in
  main atoi ["gpp"; "2"; "2"; "3"; "1"]%string demo_clock_start demo_clock_end
    (demo_args 2 3 3) 12 m = Some (Returned 0)
  ∨ main atoi ["gpp"; "2"; "2"; "3"; "1"]%string demo_clock_start demo_clock_end
      (demo_args 2 3 3) 12 m = Some (Exited EXIT_FAILURE).
Proof.
  apply (main_defined _ _
           {| sz_number_bands := 2; sz_nvband := 2; sz_ncouls := 3;
              sz_nodes_per_group := 1 |} 3 _ _ _ _
           (replicate 3 (mkComplex 1%float 2%float))).
  - reflexivity.
  - reflexivity.
  - reflexivity.
  - reflexivity.
  - reflexivity.
  - simpl. lia.
  - lia.
  - simpl. lia.
  - vm_compute. discriminate.
  - vm_compute. discriminate.
  - apply allocated_insert; [|apply demo_fresh].
    apply demo_allocated. vm_compute. reflexivity.
  - apply lookup_insert_eq.
  - reflexivity.
  - apply demo_fresh.
Defined.

Lemma main_ignores_initial_contents_witness :
  let atoi := λ arg : string,
    if bool_decide (arg = "1"%string) then 1
    else if bool_decide (arg = "2"%string) then 2 else 3 in
  main atoi ["gpp"; "2"; "2"; "3"; "1"]%string demo_clock_start demo_clock_end
    (demo_args 2 3 3) 12
    (<[12 := BCplx (replicate 3 (mkComplex 1%float 2%float))]>
       (demo_heap (scale_vcoul 7%float (scenario_inputs 2 3 3))
          [1; 2; 3]%float [4; 5; 6]%float 0%float))
  = main atoi ["gpp"; "2"; "2"; "3"; "1"]%string demo_clock_end demo_clock_start
      (demo_args 2 3 3) 12
      (<[12 := BCplx (replicate 3 (mkComplex 0%float 0%float))]>
         (demo_heap (scenario_inputs 2 3 3) zero_acc zero_acc 9%float)).
Proof.
  apply (main_ignores_initial_contents _ _
           {| sz_number_bands := 2; sz_nvband := 2; sz_ncouls := 3;
              sz_nodes_per_group := 1 |} 3 _ _ _ _ _ _
           (replicate 3 (mkComplex 1%float 2%float))
           (replicate 3 (mkComplex 0%float 0%float))).
  - reflexivity.
  - reflexivity.
  - reflexivity.
  - reflexivity.
  - reflexivity.
  - simpl. lia.
  - lia.
  - simpl. lia.
  - vm_compute. discriminate.
  - vm_compute. discriminate.
  - apply demo_fresh.
  - apply allocated_insert; [|apply demo_fresh].
    apply demo_allocated. vm_compute. reflexivity.
  - apply lookup_insert_eq.
  - reflexivity.
  - apply allocated_insert; [|apply demo_fresh].
    apply demo_allocated. vm_compute. reflexivity.
  - apply lookup_insert_eq.
  - reflexivity.
Defined.

Lemma main_test_sizing_returns_0_witness :
  main (λ _, 0) ["gpp"; "test"]%string demo_clock_start demo_clock_end
    (demo_args 512 25 512) 12
    (<[12 := BCplx (replicate 3 (mkComplex 1%float 2%float))]>
       (demo_heap (scale_vcoul 7%float scenario_A) [1; 2; 3]%float
          [4; 5; 6]%float 0%float))
  = Some (Returned 0).
Proof.
  apply (main_test_sizing_returns_0 _ _ test_sizes _ _ _ _
           (replicate 3 (mkComplex 1%float 2%float))).
  - reflexivity.
  - reflexivity.
  - reflexivity.
  - reflexivity.
  - reflexivity.
  - reflexivity.
  - reflexivity.
  - apply allocated_insert; [|apply demo_fresh].
    apply demo_allocated. vm_compute. reflexivity.
  - apply lookup_insert_eq.
  - reflexivity.
  - apply demo_fresh.
Defined.

(** ** The repeated initialisation and the sentinel *)

Lemma tables_tables (ngpown ncouls : Z) (a : solver_args)
    (m : gmap loc (block float)) :
  tables ngpown ncouls a (tables ngpown ncouls a m) = tables ngpown ncouls a m.
Proof.
  apply map_eq. intros p. unfold tables.
  rewrite !lookup_insert. repeat case_decide; done.
Qed.

(** X9. Lines 300-321 repeat lines 277-298 word for word, and the second
    run changes nothing: on allocated arrays the block returns, and run
    again on the heap it left it returns that same heap. *)
Theorem init_tables_idempotent (a : solver_args) (m : gmap loc (block float)) :
  allocated a m →
  1 ≤ ngpown a → 1 ≤ ncouls a → ngpown a * ncouls a ≤ INT_MAX →
  ∃ m1, init_tables (ngpown a) (ncouls a) a m = Some m1
        ∧ init_tables (ngpown a) (ncouls a) a m1 = Some m1.
Proof.
  intros [Hnd (linv & Hinv & Hlinv) (lind & Hind & Hlind) (lwx & Hwx & Hlwx)
            _ _ _ _ (lv & Hv & Hlv) (lre & Hre & Hlre) (lim & Him & Hlim) _]
         Hng Hnc Hmax.
  assert (NoDup [vcoul a; inv_igp_index a; indinv a; achtemp_re a; achtemp_im a;
                 wx_array a]) as Hnd6.
  { pose proof Hnd as Hnd'. split_distinct Hnd'.
    repeat (apply NoDup_cons; split;
            [rewrite ?not_elem_of_cons; repeat split; done || apply not_elem_of_nil|]).
    apply NoDup_nil_2. }
  split_distinct Hnd.
  exists (tables (ngpown a) (ncouls a) a m). split.
  - by apply (init_tables_spec _ _ a lv lre lim lwx linv lind).
  - rewrite <- (tables_tables (ngpown a) (ncouls a) a m) at 2.
    apply (init_tables_spec (ngpown a) (ncouls a) a
             ((λ i, float_of_int i * 0.025)%float <$> seqZ 0 (ncouls a))
             zero_acc zero_acc (wx_of <$> seqZ nstart (nend - nstart))
             ((λ ig, ((ig + 1) * ncouls a) `div` ngpown a) <$> seqZ 0 (ngpown a))
             (seqZ 0 (ncouls a) ++ [ncouls a - 1])); try done.
    all: unfold tables; try (by heap_lookup).
    + rewrite length_fmap, length_seqZ. arith.
    + rewrite length_fmap, length_seqZ. arith.
    + rewrite length_app, length_seqZ. simpl. arith.
Qed.

Lemma init_tables_idempotent_witness :
  ∃ m1, init_tables 3 3 (demo_args 2 3 3)
          (demo_heap (scale_vcoul 7%float (scenario_inputs 2 3 3))
             [1; 2; 3]%float [4; 5; 6]%float 0%float) = Some m1
        ∧ init_tables 3 3 (demo_args 2 3 3) m1 = Some m1.
Proof.
  apply (init_tables_idempotent (demo_args 2 3 3)).
  - apply demo_allocated. vm_compute. reflexivity.
  - simpl. lia.
  - simpl. lia.
  - vm_compute. discriminate.
Defined.

(** X10. The extra slot of [indinv] is read on every run: after the
    caller's loops the last group point has
    [inv_igp_index[ngpown - 1] = ncouls], the index one past the [ncouls]
    plane waves, where the sentinel [ncouls - 1] is stored; every other
    group point has an index below [ncouls]. *)
Theorem sentinel_slot_is_read {T : Type} (ngpown ncouls : Z) (a : solver_args)
    (l1 l2 : list Z) (m : gmap loc (block T)) :
  inv_igp_index a ≠ indinv a →
  1 ≤ ngpown → 1 ≤ ncouls → ngpown * ncouls ≤ INT_MAX →
  m !! inv_igp_index a = Some (BInt l1) → Z.of_nat (length l1) = ngpown →
  m !! indinv a = Some (BInt l2) → Z.of_nat (length l2) = ncouls + 1 →
  ∃ m', init_index_maps ngpown ncouls a m = Some m'
        ∧ load_int m' (inv_igp_index a) (ngpown - 1) = Some ncouls
        ∧ load_int m' (indinv a) ncouls = Some (ncouls - 1)
        ∧ ∀ my_igp, 0 ≤ my_igp < ngpown - 1 →
            ∃ indigp, load_int m' (inv_igp_index a) my_igp = Some indigp
                      ∧ 0 ≤ indigp < ncouls
                      ∧ load_int m' (indinv a) indigp = Some indigp.
Proof.
  intros Hne Hng Hnc Hmax H1 Hl1 H2 Hl2.
  eexists. split; [by apply (init_index_maps_spec _ _ a l1 l2)|].
  assert (∀ i, 0 ≤ i < ngpown →
            index ((λ ig, ((ig + 1) * ncouls) `div` ngpown) <$> seqZ 0 ngpown) i
            = Some (((i + 1) * ncouls) `div` ngpown)) as Hinv.
  { intros i Hi. apply index_Some. split; [lia|].
    rewrite list_lookup_fmap, (lookup_seqZ_lt _ _ (Z.to_nat i)) by lia.
    simpl. do 3 f_equal. lia. }
  assert (∀ i, 0 ≤ i < ncouls → index (seqZ 0 ncouls ++ [ncouls - 1]) i = Some i)
    as Hind.
  { intros i Hi. apply index_Some. split; [lia|].
    rewrite lookup_app_l by (rewrite length_seqZ; lia).
    rewrite (lookup_seqZ_lt _ _ (Z.to_nat i)) by lia. f_equal. lia. }
  set (linv := (λ ig, ((ig + 1) * ncouls) `div` ngpown) <$> seqZ 0 ngpown) in *.
  set (lind := seqZ 0 ncouls ++ [ncouls - 1]) in *.
  assert (∀ i, load_int (<[indinv a := BInt lind]> (<[inv_igp_index a := BInt linv]> m))
                 (inv_igp_index a) i = index linv i) as Hl_inv.
  { intros i. apply load_int_block.
    rewrite lookup_insert_ne by done. apply lookup_insert_eq. }
  assert (∀ i, load_int (<[indinv a := BInt lind]> (<[inv_igp_index a := BInt linv]> m))
                 (indinv a) i = index lind i) as Hl_ind.
  { intros i. apply load_int_block. apply lookup_insert_eq. }
  rewrite Hl_inv, Hl_ind. split; [|split].
  - rewrite Hinv by lia.
    f_equal. replace (ngpown - 1 + 1) with ngpown by lia.
    rewrite Z.mul_comm. apply Z.div_mul. lia.
  - apply index_Some. split; [lia|]. unfold lind.
    rewrite lookup_app_r by (rewrite length_seqZ; lia).
    rewrite length_seqZ.
    by replace (Z.to_nat ncouls - Z.to_nat ncouls)%nat with 0%nat by lia.
  - intros my_igp Hmy. eexists. rewrite Hl_inv, Hl_ind. split; [|split].
    + apply Hinv. lia.
    + split; [apply Z.div_pos; nia|]. apply Z.div_lt_upper_bound; nia.
    + apply Hind.
      split; [apply Z.div_pos; nia|]. apply Z.div_lt_upper_bound; nia.
Qed.

Lemma sentinel_slot_is_read_witness :
  ∃ m', init_index_maps 25 512 (demo_args 512 25 512)
          (demo_heap scenario_A zero_acc zero_acc 0%float) = Some m'
        ∧ load_int m' 1 (25 - 1) = Some 512
        ∧ load_int m' 2 512 = Some (512 - 1)
        ∧ ∀ my_igp, 0 ≤ my_igp < 25 - 1 →
            ∃ indigp, load_int m' 1 my_igp = Some indigp
                      ∧ 0 ≤ indigp < 512
                      ∧ load_int m' 2 indigp = Some indigp.
Proof.
  apply (sentinel_slot_is_read 25 512 (demo_args 512 25 512)
           (in_inv_igp_index scenario_A) (in_indinv scenario_A)).
  - done.
  - lia.
  - lia.
  - vm_compute. discriminate.
  - reflexivity.
  - reflexivity.
  - reflexivity.
  - reflexivity.
Defined.

(** ** NaN in the kernel *)

Lemma add_nan (x y : float) :
  is_nan x = true ∨ is_nan y = true → is_nan (x + y) = true.
Proof.
  rewrite !is_nan_spec, add_spec. intros [->| ->]; [done|].
  by destruct (Prim2SF x).
Qed.

Lemma sub_nan (x y : float) :
  is_nan x = true ∨ is_nan y = true → is_nan (x - y) = true.
Proof.
  rewrite !is_nan_spec, sub_spec. intros [->| ->]; [done|].
  by destruct (Prim2SF x).
Qed.

Lemma mul_nan (x y : float) :
  is_nan x = true ∨ is_nan y = true → is_nan (x * y) = true.
Proof.
  rewrite !is_nan_spec, mul_spec. intros [->| ->]; [done|].
  by destruct (Prim2SF x).
Qed.

Lemma cmul_nan (a b : CustomComplex float) : cnan a → cnan (cmul a b).
Proof.
  intros [Hr Hi]. split; simpl.
  - apply sub_nan. left. apply mul_nan. by left.
  - apply add_nan. left. apply mul_nan. by left.
Qed.

Lemma cscale_nan (a : CustomComplex float) (k : float) : cnan a → cnan (cscale a k).
Proof. intros [Hr Hi]. split; simpl; apply mul_nan; by left. Qed.

(** A NaN is never lost by the accumulation. *)
Lemma running_sum_nan (init : float) (terms : list float) :
  is_nan init = true ∨ (∃ t, t ∈ terms ∧ is_nan t = true) →
  is_nan (running_sum init terms) = true.
Proof.
  unfold running_sum. revert init.
  induction terms as [|t terms IH]; intros init [Hinit|(t' & Hin & Ht)]; simpl.
  - done.
  - by apply elem_of_nil in Hin.
  - apply IH. left. apply add_nan. by left.
  - apply elem_of_cons in Hin as [->|Hin].
    + apply IH. left. apply add_nan. by right.
    + apply IH. right. by exists t'.
Qed.

Lemma is_finite_spec (x : float) : is_finite x = true → sf_finite (Prim2SF x).
Proof.
  unfold is_finite, is_infinity. rewrite negb_true_iff, orb_false_iff.
  intros [Hnan Hinf]. rewrite FloatAxioms.eqb_spec, abs_spec in Hinf.
  destruct (Prim2SF x) as [s|s| |s m e] eqn:Hx; simpl; try done.
  apply is_nan_spec in Hx. congruence.
Qed.

Lemma eqb_zero_spec (x : float) : (x =? 0)%float = true → sf_zero (Prim2SF x).
Proof.
  rewrite FloatAxioms.eqb_spec. change (Prim2SF 0) with (S754_zero false).
  by destruct (Prim2SF x) as [s|[]| |[] m e].
Qed.

Lemma Prim2SF_eq (x : float) (v : spec_float) (y : float) :
  Prim2SF x = v → Prim2SF y = v → x = y.
Proof. intros Hx Hy. apply Prim2SF_inj. congruence. Qed.

(** [x - x] is [+0] for a finite [x], and so is [0 - z] for a zero [z]. *)
Lemma sub_diag (x : float) : sf_finite (Prim2SF x) → (x - x)%float = 0%float.
Proof.
  intros Hx. apply Prim2SF_inj. rewrite sub_spec.
  destruct (Prim2SF x) as [[]|s| |s m e]; try done.
  unfold SF64sub, SFsub. by rewrite Z.sub_diag.
Qed.

Lemma zero_sub_zero (z : float) : sf_zero (Prim2SF z) → (0 - z)%float = 0%float.
Proof.
  intros Hz. apply Prim2SF_inj. rewrite sub_spec.
  by destruct (Prim2SF z) as [[]|s| |s m e].
Qed.

(** The numerator [wtilde * conj(wdiff)] for [wdiff = (0, 0)]: two zeros. *)
Lemma zero_numerator (w i0 : float) :
  sf_finite (Prim2SF w) → sf_zero (Prim2SF i0) →
  sf_zero (Prim2SF (w * 0 - i0 * - 0)) ∧ sf_zero (Prim2SF (w * - 0 + i0 * 0)).
Proof.
  intros Hw Hi. rewrite sub_spec, add_spec, !mul_spec, opp_spec.
  destruct (Prim2SF w) as [[]|sw| |[] mw ew], (Prim2SF i0) as [[]|si| |si mi ei];
    done.
Qed.

Lemma zero_mul_infinity (z : float) :
  sf_zero (Prim2SF z) → is_nan (z * infinity) = true.
Proof.
  intros Hz. rewrite is_nan_spec, mul_spec.
  by destruct (Prim2SF z) as [[]|s| |s m e].
Qed.

Lemma correctness_nan (problem_size : Z) (result : CustomComplex float) :
  is_nan (get_real result) = true → correctness problem_size result = Failure.
Proof.
  intros Hnan.
  destruct (expected_finite problem_size) as [(s1 & m1 & e1 & H1) _].
  pose proof (sub_is_nan (get_real result) _ _ _ _ H1) as Hd. rewrite Hnan in Hd.
  assert ((get_real result - (expected problem_size).1 <? 0.00001)%float = false)
    as Hlt by (apply ltb_false_iff; right; by left).
  unfold correctness, expected in *.
  case_bool_decide; simpl in Hlt; by rewrite Hlt.
Qed.

Lemma triples_elem (nb ng nc n1 my_igp ig : Z) :
  0 ≤ n1 < nb → 0 ≤ my_igp < ng → 0 ≤ ig < nc →
  (n1, my_igp, ig) ∈ triples nb ng nc.
Proof.
  intros Hn Hg Hc. unfold triples.
  apply list_elem_of_bind. exists n1. split; [|apply elem_of_seqZ; lia].
  apply list_elem_of_bind. exists my_igp. split; [|apply elem_of_seqZ; lia].
  apply list_elem_of_bind. exists ig. split; [|apply elem_of_seqZ; lia].
  by apply list_elem_of_singleton.
Qed.

(** X11. The division by [real(wdiff * conj(wdiff))] is unguarded: when
    some [wtilde_array(my_igp, ig)] equals a finite [wx_array[iw]] (with a
    zero imaginary part), [wdiff] is [(0, 0)], the quotient is infinite,
    [delw] and [sch] are NaN in both parts, and on return [achtemp_re[iw]]
    and [achtemp_im[iw]] are NaN whatever the other entries are; the
    check of [main] fails on such a result. *)
Theorem noflagOCC_solver_zero_denominator (t0 t1 : timeval) (a : solver_args)
    (x : inputs float) (re im : list float) (m : gmap loc (block float))
    (iw n1 my_igp ig : Z) (w i0 : float) :
  valid_input a x re im m →
  nstart ≤ iw < nend →
  0 ≤ n1 < number_bands a → 0 ≤ my_igp < ngpown a → 0 ≤ ig < ncouls a →
  at1 (in_wx_array x) iw = w →
  at2 (in_wtilde_array x) (ncouls a) my_igp ig = mkComplex w i0 →
  is_finite w = true → (i0 =? 0)%float = true →
  ∃ m' R I,
    noflagOCC_solver t0 t1 a m = Some m' ∧
    load_real m' (achtemp_re a) iw = Some R ∧ is_nan R = true ∧
    load_real m' (achtemp_im a) iw = Some I ∧ is_nan I = true ∧
    ∀ problem_size, correctness problem_size (mkComplex R I) = Failure.
Proof.
  intros Hv Hiw Hn1 Hmy Hig Hwx Hwt Hw Hi0.
  apply is_finite_spec in Hw. apply eqb_zero_spec in Hi0.
  assert (cnan (sch_at x (ncouls a) iw (n1, my_igp, ig))) as [Hsr Hsi].
  { unfold sch_at. do 2 apply cscale_nan. do 3 apply cmul_nan.
    unfold delw_at, wdiff_at. rewrite Hwx, Hwt.
    change (rsub w (mkComplex w i0)) with (mkComplex (w - w) (0 - i0))%float.
    rewrite (sub_diag w Hw), (zero_sub_zero i0 Hi0).
    destruct (zero_numerator w i0 Hw Hi0) as [Hr Hi].
    split; simpl; by apply zero_mul_infinity. }
  destruct (solver_sums t0 t1 a x re im m Hv) as (m' & Hrun & Hsum).
  destruct (Hsum iw Hiw) as [Hre Him].
  exists m'. eexists _, _. split; [exact Hrun|].
  assert (∀ f : Z * Z * Z → float,
            is_nan (f (n1, my_igp, ig)) = true →
            ∀ init, is_nan (running_sum init
                      (f <$> triples (number_bands a) (ngpown a) (ncouls a))) = true)
    as Hsticky.
  { intros f Hf init. apply running_sum_nan. right. eexists. split; [|exact Hf].
    apply list_elem_of_fmap. eexists. split; [done|]. by apply triples_elem. }
  split; [exact Hre|]. split; [by apply Hsticky|].
  split; [exact Him|]. split; [by apply Hsticky|].
  intros p. apply correctness_nan. by apply Hsticky.
Qed.

(** ** What a result depends on *)

Section ReadSet.
Context {T : Type} `{Scalar T}.
Local Abbreviation heap := (gmap loc (block T)).

Lemma elem_of_triples_range (nb ng nc : Z) (n1 my_igp ig : Z) :
  (n1, my_igp, ig) ∈ triples nb ng nc →
  0 ≤ n1 < nb ∧ 0 ≤ my_igp < ng ∧ 0 ≤ ig < nc.
Proof.
  unfold triples. intros Hin.
  apply list_elem_of_bind in Hin as (n & Hin & Hn).
  apply list_elem_of_bind in Hin as (g & Hin & Hg).
  apply list_elem_of_bind in Hin as (c & Hin & Hc).
  apply list_elem_of_singleton in Hin. injection Hin as -> -> ->.
  apply elem_of_seqZ in Hn, Hg, Hc. lia.
Qed.

Lemma sch_at_same_reads (a : solver_args) (x x' : inputs T) (re im : list T)
    (m : heap) (iw : Z) (t : Z * Z * Z) :
  valid_input a x re im m →
  same_reads (number_bands a) (ngpown a) (ncouls a) iw x x' →
  t ∈ triples (number_bands a) (ngpown a) (ncouls a) →
  sch_at x (ncouls a) iw t = sch_at x' (ncouls a) iw t.
Proof.
  intros Hv (Hinv & Hind & Hwx & Hwt & Hie & Hcols) Hin.
  destruct t as [[n1 my_igp] ig].
  apply elem_of_triples_range in Hin as (Hn1 & Hmy & Hig).
  destruct (valid_resolve _ _ _ _ _ Hv my_igp Hmy) as (igp & Hres & Higp).
  destruct (Hcols my_igp igp Hmy Hres) as [Hvc Hbands].
  destruct (Hbands n1 Hn1) as [Ham Han].
  assert (resolve x' my_igp = Some igp) as Hres'
    by (unfold resolve in *; by rewrite <- Hinv, <- Hind).
  unfold sch_at, delw_at, wdiff_at. rewrite Hres, Hres'.
  change (default 0 (Some igp)) with igp.
  by rewrite Hwx, Hwt, Hie, Hvc, Ham, Han.
Qed.

(** X12. The result for the frequency index [iw] depends only on the
    initial [achtemp_re[iw]], [achtemp_im[iw]], on [wx_array[iw]], on the
    two index maps, on [wtilde_array] and [I_eps_array], and on the
    columns of [aqsmtemp], [aqsntemp] and [vcoul] that the index maps
    select: the other frequencies, the other accumulator cells and the
    columns that are not selected have no influence on it. *)
Theorem noflagOCC_solver_depends_on (t0 t1 t0' t1' : timeval) (a : solver_args)
    (x x' : inputs T) (re im re' im' : list T) (m m' : heap) (iw : Z) :
  valid_input a x re im m →
  valid_input a x' re' im' m' →
  nstart ≤ iw < nend →
  same_reads (number_bands a) (ngpown a) (ncouls a) iw x x' →
  at1 re iw = at1 re' iw → at1 im iw = at1 im' iw →
  ∃ m1 m1' R I,
    noflagOCC_solver t0 t1 a m = Some m1 ∧
    noflagOCC_solver t0' t1' a m' = Some m1' ∧
    load_real m1 (achtemp_re a) iw = Some R ∧
    load_real m1' (achtemp_re a) iw = Some R ∧
    load_real m1 (achtemp_im a) iw = Some I ∧
    load_real m1' (achtemp_im a) iw = Some I.
Proof.
  intros Hv Hv' Hiw Hsame Hre Him.
  destruct (solver_sums t0 t1 a x re im m Hv) as (m1 & Hrun & Hsum).
  destruct (solver_sums t0' t1' a x' re' im' m' Hv') as (m1' & Hrun' & Hsum').
  destruct (Hsum iw Hiw) as [HR HI]. destruct (Hsum' iw Hiw) as [HR' HI'].
  exists m1, m1'. eexists _, _.
  split; [exact Hrun|]. split; [exact Hrun'|].
  split; [exact HR|]. split; [|split; [exact HI|]].
  - rewrite HR'. unfold achtemp_re_sum. rewrite <- Hre. do 2 f_equal.
    apply list_fmap_ext. intros i t Ht. apply list_elem_of_lookup_2 in Ht.
    by rewrite (sch_at_same_reads a x x' re im m iw t).
  - rewrite HI'. unfold achtemp_im_sum. rewrite <- Him. do 2 f_equal.
    apply list_fmap_ext. intros i t Ht. apply list_elem_of_lookup_2 in Ht.
    by rewrite (sch_at_same_reads a x x' re im m iw t).
Qed.
End ReadSet.

(** ** Calling the kernel again *)

Section Again.
Context {T : Type} `{Scalar T}.
Local Abbreviation heap := (gmap loc (block T)).

Lemma valid_input_timer (a : solver_args) (x : inputs T) (re im : list T)
    (m : heap) (t : list T) :
  valid_input a x re im m →
  elapsedKernelTimer a ∉
    [inv_igp_index a; indinv a; wx_array a; wtilde_array a; aqsmtemp a;
     aqsntemp a; I_eps_array a; vcoul a] →
  (0 < length t)%nat →
  valid_input a x re im (<[elapsedKernelTimer a := BReal t]> m).
Proof.
  intros Hv Hfresh Hlen.
  destruct (valid_input_fresh _ _ _ _ _ Hv (elapsedKernelTimer a)) as [Hne1 Hne2];
    [repeat constructor|].
  assert (∀ p b, p ∈ [inv_igp_index a; indinv a; wx_array a; wtilde_array a;
                       aqsmtemp a; aqsntemp a; I_eps_array a; vcoul a] →
            m !! p = Some b →
            (<[elapsedKernelTimer a := BReal t]> m) !! p = Some b) as Hkeep.
  { intros p b Hp Hb. rewrite lookup_insert_ne; [done|].
    intros Heq. apply Hfresh. by rewrite Heq. }
  destruct Hv. constructor.
  all: try assumption.
  all: try (rewrite lookup_insert_ne by congruence; assumption).
  all: try (apply Hkeep; [repeat constructor|assumption]).
  exists t. split; [apply lookup_insert_eq|assumption].
Qed.

(** X13. The kernel keeps no state of its own and never clears the
    accumulators: a second call on the heap the first one left returns,
    and continues the running sums where the first call stopped, adding
    the same terms once more. *)
Theorem noflagOCC_solver_twice (t0 t1 t2 t3 : timeval) (a : solver_args)
    (x : inputs T) (re im : list T) (m : heap) :
  valid_input a x re im m →
  elapsedKernelTimer a ∉
    [inv_igp_index a; indinv a; wx_array a; wtilde_array a; aqsmtemp a;
     aqsntemp a; I_eps_array a; vcoul a] →
  ∃ m1 m2,
    noflagOCC_solver t0 t1 a m = Some m1 ∧
    noflagOCC_solver t2 t3 a m1 = Some m2 ∧
    ∀ iw, nstart ≤ iw < nend →
      load_real m2 (achtemp_re a) iw
        = Some (achtemp_re_sum x (number_bands a) (ngpown a) (ncouls a) iw
                  (achtemp_re_sum x (number_bands a) (ngpown a) (ncouls a) iw
                     (at1 re iw))) ∧
      load_real m2 (achtemp_im a) iw
        = Some (achtemp_im_sum x (number_bands a) (ngpown a) (ncouls a) iw
                  (achtemp_im_sum x (number_bands a) (ngpown a) (ncouls a) iw
                     (at1 im iw))).
Proof.
  intros Hv Hfresh.
  destruct (noflagOCC_solver_refine t0 t1 a x re im m Hv)
    as (m0 & m1 & t & _ & Ht & -> & Hrun & Hv0).
  unfold holds in Hv0. rewrite fold_kernel_triples in Hv0.
  set (s := foldl (fold_triple x (ncouls a)) (re, im)
              (triples (number_bands a) (ngpown a) (ncouls a))) in *.
  destruct (valid_timer _ _ _ _ _ Hv0) as (t' & Ht' & Hlen).
  assert (t' = t) as -> by congruence.
  pose proof (valid_input_timer a x s.1 s.2 m0 (<[0%nat := elapsed t0 t1]> t)
                Hv0 Hfresh ltac:(by rewrite length_insert)) as Hv1.
  destruct (solver_sums t2 t3 a x s.1 s.2 _ Hv1) as (m2 & Hrun2 & Hsum).
  eexists _, m2. split; [exact Hrun|]. split; [exact Hrun2|]. intros iw Hiw.
  destruct (fold_triples_slots x (ncouls a)
              (triples (number_bands a) (ngpown a) (ncouls a)) re im)
    as (_ & _ & Hslots);
    [apply (valid_len_achtemp_re _ _ _ _ _ Hv)
    |apply (valid_len_achtemp_im _ _ _ _ _ Hv)|].
  destruct (Hslots iw Hiw) as [Hre Him]. fold s in Hre, Him.
  destruct (Hsum iw Hiw) as [-> ->].
  unfold achtemp_re_sum, achtemp_im_sum. by rewrite Hre, Him.
Qed.
End Again.

(** ** The allocations of [main] *)

Section AllocFacts.
Context {A : Type} (malloc : Z → A → loc * A).

Lemma safe_malloc_Ret (n : Z) (s s' : A) (p : loc) :
  safe_malloc malloc n s = Ret p s' ↔ malloc n s = (p, s') ∧ p ≠ NULL.
Proof.
  unfold safe_malloc. destruct (malloc n s) as [q t]. case_bool_decide as Hq.
  - split; [done|]. intros [[= -> ->] Hp]. done.
  - split; [by intros [= -> ->]|by intros [[= -> ->] _]].
Qed.

Lemma safe_malloc_Abort (n n' : Z) (s : A) :
  safe_malloc malloc n s = Abort n' ↔ (malloc n s).1 = NULL ∧ n' = n.
Proof.
  unfold safe_malloc. destruct (malloc n s) as [q t]. simpl.
  case_bool_decide as Hq; [|by split; [|intros [? _]]].
  split; [by intros [= ->]|by intros [_ ->]].
Qed.

Lemma alloc_bind_Ret {X Y : Type} (r : alloc_result X)
    (k : X → A → alloc_result Y) (y : Y) (s' : A) :
  alloc_bind r k = Ret y s' → ∃ x s, r = Ret x s ∧ k x s = Ret y s'.
Proof. destruct r as [x s|n]; [|done]. intros Hk. by exists x, s. Qed.

(** X14. [safe_malloc] never returns [NULL]: it returns the pointer
    [malloc] gave, or aborts with a message naming the requested size.
    So when the allocations of [main] are over, each of the eleven array
    pointers is one [malloc] returned and none is [NULL]. *)
Theorem main_alloc_not_null (r : requests) (nb ng nc : Z) (timer : loc)
    (s s' : A) (achtemp : loc) (a : solver_args) :
  main_alloc malloc r nb ng nc timer s = Ret (achtemp, a) s' →
  Forall (λ p, p ≠ NULL)
    [achtemp; aqsmtemp a; aqsntemp a; I_eps_array a; wtilde_array a; vcoul a;
     inv_igp_index a; indinv a; achtemp_re a; achtemp_im a; wx_array a]
  ∧ number_bands a = nb ∧ ngpown a = ng ∧ ncouls a = nc
  ∧ elapsedKernelTimer a = timer.
Proof.
  unfold main_alloc. intros Hrun.
  do 11 (apply alloc_bind_Ret in Hrun as (? & ? & [_ ?]%safe_malloc_Ret & Hrun)).
  injection Hrun as <- <- <-. simpl. repeat constructor; done.
Qed.

(** X15. With such a [malloc], the eleven arrays of [main] are eleven
    different objects: the pointers are pairwise distinct. *)
Theorem main_alloc_distinct (live : A → loc → Prop) (r : requests)
    (nb ng nc : Z) (timer : loc) (s s' : A) (achtemp : loc) (a : solver_args) :
  allocator malloc live →
  main_alloc malloc r nb ng nc timer s = Ret (achtemp, a) s' →
  NoDup [achtemp; aqsmtemp a; aqsntemp a; I_eps_array a; wtilde_array a; vcoul a;
         inv_igp_index a; indinv a; achtemp_re a; achtemp_im a; wx_array a].
Proof.
  intros Halloc. unfold main_alloc. intros Hrun.
  do 11 (let Hm := fresh "Hm" in
         let Hp := fresh "Hp" in
         apply alloc_bind_Ret in Hrun as (? & ? & Hm & Hrun);
         apply safe_malloc_Ret in Hm as [Hm Hp];
         destruct (Halloc _ _ _ _ Hm Hp) as (? & ? & ?)).
  injection Hrun as <- <- <-. simpl.
  repeat (apply NoDup_cons; split;
          [rewrite ?not_elem_of_cons; repeat split;
           try apply not_elem_of_nil;
           intros Heq;
           match goal with
           | Hnot : ¬ live _ ?q |- _ =>
               first [rewrite <- Heq in Hnot | rewrite Heq in Hnot];
               apply Hnot; eauto 15
           end|]).
  apply NoDup_nil_2.
Qed.
End AllocFacts.

Lemma noflagOCC_solver_zero_denominator_witness :
  ∃ m' R I,
    noflagOCC_solver demo_clock_start demo_clock_end (demo_args 1 1 2)
      (demo_heap (degenerate_inputs 4%float) zero_acc zero_acc 0%float) = Some m' ∧
    load_real m' 9 0 = Some R ∧ is_nan R = true ∧
    load_real m' 10 0 = Some I ∧ is_nan I = true ∧
    ∀ problem_size, correctness problem_size (mkComplex R I) = Failure.
Proof.
  apply (noflagOCC_solver_zero_denominator demo_clock_start demo_clock_end
           (demo_args 1 1 2) (degenerate_inputs 4%float) zero_acc zero_acc _
           0 0 0 0 3%float 0%float).
  - apply demo_valid. vm_compute. reflexivity.
  - done.
  - simpl. lia.
  - simpl. lia.
  - simpl. lia.
  - reflexivity.
  - reflexivity.
  - reflexivity.
  - reflexivity.
Defined.

Lemma noflagOCC_solver_depends_on_witness :
  ∃ m1 m1' R I,
    noflagOCC_solver demo_clock_start demo_clock_end (demo_args 1 1 2)
      (demo_heap (demo_inputs 4%float) [1; 2; 3]%float [4; 5; 6]%float 0%float)
      = Some m1 ∧
    noflagOCC_solver demo_clock_end demo_clock_start (demo_args 1 1 2)
      (demo_heap other_inputs [1; 7; 8]%float [4; 9; 9]%float 1%float)
      = Some m1' ∧
    load_real m1 9 0 = Some R ∧ load_real m1' 9 0 = Some R ∧
    load_real m1 10 0 = Some I ∧ load_real m1' 10 0 = Some I.
Proof.
  apply (noflagOCC_solver_depends_on demo_clock_start demo_clock_end
           demo_clock_end demo_clock_start (demo_args 1 1 2)
           (demo_inputs 4%float) other_inputs
           [1; 2; 3]%float [4; 5; 6]%float [1; 7; 8]%float [4; 9; 9]%float).
  - apply demo_valid. vm_compute. reflexivity.
  - apply demo_valid. vm_compute. reflexivity.
  - done.
  - repeat (split; [reflexivity|]).
    intros my_igp igp Hmy. assert (my_igp = 0) as -> by (simpl in Hmy; lia).
    intros [= <-]. split; [reflexivity|].
    intros n1 Hn1. assert (n1 = 0) as -> by (simpl in Hn1; lia).
    split; reflexivity.
  - reflexivity.
  - reflexivity.
Defined.

Lemma noflagOCC_solver_twice_witness :
  ∃ m1 m2,
    noflagOCC_solver demo_clock_start demo_clock_end (demo_args 1 1 2)
      (demo_heap (demo_inputs 4%float) [1; 2; 3]%float [4; 5; 6]%float 0%float)
      = Some m1 ∧
    noflagOCC_solver demo_clock_end demo_clock_start (demo_args 1 1 2) m1
      = Some m2 ∧
    ∀ iw, nstart ≤ iw < nend →
      load_real m2 9 iw
        = Some (achtemp_re_sum (demo_inputs 4%float) 1 1 2 iw
                  (achtemp_re_sum (demo_inputs 4%float) 1 1 2 iw
                     (at1 [1; 2; 3]%float iw))) ∧
      load_real m2 10 iw
        = Some (achtemp_im_sum (demo_inputs 4%float) 1 1 2 iw
                  (achtemp_im_sum (demo_inputs 4%float) 1 1 2 iw
                     (at1 [4; 5; 6]%float iw))).
Proof.
  apply (noflagOCC_solver_twice demo_clock_start demo_clock_end
           demo_clock_end demo_clock_start (demo_args 1 1 2)
           (demo_inputs 4%float)).
  - apply demo_valid. vm_compute. reflexivity.
  - intros Hin. repeat (apply elem_of_cons in Hin as [Hin|Hin]; [done|]).
    by apply elem_of_nil in Hin.
Defined.

Lemma main_alloc_not_null_witness :
  let a := {| number_bands := 2; ngpown := 3; ncouls := 3;
              inv_igp_index := 7; indinv := 8; wx_array := 11;
              wtilde_array := 5; aqsmtemp := 2; aqsntemp := 3;
              I_eps_array := 4; vcoul := 6; achtemp_re := 9;
              achtemp_im := 10; elapsedKernelTimer := 100 |} in
  main_alloc (bump 1000) demo_requests 2 3 3 100 0 = Ret (1, a) 11
  ∧ Forall (λ p, p ≠ NULL) [1; 2; 3; 4; 5; 6; 7; 8; 9; 10; 11]
  ∧ 2 = 2 ∧ 3 = 3 ∧ 3 = 3 ∧ 100 = 100.
Proof.
  split; [reflexivity|].
  apply (main_alloc_not_null (bump 1000) demo_requests 2 3 3 100 0 11 1
           {| number_bands := 2; ngpown := 3; ncouls := 3;
              inv_igp_index := 7; indinv := 8; wx_array := 11;
              wtilde_array := 5; aqsmtemp := 2; aqsntemp := 3;
              I_eps_array := 4; vcoul := 6; achtemp_re := 9;
              achtemp_im := 10; elapsedKernelTimer := 100 |}).
  reflexivity.
Defined.

Lemma bump_allocator (limit : Z) : allocator (bump limit) (λ s q, q ≤ s).
Proof.
  intros n s p s'. unfold bump. case_bool_decide.
  - intros [= <- <-] _. split; [lia|]. split; [lia|]. intros q. lia.
  - by intros [= <- <-].
Qed.

Lemma main_alloc_distinct_witness :
  let a := {| number_bands := 2; ngpown := 3; ncouls := 3;
              inv_igp_index := 7; indinv := 8; wx_array := 11;
              wtilde_array := 5; aqsmtemp := 2; aqsntemp := 3;
              I_eps_array := 4; vcoul := 6; achtemp_re := 9;
              achtemp_im := 10; elapsedKernelTimer := 100 |} in
  main_alloc (bump 1000) demo_requests 2 3 3 100 0 = Ret (1, a) 11
  ∧ NoDup [1; 2; 3; 4; 5; 6; 7; 8; 9; 10; 11].
Proof.
  split; [reflexivity|].
  apply (main_alloc_distinct (bump 1000) (λ s q, q ≤ s) demo_requests 2 3 3 100
           0 11 1
           {| number_bands := 2; ngpown := 3; ncouls := 3;
              inv_igp_index := 7; indinv := 8; wx_array := 11;
              wtilde_array := 5; aqsmtemp := 2; aqsntemp := 3;
              I_eps_array := 4; vcoul := 6; achtemp_re := 9;
              achtemp_im := 10; elapsedKernelTimer := 100 |}).
  - apply bump_allocator.
  - reflexivity.
Defined.
(** ** Fewer plane waves than nodes per group *)

Lemma init_index_maps_no_group {T : Type} (ncouls : Z) (a : solver_args)
    (l2 : list Z) (m : gmap loc (block T)) :
  1 ≤ ncouls ≤ INT_MAX →
  m !! indinv a = Some (BInt l2) → Z.of_nat (length l2) = ncouls + 1 →
  init_index_maps 0 ncouls a m
  = Some (<[indinv a := BInt (seqZ 0 ncouls ++ [ncouls - 1])]> m).
Proof.
  intros Hnc Hp2 Hlen2. unfold init_index_maps.
  rewrite for_loop_empty by done. cbn [mbind option_bind].
  rewrite (fill1_loop BInt store_int store_int_block (indinv a)
             (λ ig, ig) 0 ncouls l2); [|done|lia|lia|done|done].
  cbn [mbind option_bind]. unfold int_sub.
  rewrite int_range_in by (unfold INT_MIN, INT_MAX in *; lia).
  cbn [mbind option_bind].
  rewrite (store_int_block _ (indinv a) (fill (λ ig, ig) (0 + ncouls) l2));
    [|apply lookup_insert_eq|rewrite length_fill by lia; lia].
  rewrite insert_insert_eq, Z.add_0_l, insert_fill_last by lia.
  by rewrite list_fmap_id.
Qed.

Lemma init_tables_no_group (ncouls : Z) (a : solver_args)
    (lv lre lim lwx : list float) (lind : list Z) (m : gmap loc (block float)) :
  NoDup [vcoul a; indinv a; achtemp_re a; achtemp_im a; wx_array a] →
  1 ≤ ncouls ≤ INT_MAX →
  m !! vcoul a = Some (BReal lv) → Z.of_nat (length lv) = ncouls →
  m !! indinv a = Some (BInt lind) → Z.of_nat (length lind) = ncouls + 1 →
  m !! achtemp_re a = Some (BReal lre) → Z.of_nat (length lre) = nend - nstart →
  m !! achtemp_im a = Some (BReal lim) → Z.of_nat (length lim) = nend - nstart →
  m !! wx_array a = Some (BReal lwx) → Z.of_nat (length lwx) = nend - nstart →
  init_tables 0 ncouls a m
  = Some (<[wx_array a := BReal (wx_of <$> seqZ nstart (nend - nstart))]> (
          <[achtemp_im a := BReal zero_acc]> (
          <[achtemp_re a := BReal zero_acc]> (
          <[indinv a := BInt (seqZ 0 ncouls ++ [ncouls - 1])]> (
          <[vcoul a := BReal ((λ i, float_of_int i * 0.025)%float
                                <$> seqZ 0 ncouls)]> m))))).
Proof.
  intros Hnd Hnc Hv Hlv Hind Hlind Hre Hlre Him Hlim Hwx Hlwx.
  split_distinct Hnd.
  unfold init_tables.
  rewrite (init_vcoul_spec ncouls a lv) by (done || arith).
  cbn [mbind option_bind].
  rewrite (init_index_maps_no_group ncouls a lind);
    [|arith|by heap_lookup|done].
  cbn [mbind option_bind].
  rewrite (init_achtemp_spec a lre lim);
    [|done|by heap_lookup|done|by heap_lookup|done].
  cbn [mbind option_bind].
  rewrite (init_wx_array_spec a lwx); [done|by heap_lookup|done].
Qed.

Lemma main_init_no_group (a : solver_args) (m : gmap loc (block float)) :
  allocated a m →
  0 ≤ number_bands a → ngpown a = 0 → 1 ≤ ncouls a ≤ INT_MAX →
  number_bands a * ncouls a ≤ INT_MAX →
  ∃ m1 t,
    main_init (number_bands a) 0 (ncouls a) a m = Some m1
    ∧ m1 !! achtemp_re a = Some (BReal zero_acc)
    ∧ m1 !! achtemp_im a = Some (BReal zero_acc)
    ∧ m1 !! elapsedKernelTimer a = Some (BReal t) ∧ (0 < length t)%nat
    ∧ frame [aqsmtemp a; aqsntemp a; vcoul a; indinv a; achtemp_re a;
             achtemp_im a; wx_array a] m m1.
Proof.
  intros [Hnd (linv & Hinv & Hlinv) (lind & Hind & Hlind) (lwx & Hwx & Hlwx)
            (lwt & Hwt & Hlwt) (lam & Ham & Hlam) (lan & Han & Hlan)
            (lie & Hie & Hlie) (lv & Hv & Hlv) (lre & Hre & Hlre)
            (lim & Him & Hlim) (lt & Ht & Hlt)] Hnb Hng Hnc Hmax.
  assert (NoDup [vcoul a; indinv a; achtemp_re a; achtemp_im a; wx_array a])
    as Hnd5.
  { pose proof Hnd as Hnd'. split_distinct Hnd'.
    repeat (apply NoDup_cons; split;
            [rewrite ?not_elem_of_cons; repeat split; done || apply not_elem_of_nil|]).
    apply NoDup_nil_2. }
  split_distinct Hnd.
  unfold main_init, init_bands, init_groups.
  rewrite (fill_2d (aqsmtemp a) (aqsntemp a) expr (number_bands a) (ncouls a)
             lam lan) by (done || arith).
  cbn [mbind option_bind].
  rewrite (for_loop_empty 0 0) by done. cbn [mbind option_bind].
  rewrite (init_tables_no_group (ncouls a) a lv lre lim lwx lind);
    [|done|arith|by heap_lookup|done|by heap_lookup|done|by heap_lookup|done
     |by heap_lookup|done|by heap_lookup|done].
  cbn [mbind option_bind].
  rewrite (init_tables_no_group (ncouls a) a
             ((λ i, float_of_int i * 0.025)%float <$> seqZ 0 (ncouls a))
             zero_acc zero_acc (wx_of <$> seqZ nstart (nend - nstart))
             (seqZ 0 (ncouls a) ++ [ncouls a - 1]));
    [|done|arith|by heap_lookup| |by heap_lookup| |by heap_lookup|done
     |by heap_lookup|done|by heap_lookup|done].
  2:{ rewrite length_fmap, length_seqZ. arith. }
  2:{ rewrite length_app, length_seqZ. simpl. arith. }
  eexists _, lt. split; [done|].
  split; [by heap_lookup|]. split; [by heap_lookup|].
  split; [by heap_lookup|]. split; [done|].
  intros p Hp. rewrite !not_elem_of_cons in Hp. destruct_and!.
  by rewrite !lookup_insert_ne by done.
Qed.

(** X16. With sizes given on the command line such that
    [1 <= ncouls < nodes_per_group], [ngpown] is 0: no division and no
    kernel iteration takes place, [achtemp[0]] stays [(0, 0)], the check
    against the test reference fails, and [main] ends by
    [exit(EXIT_FAILURE)]. *)
Theorem main_no_group_point (atoi : string → Z) (argv : list string) (s : sizes)
    (t0 t1 : timeval) (ptrs : solver_args) (achtemp : loc)
    (lc : list (CustomComplex float)) (m : gmap loc (block float)) :
  problem_sizes atoi argv = Run s →
  0 ≤ sz_number_bands s → 1 ≤ sz_ncouls s < sz_nodes_per_group s →
  sz_nodes_per_group s ≤ INT_MAX →
  sz_number_bands s * sz_ncouls s ≤ INT_MAX →
  number_bands ptrs = sz_number_bands s → ngpown ptrs = 0 →
  ncouls ptrs = sz_ncouls s →
  allocated ptrs m →
  m !! achtemp = Some (BCplx lc) → Z.of_nat (length lc) = nend - nstart →
  achtemp ∉ [inv_igp_index ptrs; indinv ptrs; wx_array ptrs; wtilde_array ptrs;
             aqsmtemp ptrs; aqsntemp ptrs; I_eps_array ptrs; vcoul ptrs;
             achtemp_re ptrs; achtemp_im ptrs; elapsedKernelTimer ptrs] →
  main atoi argv t0 t1 ptrs achtemp m = Some (Exited EXIT_FAILURE).
Proof.
  intros Hsizes Hnb Hnc Hnpg Hmax Hpnb Hpng Hpnc Halloc Hc Hlc Hfresh.
  assert (derive_ngpown s = Some 0) as Hder.
  { unfold derive_ngpown. apply int_div_Some.
    rewrite Z.quot_small by lia. split; [lia|]. split; [done|]. done. }
  assert (checked_problem argv = 1) as Hchk.
  { destruct (checked_problem_cases argv) as [?|[_ [prog ->]]]; [done|].
    simpl in Hsizes. injection Hsizes as <-. simpl in Hnc. lia. }
  unfold main. rewrite Hsizes, Hder, Hchk. cbn [mbind option_bind]. cbv zeta.
  assert (INT_MAX < size_max) as Hsm by done.
  assert (to_size_t (sz_number_bands s) = number_bands ptrs
          ∧ to_size_t 0 = ngpown ptrs
          ∧ to_size_t (sz_ncouls s) = ncouls ptrs) as (-> & -> & ->).
  { unfold to_size_t. rewrite !Z.mod_small; [by rewrite Hpnb, Hpng, Hpnc|nia..]. }
  replace (Build_solver_args _ _ _ _ _ _ _ _ _ _ _ _ _ _) with ptrs
    by (by destruct ptrs).
  rewrite <- Hpnb, <- Hpnc in *.
  destruct (main_init_no_group ptrs m Halloc)
    as (m1 & t & -> & Hre & Him & Ht & Hlt & Hframe); [done|done|lia|done|].
  cbn [mbind option_bind].
  rewrite !not_elem_of_cons in Hfresh. destruct_and!.
  unfold noflagOCC_solver.
  rewrite target_loop_no_iteration by (by right). cbn [mbind option_bind].
  rewrite (store_real_block m1 _ t) by (done || lia). cbn [mbind option_bind].
  assert (elapsedKernelTimer ptrs ∉ [achtemp_re ptrs; achtemp_im ptrs]) as Hti.
  { destruct Halloc as [Hnd _ _ _ _ _ _ _ _ _ _ _]. split_distinct Hnd.
    rewrite !not_elem_of_cons. repeat split; [done..|]. apply not_elem_of_nil. }
  rewrite !not_elem_of_cons in Hti. destruct_and!.
  match goal with |- context [for_loop nstart nend _ ?m2] =>
    destruct (assemble_achtemp ptrs achtemp zero_acc zero_acc lc m2)
      as (m3 & Hasm & Hload & _)
  end;
    [by rewrite lookup_insert_ne|done|by rewrite lookup_insert_ne|done| |done..|].
  { rewrite lookup_insert_ne by done. rewrite Hframe; [done|].
    rewrite !not_elem_of_cons. repeat split; [done..|]. apply not_elem_of_nil. }
  rewrite Hasm. cbn [mbind option_bind]. rewrite Hload. cbn [mbind option_bind].
  vm_compute. reflexivity.
Qed.

Lemma main_no_group_point_witness :
  let atoi := λ arg : string,
    if bool_decide (arg = "2"%string) then 2 else 20 in
  main atoi ["gpp"; "2"; "2"; "2"; "20"]%string demo_clock_start demo_clock_end
    (demo_args 2 0 2) 12
    (<[12 := BCplx (replicate 3 (mkComplex 1%float 2%float))]>
       (demo_heap (scenario_inputs 2 0 2) [1; 2; 3]%float [4; 5; 6]%float
          0%float))
  = Some (Exited EXIT_FAILURE).
Proof.
  apply (main_no_group_point _ _
           {| sz_number_bands := 2; sz_nvband := 2; sz_ncouls := 2;
              sz_nodes_per_group := 20 |} _ _ _ _
           (replicate 3 (mkComplex 1%float 2%float))).
  - reflexivity.
  - simpl. lia.
  - simpl. lia.
  - vm_compute. discriminate.
  - vm_compute. discriminate.
  - reflexivity.
  - reflexivity.
  - reflexivity.
  - apply allocated_insert; [|apply demo_fresh].
    apply demo_allocated. vm_compute. reflexivity.
  - apply lookup_insert_eq.
  - reflexivity.
  - apply demo_fresh.
Defined.
